(** * speech-bubble-translate: bubble grouping and text layout

    A shallow embedding of the two algorithmic cores of the repository:

    - [visualize_bounds.py]: clustering OCR fragments into bubble groups,
      merging groups whose bounding boxes overlap, keeping the largest
      groups and building the persisted bubble records;
    - [insert_translated_text.py]: [fit_text_to_bubble], the font-size
      scan with word wrapping and character-level hyphenation.

    Python integers are [Z].  Python floats are idealised as exact
    rationals ([Q]): the products [bubble_width * 0.95], the quotient
    [bubble_width * 0.9 / w] and the scaled centre coordinates are
    computed without rounding.  Exceptions are values of [exn], carried
    on the left of a sum. *)

From Stdlib Require Import ZArith QArith Lia List String Ascii Permutation.
From stdpp Require Import base list strings gmap sorting.
From Equations Require Import Equations.
Import ListNotations.

Open Scope Z_scope.

(* ===================================================================== *)
(** * Python prelude *)
(* ===================================================================== *)

Module Py.

(** The exceptions the modelled code can raise. *)
Inductive exn : Type :=
| ValueError
| ZeroDivisionError
| TypeError.

(** A computation either raises or returns. *)
Definition result (A : Type) : Type := (exn + A)%type.

Definition ret {A} (a : A) : result A := inr a.
Definition raise {A} (e : exn) : result A := inl e.

Definition bind {A B} (m : result A) (k : A -> result B) : result B :=
  match m with
  | inl e => inl e
  | inr a => k a
  end.

Definition returns {A} (m : result A) : Prop := exists a, m = inr a.
Definition raises {A} (m : result A) : Prop := exists e, m = inl e.

(** [min(xs)] and [max(xs)] over a sequence of integers: [ValueError]
    on the empty sequence. *)
Definition py_min (xs : list Z) : result Z :=
  match xs with
  | [] => raise ValueError
  | x :: xs' => ret (fold_left Z.min xs' x)
  end.

Definition py_max (xs : list Z) : result Z :=
  match xs with
  | [] => raise ValueError
  | x :: xs' => ret (fold_left Z.max xs' x)
  end.

(** [int(q)] on a float: truncation towards zero. *)
Definition py_int (q : Q) : Z := Z.quot (Qnum q) (Zpos (Qden q)).

(** [a / b] on floats: [ZeroDivisionError] when the divisor is zero. *)
Definition py_truediv (a b : Q) : result Q :=
  if Qeq_bool b 0 then raise ZeroDivisionError else ret (a / b)%Q.

(** [n <= q] for an integer [n] and a float [q]. *)
Definition int_le_float (n : Z) (q : Q) : bool := Qle_bool (inject_Z n) q.

(** [range(start, stop, -1)]: [start, start-1, ..., stop+1]. *)
Definition range_down (start stop : Z) : list Z :=
  map (fun k => start - Z.of_nat k) (seq 0 (Z.to_nat (start - stop))).

(** Python strings are sequences of characters. *)
Definition str : Type := list ascii.

Definition lit (text : string) : str := list_ascii_of_string text.

(** [c.isspace()] for the characters below 256. *)
Definition isspace (c : ascii) : bool :=
  let n := nat_of_ascii c in
  ((9 <=? n)%nat && (n <=? 13)%nat)
  || ((28 <=? n)%nat && (n <=? 32)%nat)
  || (n =? 133)%nat || (n =? 160)%nat.

(** [text.split()]: the maximal runs of non-whitespace characters.
    [cur] is the word being read, kept reversed. *)
Fixpoint split_from (cur : str) (text : str) : list str :=
  match text with
  | [] => match cur with [] => [] | _ => [rev cur] end
  | c :: rest =>
      if isspace c
      then match cur with
           | [] => split_from [] rest
           | _ => rev cur :: split_from [] rest
           end
      else split_from (c :: cur) rest
  end.

Definition split (text : str) : list str := split_from [] text.

(** A value together with the equation that names it, for definitions
    by well-founded recursion that branch on an intermediate result. *)
Definition inspect {A} (a : A) : {b : A | a = b} := exist _ a eq_refl.

(** A word: not empty and free of whitespace. *)
Definition solid (word : str) : Prop :=
  word <> [] /\ Forall (fun c => isspace c = false) word.

(** [text.lstrip()] and [text.strip()]: leading, and leading and
    trailing, whitespace removed. *)
Fixpoint lstrip (text : str) : str :=
  match text with
  | [] => []
  | c :: rest => if isspace c then lstrip rest else text
  end.

Definition strip (text : str) : str := rev (lstrip (rev (lstrip text))).

(** [text.split(sep)] for a separator of one character: the pieces
    between the occurrences of [sep], empty pieces included. *)
Fixpoint split_on (sep : ascii) (text : str) : list str :=
  match text with
  | [] => [[]]
  | c :: rest =>
      if Ascii.eqb c sep then [] :: split_on sep rest
      else match split_on sep rest with
           | piece :: pieces => (c :: piece) :: pieces
           | [] => [[c]]
           end
  end.

End Py.

Notation "'do' x <- m ; k" := (Py.bind m (fun x => k))
  (at level 10, x name, m at level 100, k at level 200).

(* ===================================================================== *)
(** * insert_translated_text.py *)
(* ===================================================================== *)

Module InsertText.
Import Py.

(** [ImageFont.truetype(font_path, size)]: the font file is fixed, so a
    loaded font is identified by its size. *)
Record font : Type := truetype { size : Z }.

(** [font.getbbox(text)] is [(left, top, right, bottom)]. *)
Definition bbox : Type := (Z * Z * Z * Z)%type.
Definition bbox2 (b : bbox) : Z := let '(_, _, x1, _) := b in x1.
Definition bbox3 (b : bbox) : Z := let '(_, _, _, y1) := b in y1.

(** The font-metrics provider (Pillow) behind [font_path]. *)
Class FontMetrics : Type := { getbbox : font -> str -> bbox }.

(** The line breaker of [textwrap] for a positive width. *)
Class TextWrapper : Type := { wrap_lines : str -> Z -> list str }.

(** [textwrap.wrap(text, width)]: the library rejects a width that is
    not positive before it looks at the text. *)
Definition textwrap_wrap `{TextWrapper} (text : str) (width : Z) : result (list str) :=
  if width <=? 0 then raise ValueError else ret (wrap_lines text width).

Definition min_font_size : Z := 12.
Definition max_font_size : Z := 64.

(** The module constant [FONT_SIZE], default of [font_size]. *)
Definition FONT_SIZE : Z := 16.

(** ** find_speech_bubble_bounds *)

(** [find_speech_bubble_bounds(image_path)] on what the image libraries
    report: [shape] is [img.shape], that is (rows, columns, channels),
    and [largest] is [cv2.boundingRect] of the largest contour of the
    alpha mask, when there is a contour. *)
Definition find_speech_bubble_bounds (shape : Z * Z * Z)
           (largest : option (Z * Z * Z * Z)) : Z * Z * Z * Z :=
  let '(rows, columns, channels) := shape in
  if channels =? 4 then
    match largest with
    | None => (0, 0, columns, rows)
    | Some (x, y, w, h) =>
        let padding_x := py_int (inject_Z w * 0.1)%Q in
        let padding_y := py_int (inject_Z h * 0.1)%Q in
        let x := Z.max 0 (x + padding_x) in
        let y := Z.max 0 (y + padding_y) in
        let w := Z.min (columns - x) (w - 2 * padding_x) in
        let h := Z.min (rows - y) (h - 2 * padding_y) in
        (x, y, w, h)
    end
  else (0, 0, columns, rows).

(** ** Bubbles read back from the JSON files *)

(** A bubble of the list [data['bubbles']] of a final-bounds file or of
    a translated file.  The readers use [.get], so every key may be
    missing; when present, the geometry is integer and the text is a
    string, as [save_final_bounds] writes them. *)
Module Parsed.
Record t : Type := make
  { x : option Z; y : option Z; width : option Z; height : option Z;
    text : option str }.
End Parsed.

(** [get_translated_text(spread_num, bubble_num, bubble_index, language,
    translated_dir)] on the contents of the two files it looks for:
    [translated] is [data.get('bubbles', [])] of the translated JSON
    file, [None] when that file does not exist or cannot be read
    (the [except] clause), and [old] is the text of the [.txt] file of
    the old layout, when it exists. *)
Definition get_translated_text (translated : option (list Parsed.t))
           (old : option str) (bubble_index : Z) : option str :=
  let old_method :=
    match old with
    | Some content => Some (strip content)
    | None => None
    end in
  match translated with
  | Some bubbles =>
      if (0 <=? bubble_index) && (bubble_index <? Z.of_nat (length bubbles)) then
        let bubble_text :=
          default [] (bubbles !! Z.to_nat bubble_index ≫= Parsed.text) in
        match bubble_text with
        | [] => None
        | _ => Some bubble_text
        end
      else
        match bubbles with
        | first :: _ =>
            if Z.of_nat (length bubbles) <=? bubble_index then
              let bubble_text := default [] (Parsed.text first) in
              match bubble_text with
              | [] => None
              | _ => Some bubble_text
              end
            else old_method
        | [] => old_method
        end
  | None => old_method
  end.

Section Fit.
Context `{FontMetrics} `{TextWrapper}.

(** [bubble_width * 0.95]. *)
Definition width_budget (bubble_width : Z) : Q := (inject_Z bubble_width * 0.95)%Q.
Definition height_budget (bubble_height : Z) : Q := (inject_Z bubble_height * 0.95)%Q.

(** [font.getbbox(text)[2] <= bubble_width * 0.95]. *)
Definition fits_width (f : font) (bubble_width : Z) (text : str) : bool :=
  int_le_float (bbox2 (getbbox f text)) (width_budget bubble_width).

(** [font.getbbox(text)[2] > bubble_width * 0.95]. *)
Definition exceeds_width (f : font) (bubble_width : Z) (text : str) : bool :=
  negb (fits_width f bubble_width text).

(** [remaining_word[:i]], followed by a hyphen when [i < len(remaining_word)]. *)
Definition test_segment (remaining_word : str) (i : nat) : str :=
  take i remaining_word
    ++ (if (i <? length remaining_word)%nat then lit "-" else []).

(** [for i in range(len(remaining_word), 0, -1)]: the first [i], from
    [start] downwards, whose segment fits. *)
Fixpoint find_fit (f : font) (bubble_width : Z) (remaining_word : str)
         (start : nat) : option nat :=
  match start with
  | O => None
  | S i' =>
      if fits_width f bubble_width (test_segment remaining_word start)
      then Some start
      else find_fit f bubble_width remaining_word i'
  end.

Lemma find_fit_range f bw w start i :
  find_fit f bw w start = Some i -> (1 <= i <= start)%nat.
Proof.
  induction start as [|k IH]; simpl; [discriminate|].
  destruct (fits_width f bw (test_segment w (S k))).
  - intros [= <-]. lia.
  - intros Hk. specialize (IH Hk). lia.
Qed.

(** [while remaining_word:] the lines emitted for a word that does not
    fit on a line of its own. *)
Equations? hyphenate (f : font) (bubble_width : Z) (remaining_word : str)
  : list str by wf (length remaining_word) lt :=
  hyphenate f bubble_width [] := [];
  hyphenate f bubble_width (c :: w)
    with inspect (find_fit f bubble_width (c :: w) (length (c :: w))) := {
    | exist _ (Some i) _ :=
        test_segment (c :: w) i :: hyphenate f bubble_width (drop i (c :: w));
    | exist _ None _ :=
        [c] :: hyphenate f bubble_width w }.
Proof.
  apply (find_fit_range f bubble_width (c :: w) (S (length w))) in e.
  rewrite length_drop. simpl. lia.
Qed.

(** One turn of [for word in words:], on the state [(lines, current_line)]. *)
Definition add_word (f : font) (bubble_width : Z)
           (st : list str * str) (word : str) : list str * str :=
  let '(lines, current_line) := st in
  match word with
  | [] => st
  | _ =>
      let test_line :=
        match current_line with
        | [] => word
        | _ => current_line ++ lit " " ++ word
        end in
      if fits_width f bubble_width test_line
      then (lines, test_line)
      else
        let lines' :=
          match current_line with
          | [] => lines
          | _ => lines ++ [current_line]
          end in
        if exceeds_width f bubble_width word
        then (lines' ++ hyphenate f bubble_width word, [])
        else (lines', word)
  end.

(** The hyphenating wrap (the second attempt of each size, and the
    final fallback, which repeats the same statements). *)
Definition wrap_hyphenated (f : font) (text : str) (bubble_width : Z) : list str :=
  let '(lines, current_line) :=
    fold_left (add_word f bubble_width) (split text) ([], []) in
  match current_line with
  | [] => lines
  | _ => lines ++ [current_line]
  end.

Definition layout : Type := (font * list str * Z)%type.

Definition line_height_of (f : font) : Z := bbox3 (getbbox f (lit "Tg")) + 4.

Definition total_height (lines : list str) (line_height : Z) : Z :=
  Z.of_nat (length lines) * line_height.

(** [textwrap.wrap(text, width=int(bubble_width * 0.9 / font.getbbox("m")[2]))]. *)
Definition wrap_words (f : font) (text : str) (bubble_width : Z) : result (list str) :=
  do q <- py_truediv (inject_Z bubble_width * 0.9)%Q
                     (inject_Z (bbox2 (getbbox f (lit "m"))));
  textwrap_wrap text (py_int q).

(** The body of [for test_size in range(...)]: [Some] when the body
    returns, [None] when the loop goes on. *)
Definition try_size (text : str) (bubble_width bubble_height test_size : Z)
  : result (option layout) :=
  let f := truetype test_size in
  let line_height := line_height_of f in
  do lines <- wrap_words f text bubble_width;
  let all_lines_fit := forallb (fun line => negb (exceeds_width f bubble_width line)) lines in
  if all_lines_fit
     && int_le_float (total_height lines line_height) (height_budget bubble_height)
  then ret (Some (f, lines, line_height))
  else
    let lines := wrap_hyphenated f text bubble_width in
    if int_le_float (total_height lines line_height) (height_budget bubble_height)
    then ret (Some (f, lines, line_height))
    else ret None.

Fixpoint scan (text : str) (bubble_width bubble_height : Z) (sizes : list Z)
  : result (option layout) :=
  match sizes with
  | [] => ret None
  | test_size :: rest =>
      do r <- try_size text bubble_width bubble_height test_size;
      match r with
      | Some l => ret (Some l)
      | None => scan text bubble_width bubble_height rest
      end
  end.

(** The sizes visited by [range(max_font_size, min_font_size - 1, -1)]. *)
Definition candidate_sizes : list Z := range_down max_font_size (min_font_size - 1).

(** [fit_text_to_bubble(draw, text, font_path, bubble_width,
    bubble_height, font_size)].  [draw] is not used by the body and
    [font_path] is the ambient [FontMetrics]. *)
Definition fit_text_to_bubble (text : str) (bubble_width bubble_height : Z)
           (font_size : Z) : result layout :=
  do r <- scan text bubble_width bubble_height candidate_sizes;
  match r with
  | Some l => ret l
  | None =>
      let f := truetype min_font_size in
      ret (f, wrap_hyphenated f text bubble_width, line_height_of f)
  end.

(** ** Properties of layouts *)

(** A line is within the width budget, or it is a single character
    that was emitted by force. *)
Definition line_ok (f : font) (bubble_width : Z) (line : str) : Prop :=
  fits_width f bubble_width line = true \/ length line = 1%nat.

(** The state of the word loop between two turns: the lines emitted
    so far are fine, and the line under construction is empty or
    within the width budget. *)
Definition state_ok (f : font) (bubble_width : Z) (st : list str * str) : Prop :=
  Forall (line_ok f bubble_width) (fst st)
  /\ (snd st = [] \/ fits_width f bubble_width (snd st) = true).

Definition height_fits (f : font) (bubble_height : Z) (lines : list str) : Prop :=
  int_le_float (total_height lines (line_height_of f)) (height_budget bubble_height) = true.

Definition block_fits (f : font) (bubble_width bubble_height : Z)
           (lines : list str) : Prop :=
  Forall (fun line => fits_width f bubble_width line = true) lines
  /\ height_fits f bubble_height lines.

(** What the body of the scan accepts at size [s]: the wrapped block
    when it fits in width and height; otherwise, that is when the
    wrapped block does not fit, the hyphenated block when it fits in
    height. *)
Definition accepted (text : str) (bubble_width bubble_height s : Z)
           (lines : list str) : Prop :=
  let f := truetype s in
  exists wrapped,
    wrap_words f text bubble_width = inr wrapped
    /\ ((block_fits f bubble_width bubble_height wrapped /\ lines = wrapped)
        \/ (~ block_fits f bubble_width bubble_height wrapped
            /\ lines = wrap_hyphenated f text bubble_width
            /\ height_fits f bubble_height lines)).

(** Neither attempt at size [s] is accepted. *)
Definition rejected (text : str) (bubble_width bubble_height s : Z) : Prop :=
  let f := truetype s in
  (exists lines, wrap_words f text bubble_width = inr lines
                 /\ ~ block_fits f bubble_width bubble_height lines)
  /\ ~ height_fits f bubble_height (wrap_hyphenated f text bubble_width).

(** ** Drawing a layout *)

(** A call [draw.text((x_position, y_position), line, ...)]. *)
Definition draw_call : Type := (Z * Z * str)%type.

(** [for i, line in enumerate(lines):] from index [i] on. *)
Fixpoint draw_from (f : font) (x width y_offset line_height : Z)
         (i : Z) (lines : list str) : list draw_call :=
  match lines with
  | [] => []
  | line :: rest =>
      let line_width := bbox2 (getbbox f line) in
      let x_position := x + (width - line_width) / 2 in
      let y_position := y_offset + i * line_height in
      (x_position, y_position, line)
        :: draw_from f x width y_offset line_height (i + 1) rest
  end.

(** The statements that centre and draw the lines, the same in
    [add_text_to_bubble] and [process_all_bubbles_in_image]. *)
Definition draw_lines (f : font) (x y width height : Z)
           (lines : list str) (line_height : Z) : list draw_call :=
  let total_text_height := Z.of_nat (length lines) * line_height in
  let y_offset := y + (height - total_text_height) / 2 in
  draw_from f x width y_offset line_height 0 lines.

(** ** process_all_bubbles_in_image *)

(** The module counters. *)
Record counters : Type := make_counters
  { SUCCESS_COUNT : Z; FAILURE_COUNT : Z; WARNING_COUNT : Z }.

(** The state of the loop over the bubbles: the calls made on [draw],
    [bubbles_processed] and [WARNING_COUNT]. *)
Definition progress : Type := (list draw_call * Z * Z)%type.

(** The body of [for bubble_index, bubble in enumerate(bubbles):]. *)
Definition process_bubble (translated : option (list Parsed.t)) (old : option str)
           (font_size : Z) (st : progress) (bubble_index : Z) (bubble : Parsed.t)
  : progress :=
  let '(drawn, bubbles_processed, warning_count) := st in
  let skipped := (drawn, bubbles_processed, warning_count + 1) in
  match get_translated_text translated old bubble_index with
  | None => skipped
  | Some [] => skipped
  | Some translated_text =>
      let x := default 0 (Parsed.x bubble) in
      let y := default 0 (Parsed.y bubble) in
      let width := default 0 (Parsed.width bubble) in
      let height := default 0 (Parsed.height bubble) in
      if (width <=? 0) || (height <=? 0) then skipped
      else
        let text := strip translated_text in
        match text with
        | [] => skipped
        | _ =>
            let max_size := Z.min font_size 32 in
            match fit_text_to_bubble text width height max_size with
            | inr (f, lines, line_height) =>
                (drawn ++ draw_lines f x y width height lines line_height,
                 bubbles_processed + 1, warning_count)
            | inl _ => skipped
            end
        end
  end.

Fixpoint process_from (translated : option (list Parsed.t)) (old : option str)
         (font_size : Z) (bubble_index : Z) (bubbles : list Parsed.t)
         (st : progress) : progress :=
  match bubbles with
  | [] => st
  | bubble :: rest =>
      process_from translated old font_size (bubble_index + 1) rest
        (process_bubble translated old font_size st bubble_index bubble)
  end.

(** [process_all_bubbles_in_image(...)] for an image that opens and
    saves: the calls made on [draw], the value returned and the
    counters after the call. *)
Definition process_all_bubbles_in_image (bubbles : list Parsed.t)
           (translated : option (list Parsed.t)) (old : option str)
           (font_size : Z) (c : counters) : list draw_call * bool * counters :=
  let '(drawn, bubbles_processed, warning_count) :=
    process_from translated old font_size 0 bubbles ([], 0, WARNING_COUNT c) in
  if bubbles_processed >? 0
  then (drawn, true,
        {| SUCCESS_COUNT := SUCCESS_COUNT c + 1;
           FAILURE_COUNT := FAILURE_COUNT c;
           WARNING_COUNT := warning_count |})
  else (drawn, false,
        {| SUCCESS_COUNT := SUCCESS_COUNT c;
           FAILURE_COUNT := FAILURE_COUNT c + 1;
           WARNING_COUNT := warning_count |}).

(** What the loop does with the bubble at [bubble_index]: [Some calls]
    when its text is laid out and drawn by the calls [calls], [None]
    when it is passed over with a warning. *)
Definition bubble_outcome (translated : option (list Parsed.t)) (old : option str)
           (font_size : Z) (bubble_index : Z) (bubble : Parsed.t)
           (outcome : option (list draw_call)) : Prop :=
  let x := default 0 (Parsed.x bubble) in
  let y := default 0 (Parsed.y bubble) in
  let width := default 0 (Parsed.width bubble) in
  let height := default 0 (Parsed.height bubble) in
  match outcome with
  | Some calls =>
      exists translated_text f lines line_height,
        get_translated_text translated old bubble_index = Some translated_text
        /\ 0 < width /\ 0 < height
        /\ strip translated_text <> []
        /\ fit_text_to_bubble (strip translated_text) width height
                              (Z.min font_size 32)
           = inr (f, lines, line_height)
        /\ calls = draw_lines f x y width height lines line_height
  | None =>
      get_translated_text translated old bubble_index = None
      \/ get_translated_text translated old bubble_index = Some []
      \/ width <= 0 \/ height <= 0
      \/ exists translated_text,
           get_translated_text translated old bubble_index = Some translated_text
           /\ (strip translated_text = []
               \/ exists e, fit_text_to_bubble (strip translated_text) width height
                                               (Z.min font_size 32) = inl e)
  end.

End Fit.

(** ** Reference collaborators

    Concrete instances of the two external collaborators, used to run
    the model on inputs. *)

(** A proportional font: advances in tenths of the size. *)
Definition advance (c : ascii) : Z :=
  if Ascii.eqb c "W" then 9
  else if Ascii.eqb c "m" then 8
  else if Ascii.eqb c "-" then 4
  else if Ascii.eqb c " " then 3
  else 5.

Definition sample_getbbox (f : font) (text : str) : bbox :=
  (0, 0, fold_right (fun c acc => advance c + acc) 0 text * size f / 10, size f).

Definition sample_font : FontMetrics := {| getbbox := sample_getbbox |}.

(** A font whose glyphs have no advance (a font file without outlines). *)
Definition empty_font : FontMetrics :=
  {| getbbox := fun f _ => (0, 0, 0, size f) |}.

(** The greedy algorithm of [textwrap] with its default options
    ([break_long_words], [drop_whitespace]) on text without hyphens:
    chunks are the maximal runs of blanks and of other characters. *)
Fixpoint chunks_from (cur : str) (text : str) : list str :=
  match text with
  | [] => match cur with [] => [] | _ => [rev cur] end
  | c :: rest =>
      let c' := if isspace c then " "%char else c in
      match cur with
      | [] => chunks_from [c'] rest
      | d :: _ =>
          if Bool.eqb (Ascii.eqb d " ") (Ascii.eqb c' " ")
          then chunks_from (c' :: cur) rest
          else rev cur :: chunks_from [c'] rest
      end
  end.

Definition is_blank (chunk : str) : bool := forallb (fun c => Ascii.eqb c " ") chunk.

(** [while chunks: ... if cur_len + l <= width: cur_line.append(chunks.pop())]. *)
Fixpoint fill_line (width : Z) (cur_line : list str) (cur_len : Z) (chunks : list str)
  : list str * Z * list str :=
  match chunks with
  | [] => (cur_line, cur_len, [])
  | chunk :: rest =>
      let l := Z.of_nat (length chunk) in
      if cur_len + l <=? width
      then fill_line width (cur_line ++ [chunk]) (cur_len + l) rest
      else (cur_line, cur_len, chunks)
  end.

Fixpoint wrap_chunks (fuel : nat) (width : Z) (lines : list str) (chunks : list str)
  : list str :=
  match fuel, chunks with
  | O, _ => lines
  | _, [] => lines
  | S fuel', first :: rest =>
      let chunks :=
        if is_blank first && negb (Nat.eqb (length lines) 0) then rest else chunks in
      let '(cur_line, cur_len, chunks) := fill_line width [] 0 chunks in
      let '(cur_line, chunks) :=
        match chunks with
        | chunk :: rest' =>
            if width <? Z.of_nat (length chunk)
            then let stop := Z.to_nat (width - cur_len) in
                 (cur_line ++ [take stop chunk], drop stop chunk :: rest')
            else (cur_line, chunks)
        | [] => (cur_line, chunks)
        end in
      let cur_line :=
        match last cur_line with
        | Some chunk => if is_blank chunk then removelast cur_line else cur_line
        | None => cur_line
        end in
      let lines :=
        match cur_line with
        | [] => lines
        | _ => lines ++ [concat cur_line]
        end in
      wrap_chunks fuel' width lines chunks
  end.

Definition greedy_wrap_lines (text : str) (width : Z) : list str :=
  wrap_chunks (S (length text)) width [] (chunks_from [] text).

Definition greedy_wrapper : TextWrapper := {| wrap_lines := greedy_wrap_lines |}.

End InsertText.

(* ===================================================================== *)
(** * visualize_bounds.py *)
(* ===================================================================== *)

Module VisualizeBounds.
Import Py.

(** A text region, as written by the detector:
    [{'x', 'y', 'width', 'height', 'text', 'confidence'}]. *)
Module Region.
Record t : Type := make
  { x : Z; y : Z; width : Z; height : Z; text : string; confidence : Z }.
End Region.

#[global] Instance region_eq_dec : EqDecision Region.t.
Proof. solve_decision. Defined.

(** A bubble of [final_data['bubbles']]. *)
Module Bubble.
Record t : Type := make
  { bubble_number : Z;
    x : Z; y : Z; width : Z; height : Z;
    text : string;
    text_regions : list Region.t }.
End Bubble.

Definition MAX_BUBBLES : Z := 2.
Definition CLUSTERING_EPS : Q := 225.
Definition VERTICAL_WEIGHT : Q := 1.5.
Definition HORIZONTAL_PENALTY : Q := 0.75.

(** ** scikit-learn's DBSCAN with [min_samples=1]

    With one sample per neighbourhood every point is a core point, so
    no point is noise and the clusters are the connected components of
    the relation "at Euclidean distance at most [eps]".  Labels are
    0, 1, ... in the order in which the scan over the points meets a
    point that has no label yet. *)

Definition point : Type := (Q * Q)%type.

(** [dist(p, q) <= eps], compared on the squares. *)
Definition within (eps : Q) (p q : point) : bool :=
  let dx := (fst p - fst q)%Q in
  let dy := (snd p - snd q)%Q in
  Qle_bool (dx * dx + dy * dy) (eps * eps).

Definition near (eps : Q) (points : list point) (i j : nat) : bool :=
  match points !! i, points !! j with
  | Some p, Some q => within eps p q
  | _, _ => false
  end.

(** One round of neighbourhood expansion of a set of indices. *)
Definition grow (eps : Q) (points : list point) (comp : list nat) : list nat :=
  filter (fun j => existsb (fun i => Nat.eqb i j || near eps points i j) comp)
         (seq 0 (length points)).

(** The indices density-reachable from [i]. *)
Definition component (eps : Q) (points : list point) (i : nat) : list nat :=
  Nat.iter (length points) (grow eps points) [i].

(** Give [label] to the members of [comp] that have none. *)
Definition mark (label : Z) (comp : list nat) (labels : list Z) : list Z :=
  fold_left
    (fun ls j => match ls !! j with
                 | Some (-1) => <[j := label]> ls
                 | _ => ls
                 end)
    comp labels.

Fixpoint label_from (eps : Q) (points : list point) (todo : list nat)
         (next : Z) (labels : list Z) : list Z :=
  match todo with
  | [] => labels
  | i :: todo' =>
      match labels !! i with
      | Some (-1) =>
          label_from eps points todo' (next + 1)
                     (mark next (component eps points i) labels)
      | _ => label_from eps points todo' next labels
      end
  end.

(** [DBSCAN(eps=eps, min_samples=1).fit(points).labels_]: the estimator
    rejects a radius that is not positive and an empty sample. *)
Definition dbscan_labels (eps : Q) (points : list point) : result (list Z) :=
  if Qle_bool eps 0 then raise ValueError
  else match points with
       | [] => raise ValueError
       | _ => ret (label_from eps points (seq 0 (length points)) 0
                              (replicate (length points) (-1)))
       end.

(** ** group_text_regions_by_distance *)

(** [if label not in d: d[label] = []; d[label].append(region)] on a
    dict in insertion order. *)
Fixpoint dict_append (label : Z) (region : Region.t)
         (d : list (Z * list Region.t)) : list (Z * list Region.t) :=
  match d with
  | [] => [(label, [region])]
  | (k, members) :: d' =>
      if k =? label
      then (k, members ++ [region]) :: d'
      else (k, members) :: dict_append label region d'
  end.

(** [for i, label in enumerate(labels): ... regions[i]]. *)
Definition group_by_label (labels : list Z) (regions : list Region.t)
  : list (Z * list Region.t) :=
  fold_left (fun d lr => dict_append (fst lr) (snd lr) d) (zip labels regions) [].

(** [region['x'] + region['width'] // 2] and
    [region['y'] + region['height'] // 2]. *)
Definition centre_x (region : Region.t) : Z :=
  Region.x region + Region.width region / 2.
Definition centre_y (region : Region.t) : Z :=
  Region.y region + Region.height region / 2.

(** [[x * horizontal_penalty, y * vertical_weight]]. *)
Definition transformed_point (vertical_weight horizontal_penalty : Q)
           (region : Region.t) : point :=
  let x := centre_x region in
  let y := centre_y region in
  (inject_Z x * horizontal_penalty, inject_Z y * vertical_weight)%Q.

Definition group_text_regions_by_distance (regions : list Region.t)
           (eps vertical_weight horizontal_penalty : Q)
  : result (list (list Region.t)) :=
  match regions with
  | [] => ret []
  | _ =>
      let points := map (transformed_point vertical_weight horizontal_penalty) regions in
      do labels <- dbscan_labels eps points;
      ret (map snd (group_by_label labels regions))
  end.

(** ** Bounding boxes *)

(** [(min_x, min_y, max_x, max_y)]. *)
Definition box : Type := (Z * Z * Z * Z)%type.

Definition bounding_box (bubble : list Region.t) : result box :=
  do min_x <- py_min (map Region.x bubble);
  do min_y <- py_min (map Region.y bubble);
  do max_x <- py_max (map (fun r => Region.x r + Region.width r) bubble);
  do max_y <- py_max (map (fun r => Region.y r + Region.height r) bubble);
  ret (min_x, min_y, max_x, max_y).

Fixpoint bounding_boxes (bubble_groups : list (list Region.t)) : result (list box) :=
  match bubble_groups with
  | [] => ret []
  | bubble :: rest =>
      do b <- bounding_box bubble;
      do bs <- bounding_boxes rest;
      ret (b :: bs)
  end.

(** [box_i[0] < box_j[2] and box_i[2] > box_j[0] and
     box_i[1] < box_j[3] and box_i[3] > box_j[1]]. *)
Definition overlap (box_i box_j : box) : bool :=
  let '(i0, i1, i2, i3) := box_i in
  let '(j0, j1, j2, j3) := box_j in
  (i0 <? j2) && (i2 >? j0) && (i1 <? j3) && (i3 >? j1).

Definition union_box (box_i box_j : box) : box :=
  let '(i0, i1, i2, i3) := box_i in
  let '(j0, j1, j2, j3) := box_j in
  (Z.min i0 j0, Z.min i1 j1, Z.max i2 j2, Z.max i3 j3).

(** ** merge_overlapping_bubbles, on values

    [bubble_groups] and [bubble_boxes] are indexed and popped together;
    the model keeps them zipped.  A group is a list of regions here;
    the version on list objects follows below. *)

Definition boxed : Type := (list Region.t * box)%type.

(** [while j < len(bubble_groups)] for a fixed [i]: the groups after
    [i] are visited in order, each one either merged into [i] and
    removed or kept.  The flag is [merged]. *)
Fixpoint absorb (group_i : list Region.t) (box_i : box) (rest : list boxed)
  : boxed * list boxed * bool :=
  match rest with
  | [] => ((group_i, box_i), [], false)
  | (group_j, box_j) :: rest' =>
      if overlap box_i box_j
      then let '(gi, kept, _) :=
             absorb (group_i ++ group_j) (union_box box_i box_j) rest' in
           (gi, kept, true)
      else let '(gi, kept, merged) := absorb group_i box_i rest' in
           (gi, (group_j, box_j) :: kept, merged)
  end.

(** [while i < len(bubble_groups)]: one scan, left as soon as the inner
    loop for some [i] has merged. *)
Fixpoint pass (groups : list boxed) : list boxed * bool :=
  match groups with
  | [] => ([], false)
  | (group_i, box_i) :: rest =>
      let '(gi, kept, merged) := absorb group_i box_i rest in
      if merged then (gi :: kept, true)
      else let '(rest', merged') := pass rest in
           ((group_i, box_i) :: rest', merged')
  end.

Lemma absorb_length group_i box_i rest :
  let '(_, kept, merged) := absorb group_i box_i rest in
  (length kept <= length rest)%nat /\
  (merged = true -> (length kept < length rest)%nat).
Proof.
  revert group_i box_i.
  induction rest as [|[gj bj] rest IH]; intros gi bi; simpl.
  - split; [lia | discriminate].
  - destruct (overlap bi bj).
    + specialize (IH (gi ++ gj) (union_box bi bj)).
      destruct (absorb (gi ++ gj) (union_box bi bj) rest) as [[? kept] m].
      simpl. lia.
    + specialize (IH gi bi).
      destruct (absorb gi bi rest) as [[? kept] m]. simpl.
      split; [lia|]. intros Hm. destruct IH as [_ IH]. specialize (IH Hm). lia.
Qed.

Lemma pass_length groups :
  (length (fst (pass groups)) <= length groups)%nat /\
  (snd (pass groups) = true -> (length (fst (pass groups)) < length groups)%nat).
Proof.
  induction groups as [|[gi bi] rest IH]; simpl.
  - split; [lia | discriminate].
  - pose proof (absorb_length gi bi rest) as Ha.
    destruct (absorb gi bi rest) as [[g kept] m].
    destruct m; simpl.
    + lia.
    + destruct (pass rest) as [rest' m']. simpl in *.
      destruct IH as [IH1 IH2]. split; [lia|]. intros Hm. specialize (IH2 Hm). lia.
Qed.

(** [while merged:] scans are repeated until one of them merges nothing. *)
Equations? merge_loop (groups : list boxed) : list boxed
  by wf (length groups) lt :=
  merge_loop groups with inspect (pass groups) := {
    | exist _ (groups', true) _ := merge_loop groups';
    | exist _ (groups', false) _ := groups' }.
Proof.
  pose proof (pass_length groups) as [_ Hlt].
  rewrite e in Hlt. simpl in Hlt. auto.
Qed.

Definition merge_groups (bubble_groups : list (list Region.t))
  : result (list (list Region.t)) :=
  if (length bubble_groups <=? 1)%nat then ret bubble_groups
  else
    do bubble_boxes <- bounding_boxes bubble_groups;
    ret (map fst (merge_loop (zip bubble_groups bubble_boxes))).

(** ** merge_overlapping_bubbles, on list objects

    The argument is a reference to a list of references to lists of
    regions; [extend] and [pop] update these objects in place. *)

Definition loc : Type := nat.

Record store : Type := make_store
  { lists : gmap loc (list loc);        (* lists of groups *)
    members : gmap loc (list Region.t)  (* groups: lists of regions *) }.

Definition located : Type := (loc * box)%type.

(** The inner loop; [bubble_groups[i].extend(bubble_groups[j])] writes
    the object [loc_i]. *)
Fixpoint absorb_in (m : gmap loc (list Region.t)) (loc_i : loc) (box_i : box)
         (rest : list located)
  : gmap loc (list Region.t) * located * list located * bool :=
  match rest with
  | [] => (m, (loc_i, box_i), [], false)
  | (loc_j, box_j) :: rest' =>
      if overlap box_i box_j
      then let '(m', gi, kept, _) :=
             absorb_in (<[loc_i := (m !!! loc_i) ++ (m !!! loc_j)]> m)
                       loc_i (union_box box_i box_j) rest' in
           (m', gi, kept, true)
      else let '(m', gi, kept, merged) := absorb_in m loc_i box_i rest' in
           (m', gi, (loc_j, box_j) :: kept, merged)
  end.

Fixpoint pass_in (m : gmap loc (list Region.t)) (groups : list located)
  : gmap loc (list Region.t) * list located * bool :=
  match groups with
  | [] => (m, [], false)
  | (loc_i, box_i) :: rest =>
      let '(m', gi, kept, merged) := absorb_in m loc_i box_i rest in
      if merged then (m', gi :: kept, true)
      else let '(m'', rest', merged') := pass_in m rest in
           (m'', (loc_i, box_i) :: rest', merged')
  end.

Lemma absorb_in_length m loc_i box_i rest :
  let '(_, _, kept, merged) := absorb_in m loc_i box_i rest in
  (length kept <= length rest)%nat /\
  (merged = true -> (length kept < length rest)%nat).
Proof.
  revert m box_i.
  induction rest as [|[lj bj] rest IH]; intros m bi; simpl.
  - split; [lia | discriminate].
  - destruct (overlap bi bj).
    + specialize (IH (<[loc_i := (m !!! loc_i) ++ (m !!! lj)]> m) (union_box bi bj)).
      destruct (absorb_in _ loc_i (union_box bi bj) rest) as [[[? ?] kept] mg].
      simpl. lia.
    + specialize (IH m bi).
      destruct (absorb_in m loc_i bi rest) as [[[? ?] kept] mg]. simpl.
      split; [lia|]. intros Hm. destruct IH as [_ IH]. specialize (IH Hm). lia.
Qed.

Lemma pass_in_length m groups :
  let '(_, groups', merged) := pass_in m groups in
  (length groups' <= length groups)%nat /\
  (merged = true -> (length groups' < length groups)%nat).
Proof.
  induction groups as [|[li bi] rest IH]; simpl.
  - split; [lia | discriminate].
  - pose proof (absorb_in_length m li bi rest) as Ha.
    destruct (absorb_in m li bi rest) as [[[m' g] kept] mg].
    destruct mg; simpl.
    + lia.
    + destruct (pass_in m rest) as [[m'' rest'] mg']. simpl in *.
      destruct IH as [IH1 IH2]. split; [lia|]. intros Hm. specialize (IH2 Hm). lia.
Qed.

Equations? merge_loop_in (m : gmap loc (list Region.t)) (groups : list located)
  : gmap loc (list Region.t) * list located
  by wf (length groups) lt :=
  merge_loop_in m groups with inspect (pass_in m groups) := {
    | exist _ (m', groups', true) _ := merge_loop_in m' groups';
    | exist _ (m', groups', false) _ := (m', groups') }.
Proof.
  pose proof (pass_in_length m groups) as Hlt.
  rewrite e in Hlt. destruct Hlt as [_ Hlt]. auto.
Qed.

(** The groups read through a list of references. *)
Definition deref (m : gmap loc (list Region.t)) (groups : list loc)
  : list (list Region.t) :=
  map (fun l => m !!! l) groups.

(** The groups a list object holds in a store. *)
Definition contents (st : store) (l : loc) : list (list Region.t) :=
  deref (members st) (lists st !!! l).

(** [merge_overlapping_bubbles(bubble_groups)]: the reference returned
    and the store after the call. *)
Definition merge_overlapping_bubbles (bubble_groups : loc) (st : store)
  : result (loc * store) :=
  let groups := lists st !!! bubble_groups in
  if (length groups <=? 1)%nat then ret (bubble_groups, st)
  else
    do bubble_boxes <- bounding_boxes (deref (members st) groups);
    let '(m', groups') := merge_loop_in (members st) (zip groups bubble_boxes) in
    ret (bubble_groups,
         {| lists := <[bubble_groups := map fst groups']> (lists st);
            members := m' |}).

(** A store in which the groups are fresh objects [0, 1, ...] and the
    list object [0] refers to them in order. *)
Definition fresh_store (bubble_groups : list (list Region.t)) : store :=
  {| lists := {[ 0%nat := seq 0 (length bubble_groups) ]};
     members := map_seq 0 bubble_groups |}.

(** No two boxes of the list intersect. *)
Definition pairwise_disjoint (boxes : list box) : Prop :=
  forall i j box_i box_j,
    i <> j -> boxes !! i = Some box_i -> boxes !! j = Some box_j ->
    overlap box_i box_j = false.

(** Every group of the working list carries its own bounding box. *)
Definition boxes_ok (groups : list boxed) : Prop :=
  Forall (fun gb => bounding_box (fst gb) = inr (snd gb)) groups.

Definition disjoint_pairs (groups : list boxed) : Prop :=
  ForallOrdPairs (fun a b => overlap (snd a) (snd b) = false) groups.

Definition fragments (groups : list boxed) : list Region.t :=
  concat (map fst groups).

(** The working list of the object version, read through the store. *)
Definition view (m : gmap loc (list Region.t)) (groups : list located) : list boxed :=
  map (fun lb => (m !!! fst lb, snd lb)) groups.

(** ** filter_and_prioritize_bubbles *)

(** [b1 < b2] on lists of dicts: the first differing pair of elements
    decides, and dicts have no order. *)
Fixpoint list_lt (b1 b2 : list Region.t) : result bool :=
  match b1, b2 with
  | [], [] => ret false
  | [], _ :: _ => ret true
  | _ :: _, [] => ret false
  | r1 :: t1, r2 :: t2 =>
      if decide (r1 = r2) then list_lt t1 t2 else raise TypeError
  end.

(** [a < b] on the tuples [(area, bubble)]. *)
Definition tuple_lt (a b : Z * list Region.t) : result bool :=
  if fst a =? fst b then list_lt (snd a) (snd b) else ret (fst a <? fst b).

(** [list.sort]: a stable sort that only asks [<].  The model inserts
    each element after the elements that are not greater. *)
Fixpoint insert_sorted (pivot : Z * list Region.t) (sorted : list (Z * list Region.t))
  : result (list (Z * list Region.t)) :=
  match sorted with
  | [] => ret [pivot]
  | a :: rest =>
      do lt <- tuple_lt pivot a;
      if lt then ret (pivot :: a :: rest)
      else do rest' <- insert_sorted pivot rest; ret (a :: rest')
  end.

Fixpoint sort_from (sorted todo : list (Z * list Region.t))
  : result (list (Z * list Region.t)) :=
  match todo with
  | [] => ret sorted
  | pivot :: todo' =>
      do sorted' <- insert_sorted pivot sorted;
      sort_from sorted' todo'
  end.

(** [l.sort(reverse=True)]: the list is reversed, sorted and reversed
    again, so that equal elements keep their order. *)
Definition sort_reverse (l : list (Z * list Region.t))
  : result (list (Z * list Region.t)) :=
  do sorted <- sort_from [] (rev l);
  ret (rev sorted).

(** [l[:stop]]. *)
Definition slice_to {A} (l : list A) (stop : Z) : list A :=
  if stop <? 0 then take (Z.to_nat (Z.of_nat (length l) + stop)) l
  else take (Z.to_nat stop) l.

Definition box_area (b : box) : Z :=
  let '(min_x, min_y, max_x, max_y) := b in (max_x - min_x) * (max_y - min_y).

Fixpoint bubble_areas (bubble_groups : list (list Region.t))
  : result (list (Z * list Region.t)) :=
  match bubble_groups with
  | [] => ret []
  | bubble :: rest =>
      do b <- bounding_box bubble;
      do areas <- bubble_areas rest;
      ret ((box_area b, bubble) :: areas)
  end.

Definition filter_and_prioritize_bubbles (bubble_groups : list (list Region.t))
           (max_bubbles : Z) : result (list (list Region.t)) :=
  match bubble_groups with
  | [] => ret bubble_groups
  | _ =>
      if Z.of_nat (length bubble_groups) <=? max_bubbles then ret bubble_groups
      else
        do areas <- bubble_areas bubble_groups;
        do sorted <- sort_reverse areas;
        ret (map snd (slice_to sorted max_bubbles))
  end.

(** The order of the tuples by their first component. *)
Definition by_area (a b : Z * list Region.t) : Prop := fst a < fst b.

(** ** save_final_bounds: the list [final_data['bubbles']] *)

(** [" ".join(region['text'] for region in bubble)]. *)
Definition full_text (bubble : list Region.t) : string :=
  String.concat " " (map Region.text bubble).

(** [for i, bubble in enumerate(bubble_groups):] from index [i] on,
    appending to the records [bubbles] built so far. *)
Fixpoint append_bubbles (i : Z) (bubble_groups : list (list Region.t))
         (bubbles : list Bubble.t) : result (list Bubble.t) :=
  match bubble_groups with
  | [] => ret bubbles
  | bubble :: rest =>
      do b <- bounding_box bubble;
      let '(min_x, min_y, max_x, max_y) := b in
      append_bubbles (i + 1) rest
        (bubbles ++ [ {| Bubble.bubble_number := i + 1;
                         Bubble.x := min_x;
                         Bubble.y := min_y;
                         Bubble.width := max_x - min_x;
                         Bubble.height := max_y - min_y;
                         Bubble.text := full_text bubble;
                         Bubble.text_regions := bubble |} ])
  end.

Definition save_final_bounds (bubble_groups : list (list Region.t))
  : result (list Bubble.t) :=
  append_bubbles 0 bubble_groups [].

(** [(x, y, width, height)] is the smallest rectangle that contains the
    box of every member of [bubble]: it contains them all, and each of
    its four sides is reached by some member. *)
Definition union_rectangle (bubble : list Region.t) (x y width height : Z) : Prop :=
  (forall r, In r bubble ->
             x <= Region.x r /\ y <= Region.y r
             /\ Region.x r + Region.width r <= x + width
             /\ Region.y r + Region.height r <= y + height)
  /\ (exists r, In r bubble /\ Region.x r = x)
  /\ (exists r, In r bubble /\ Region.y r = y)
  /\ (exists r, In r bubble /\ Region.x r + Region.width r = x + width)
  /\ (exists r, In r bubble /\ Region.y r + Region.height r = y + height).

(** ** visualize_speech_bubbles *)

(** The path of the data through [visualize_speech_bubbles]: the
    regions are clustered, the groups merged and prioritised with the
    module constants, and the result is the list [final_data['bubbles']]
    built by [save_final_bounds]; [None] when there are no regions.
    The list handed to the merger is the fresh one of the clusterer. *)
Definition visualize_speech_bubbles (regions : list Region.t)
  : result (option (list Bubble.t)) :=
  match regions with
  | [] => ret None
  | _ =>
      do bubble_groups <-
        group_text_regions_by_distance regions
          CLUSTERING_EPS VERTICAL_WEIGHT HORIZONTAL_PENALTY;
      do merged <- merge_overlapping_bubbles 0%nat (fresh_store bubble_groups);
      let bubble_groups := contents (snd merged) (fst merged) in
      do bubble_groups <- filter_and_prioritize_bubbles bubble_groups MAX_BUBBLES;
      do bubbles <- save_final_bounds bubble_groups;
      ret (Some bubbles)
  end.

(** The rectangle of a record, as a box. *)
Definition bubble_box (b : Bubble.t) : box :=
  (Bubble.x b, Bubble.y b, Bubble.x b + Bubble.width b, Bubble.y b + Bubble.height b).

(** Two groups whose bounding boxes do not overlap. *)
Definition apart (g1 g2 : list Region.t) : Prop :=
  forall b1 b2, bounding_box g1 = inr b1 -> bounding_box g2 = inr b2 ->
                overlap b1 b2 = false.

(** The groups [after] are made of the groups [before]: every group of
    [after] is the concatenation of one or more groups of [before],
    and every group of [before] is used exactly once. *)
Definition regrouped (before after : list (list Region.t)) : Prop :=
  exists parts : list (list (list Region.t)),
    after = map (@concat Region.t) parts
    /\ Permutation (concat parts) before
    /\ Forall (fun part => part <> []) parts.

(** ** Sample fragments *)

Definition frag (x y width height : Z) (text : string) : Region.t :=
  Region.make x y width height text 90.

(** Two fragments whose boxes intersect, and one far away. *)
Definition frag_a : Region.t := frag 0 0 10 10 "a".
Definition frag_b : Region.t := frag 5 5 100 10 "b".
Definition frag_c : Region.t := frag 900 0 10 10 "c".

(** One fragment per group, of the given width and height 1: the area
    of the group is the width. *)
Definition strip (x area : Z) : list Region.t := [frag x 0 area 1 "t"].

End VisualizeBounds.

(* ===================================================================== *)
(** * main.py *)
(* ===================================================================== *)

Module RemoveText.
Import Py.

Definition TEXT_PADDING_X : Z := 10.
Definition TEXT_PADDING_Y : Z := 5.

(** A bound [k] of a slice [a[start:stop]] on an axis of length [n]:
    a negative bound counts from the end, and the result is clipped to
    the axis. *)
Definition slice_bound (n k : Z) : Z :=
  if k <? 0 then Z.max 0 (k + n) else Z.min k n.

(** Whether index [i] is selected by [a[start:stop]]. *)
Definition in_slice (n start stop i : Z) : bool :=
  (slice_bound n start <=? i) && (i <? slice_bound n stop).

(** The padding and clamping of one text region in
    [remove_text_from_speech_bubble]; [shape] is (rows, columns). *)
Definition padded_region (shape : Z * Z) (x y width height : Z) : Z * Z * Z * Z :=
  let '(rows, columns) := shape in
  let padding_x := TEXT_PADDING_X in
  let padding_y := TEXT_PADDING_Y in
  let x := Z.max 0 (x - padding_x) in
  let y := Z.max 0 (y - padding_y) in
  let width := Z.min (columns - x) (width + 2 * padding_x) in
  let height := Z.min (rows - y) (height + 2 * padding_y) in
  (x, y, width, height).

(** [result[y:y+height, x:x+width, :3] = [255, 255, 255]]: whether the
    pixel at ([row], [column]) is written. *)
Definition whitened (shape : Z * Z) (x y width height : Z) (row column : Z) : bool :=
  let '(x', y', width', height') := padded_region shape x y width height in
  in_slice (fst shape) y' (y' + height') row
  && in_slice (snd shape) x' (x' + width') column.

End RemoveText.

(* ===================================================================== *)
(** * copy_to_game.py *)
(* ===================================================================== *)

Module CopyToGame.
Import Py.

(** [file.split('-')[0] + '-' + file.split('-')[1].split('.')[0]];
    [None] is the [IndexError] of [file.split('-')[1]]. *)
Definition base_name (file : str) : option str :=
  match split_on "-" file !! 0%nat, split_on "-" file !! 1%nat with
  | Some first, Some second =>
      match split_on "." second !! 0%nat with
      | Some number => Some (first ++ lit "-" ++ number)
      | None => None
      end
  | _, _ => None
  end.

(** [f"{base_name}-{language}.webp"], the name of the target file. *)
Definition target_name (file language : str) : option str :=
  match base_name file with
  | Some base => Some (base ++ lit "-" ++ language ++ lit ".webp")
  | None => None
  end.

End CopyToGame.

(* ===================================================================== *)
(** * detect_speech_bubbles.py *)
(* ===================================================================== *)

Module DetectSpeechBubbles.
Import Py VisualizeBounds.

(** The entries at one index of the columns [conf], [text], [left],
    [top], [width] and [height] of [pytesseract.image_to_data]. *)
Record row : Type := make_row
  { conf : Z; text : str; left : Z; top : Z; width : Z; height : Z }.

(** The dict appended to [bounding_boxes]. *)
Definition region_of (x y w h : Z) (text : str) (confidence : Z) : Region.t :=
  Region.make x y w h (string_of_list_ascii text) confidence.

Section Detect.
(** [re.match(SPANISH_TEXT_PATTERN, text)]. *)
Variable spanish : str -> bool.

(** [for i in range(n_boxes):] on the rows of one OCR pass. *)
Fixpoint read_rows (rows : list row) (bounding_boxes : list Region.t)
  : list Region.t :=
  match rows with
  | [] => bounding_boxes
  | r :: rest =>
      if (conf r >? 40) && negb (bool_decide (Py.strip (text r) = [])) then
        let text := Py.strip (text r) in
        if spanish text
        then read_rows rest
               (bounding_boxes
                  ++ [region_of (left r) (top r) (width r) (height r)
                                text (conf r)])
        else read_rows rest bounding_boxes
      else read_rows rest bounding_boxes
  end.

(** [for psm in psm_modes: ... if bounding_boxes: break]; [ocr psm]
    are the rows of the pass with page segmentation mode [psm]. *)
Fixpoint try_modes (ocr : Z -> list row) (psm_modes : list Z)
         (bounding_boxes : list Region.t) : list Region.t :=
  match psm_modes with
  | [] => bounding_boxes
  | psm :: rest =>
      match read_rows (ocr psm) bounding_boxes with
      | [] => try_modes ocr rest []
      | found => found
      end
  end.

(** [detect_text_regions(image_path)]: [shape] is [enhanced.shape],
    that is (rows, columns), [None] when the image cannot be read,
    and [whole] is the text of [pytesseract.image_to_string]. *)
Definition detect_text_regions (shape : option (Z * Z)) (ocr : Z -> list row)
           (whole : str) : list Region.t :=
  match shape with
  | None => []
  | Some (h, w) =>
      match try_modes ocr [11; 6; 3] [] with
      | [] =>
          let text := Py.strip whole in
          if negb (bool_decide (text = [])) && spanish text then
            let margin := py_int (inject_Z (Z.min w h) * 0.1)%Q in
            [region_of margin margin (w - 2 * margin) (h - 2 * margin) text 70]
          else []
      | found => found
      end
  end.

End Detect.

End DetectSpeechBubbles.

(* ===================================================================== *)
(** * translate.py *)
(* ===================================================================== *)

Module Translate.
Import Py VisualizeBounds.

(** A final-bounds file that is read: the path of its translation and
    the list [data['bubbles']]. *)
Definition source : Type := (string * list Bubble.t)%type.

(** The elements appended together to [files_to_translate],
    [texts_to_translate] and [bubble_indices]. *)
Definition entry : Type := (source * string * nat)%type.

(** [for i, bubble in enumerate(data['bubbles']):] from index [i] on. *)
Fixpoint collect_from (file : source) (i : nat) (bubbles : list Bubble.t)
  : list entry :=
  match bubbles with
  | [] => []
  | bubble :: rest =>
      if String.eqb (Bubble.text bubble) ""
      then collect_from file (S i) rest
      else (file, Bubble.text bubble, i) :: collect_from file (S i) rest
  end.

Definition collect (files : list source) : list entry :=
  flat_map (fun file => collect_from file 0 (snd file)) files.

Definition texts_to_translate (files : list source) : list string :=
  map (fun e : entry => snd (fst e)) (collect files).

(** The dict [file_translations], in insertion order. *)
Definition translations : Type := list (nat * string).
Definition grouped : Type := list (string * (list Bubble.t * translations)).

(** [if output_file not in file_translations: ...;
     file_translations[output_file][1].append(...)]. *)
Fixpoint add_translation (file : source) (t : nat * string) (d : grouped) : grouped :=
  match d with
  | [] => [(fst file, (snd file, [t]))]
  | (output_file, (data, ts)) :: d' =>
      if String.eqb output_file (fst file)
      then (output_file, (data, ts ++ [t])) :: d'
      else (output_file, (data, ts)) :: add_translation file t d'
  end.

(** [for (input_file, output_file, data), translated_text, bubble_idx
     in zip(files_to_translate, translated_results, bubble_indices)]. *)
Definition group (entries : list entry) (translated_results : list string) : grouped :=
  fold_left
    (fun d (er : entry * string) =>
       add_translation (fst (fst (fst er))) (snd (fst er), snd er) d)
    (zip entries translated_results) [].


(** [bubble['text'] = translated_text] on a copy of the bubble. *)
Definition set_text (text : string) (b : Bubble.t) : Bubble.t :=
  {| Bubble.bubble_number := Bubble.bubble_number b;
     Bubble.x := Bubble.x b; Bubble.y := Bubble.y b;
     Bubble.width := Bubble.width b; Bubble.height := Bubble.height b;
     Bubble.text := text;
     Bubble.text_regions := Bubble.text_regions b |}.

(** [for bubble_idx, translated_text in translations:
     translated_data['bubbles'][bubble_idx]['text'] = translated_text];
    [None] is the [IndexError] of an index past the end. *)
Fixpoint update (bubbles : list Bubble.t) (ts : translations)
  : option (list Bubble.t) :=
  match ts with
  | [] => Some bubbles
  | (bubble_idx, translated_text) :: rest =>
      match bubbles !! bubble_idx with
      | Some b => update (<[bubble_idx := set_text translated_text b]> bubbles) rest
      | None => None
      end
  end.

(** [for output_file, (data, translations) in file_translations.items():]
    the files written, up to the first error, which leaves the loop. *)
Fixpoint write_files (d : grouped) : list source :=
  match d with
  | [] => []
  | (output_file, (data, ts)) :: d' =>
      match update data ts with
      | Some bubbles => (output_file, bubbles) :: write_files d'
      | None => []
      end
  end.

(** [main()] on the files that are read, for a translator that
    answers: the translated files written. *)
Definition main (files : list source) (translate_text : list string -> list string)
  : list source :=
  match texts_to_translate files with
  | [] => []
  | texts => write_files (group (collect files) (translate_text texts))
  end.

(** The translations of one file: the indices of its entries with the
    results at the same positions. *)
Definition slots (es : list entry) (results : list string) : translations :=
  zip (map (fun e : entry => snd e) es) results.

(** One turn of the grouping loop. *)
Definition group_step (d : grouped) (er : entry * string) : grouped :=
  add_translation (fst (fst (fst er))) (snd (fst er), snd er) d.

(** Some bubble of the file has a text. *)
Definition has_text (file : source) : bool :=
  existsb (fun b => negb (String.eqb (Bubble.text b) "")) (snd file).

(** A bubble and its translation: an empty text is left alone, any
    other text is replaced by a text related to it by [R]. *)
Definition translated (R : string -> string -> Prop) (b b' : Bubble.t) : Prop :=
  if String.eqb (Bubble.text b) "" then b' = b
  else exists text, b' = set_text text b /\ R (Bubble.text b) text.

End Translate.
(* ===================================================================== *)
(** * The layout engine: what [fit_text_to_bubble] returns *)
(* ===================================================================== *)

Module LayoutProofs.
Import Py InsertText.

Section Facts.
Context `{FontMetrics} `{TextWrapper}.

Lemma find_fit_fits f bw w start i :
  find_fit f bw w start = Some i -> fits_width f bw (test_segment w i) = true.
Proof.
  induction start as [|k IH]; simpl; [discriminate|].
  destruct (fits_width f bw (test_segment w (S k))) eqn:E.
  - intros [= <-]. exact E.
  - exact IH.
Qed.

Lemma hyphenate_lines f bw w : Forall (line_ok f bw) (hyphenate f bw w).
Proof.
  funelim (hyphenate f bw w).
  - constructor.
  - constructor; [|assumption].
    left. eapply find_fit_fits; eassumption.
  - constructor; [|assumption].
    right. reflexivity.
Qed.

Lemma flush_ok f bw lines cur :
  state_ok f bw (lines, cur) ->
  Forall (line_ok f bw) (match cur with [] => lines | _ => lines ++ [cur] end).
Proof.
  intros [Hl Hc]. simpl in *. destruct cur as [|c cur]; [exact Hl|].
  apply Forall_app. split; [exact Hl|].
  constructor; [|constructor]. left. destruct Hc as [Hc|Hc]; [discriminate|exact Hc].
Qed.

Lemma add_word_ok f bw st word :
  state_ok f bw st -> state_ok f bw (add_word f bw st word).
Proof.
  destruct st as [lines cur]. intros Hst. unfold add_word.
  destruct word as [|c word]; [exact Hst|]. cbv beta iota zeta.
  match goal with
  | |- context [if fits_width f bw ?t then _ else _] =>
      destruct (fits_width f bw t) eqn:Efit
  end.
  - split; [apply Hst | right; exact Efit].
  - pose proof (flush_ok f bw lines cur Hst) as Hflush.
    unfold exceeds_width.
    destruct (fits_width f bw (c :: word)) eqn:Eword; simpl.
    + split; [exact Hflush | right; exact Eword].
    + split; [|left; reflexivity]. simpl.
      apply Forall_app. split; [exact Hflush | apply hyphenate_lines].
Qed.

Lemma fold_add_word_ok f bw words st :
  state_ok f bw st -> state_ok f bw (fold_left (add_word f bw) words st).
Proof.
  revert st. induction words as [|w words IH]; intros st Hst; simpl; [exact Hst|].
  apply IH, add_word_ok, Hst.
Qed.

Lemma wrap_hyphenated_lines f text bw :
  Forall (line_ok f bw) (wrap_hyphenated f text bw).
Proof.
  unfold wrap_hyphenated.
  pose proof (fold_add_word_ok f bw (split text) ([], [])) as Hfold.
  destruct (fold_left (add_word f bw) (split text) ([], [])) as [lines cur].
  apply flush_ok, Hfold. split; [constructor | left; reflexivity].
Qed.

Lemma all_lines_fit_iff f bw lines :
  forallb (fun line => negb (exceeds_width f bw line)) lines = true
  <-> Forall (fun line => fits_width f bw line = true) lines.
Proof.
  unfold exceeds_width. induction lines as [|l lines IH]; simpl.
  - split; [constructor | reflexivity].
  - rewrite andb_true_iff, IH, Forall_cons.
    destruct (fits_width f bw l); simpl; intuition discriminate.
Qed.

(** The body of the scan, read as a relation. *)
Lemma try_size_accepts text bw bh s f lines lh :
  try_size text bw bh s = inr (Some (f, lines, lh)) ->
  f = truetype s /\ lh = line_height_of f /\ accepted text bw bh s lines.
Proof.
  unfold try_size, accepted, block_fits, height_fits, ret.
  destruct (wrap_words (truetype s) text bw) as [e|lines1] eqn:Ewrap; simpl; [discriminate|].
  destruct (forallb _ lines1 && _) eqn:Estep1.
  - intros [= <- <- <-]. split; [reflexivity|]. split; [reflexivity|].
    apply andb_true_iff in Estep1 as [Hw Hh].
    exists lines1. split; [reflexivity|]. left.
    split; [|reflexivity]. split; [apply all_lines_fit_iff, Hw | exact Hh].
  - match goal with
    | |- (if ?c then _ else _) = _ -> _ => destruct c eqn:Estep2
    end; [|discriminate].
    intros [= <- <- <-]. split; [reflexivity|]. split; [reflexivity|].
    exists lines1. split; [reflexivity|]. right.
    split; [|split; [reflexivity | exact Estep2]].
    intros [Hw Hh]. apply all_lines_fit_iff in Hw.
    rewrite Hw, Hh in Estep1. discriminate.
Qed.

Lemma try_size_rejects text bw bh s :
  try_size text bw bh s = inr None -> rejected text bw bh s.
Proof.
  unfold try_size, rejected, block_fits, height_fits, ret.
  destruct (wrap_words (truetype s) text bw) as [e|lines1] eqn:Ewrap; simpl; [discriminate|].
  destruct (forallb _ lines1 && _) eqn:Estep1; [discriminate|].
  match goal with
  | |- (if ?c then _ else _) = _ -> _ => destruct c eqn:Estep2
  end; [discriminate|].
  intros _. split.
  - exists lines1. split; [reflexivity|]. intros [Hw Hh].
    apply all_lines_fit_iff in Hw. rewrite Hw, Hh in Estep1. discriminate.
  - congruence.
Qed.

Lemma try_size_returns text bw bh s :
  returns (wrap_words (truetype s) text bw) -> returns (try_size text bw bh s).
Proof.
  intros [lines1 Hw]. unfold try_size, ret. rewrite Hw. simpl.
  destruct (forallb _ lines1 && _); [eexists; reflexivity|].
  destruct (int_le_float _ _); eexists; reflexivity.
Qed.

(** The scan stops at the first size whose body returns. *)
Lemma scan_some text bw bh sizes l :
  scan text bw bh sizes = inr (Some l) ->
  exists before s after,
    sizes = before ++ s :: after
    /\ try_size text bw bh s = inr (Some l)
    /\ Forall (fun s' => try_size text bw bh s' = inr None) before.
Proof.
  unfold ret. induction sizes as [|s0 sizes IH]; simpl; [discriminate|].
  destruct (try_size text bw bh s0) as [e|[l0|]] eqn:E0; simpl; [discriminate| |].
  - intros [= <-]. exists [], s0, sizes. repeat split; [exact E0 | constructor].
  - intros Hrest. destruct (IH Hrest) as (before & s & after & -> & Hs & Hb).
    exists (s0 :: before), s, after. repeat split; [exact Hs|].
    constructor; assumption.
Qed.

Lemma scan_none text bw bh sizes :
  scan text bw bh sizes = inr None ->
  Forall (fun s' => try_size text bw bh s' = inr None) sizes.
Proof.
  unfold ret. induction sizes as [|s0 sizes IH]; simpl; [constructor|].
  destruct (try_size text bw bh s0) as [e|[l0|]] eqn:E0; simpl; try discriminate.
  intros Hrest. constructor; [exact E0 | exact (IH Hrest)].
Qed.

Lemma scan_returns text bw bh sizes :
  Forall (fun s => returns (wrap_words (truetype s) text bw)) sizes ->
  returns (scan text bw bh sizes).
Proof.
  induction sizes as [|s0 sizes IH]; intros Hall; simpl; [eexists; reflexivity|].
  inversion Hall as [|? ? H0' Hrest]; subst.
  destruct (try_size_returns text bw bh s0 H0') as [[l|] Hr]; rewrite Hr; simpl.
  - eexists; reflexivity.
  - exact (IH Hrest).
Qed.

Lemma range_down_lookup start stop i v :
  range_down start stop !! i = Some v -> v = start - Z.of_nat i.
Proof.
  unfold range_down. rewrite list_lookup_fmap.
  destruct (seq 0 (Z.to_nat (start - stop)) !! i) as [k|] eqn:E; simpl; [|discriminate].
  apply lookup_seq in E as [-> _]. intros [= <-]. reflexivity.
Qed.

(** The scan visits the sizes in decreasing order. *)
Lemma range_down_before start stop before s after s' :
  range_down start stop = before ++ s :: after ->
  In s' (range_down start stop) -> s < s' -> In s' before.
Proof.
  intros Hsplit Hin Hlt.
  apply list_elem_of_In, list_elem_of_lookup in Hin as [j Hj].
  pose proof (range_down_lookup _ _ _ _ Hj) as Hs'.
  assert (Hs : range_down start stop !! length before = Some s).
  { rewrite Hsplit. apply list_lookup_middle. reflexivity. }
  apply range_down_lookup in Hs.
  assert (Hjlt : (j < length before)%nat) by lia.
  rewrite Hsplit, lookup_app_l in Hj by exact Hjlt.
  apply list_elem_of_In, list_elem_of_lookup. exists j. exact Hj.
Qed.

Lemma candidate_sizes_range s : In s candidate_sizes <-> 12 <= s <= 64.
Proof.
  unfold candidate_sizes, range_down, min_font_size, max_font_size.
  rewrite in_map_iff. split.
  - intros (k & <- & Hk). apply in_seq in Hk. simpl in Hk. lia.
  - intros Hs. exists (Z.to_nat (64 - s)). split; [lia|].
    apply in_seq. simpl. lia.
Qed.

(** C1 (amended). When the word wrap raises no error at any size of the
    scan, [fit_text_to_bubble] returns the layout accepted at the
    largest size of the scan at which one of the two attempts is
    accepted (the wrapped block when it fits width and height,
    otherwise the hyphenated block when it fits the height), every
    larger size of the scan being rejected; when every size is rejected it returns the
    hyphenated block of the minimum size. *)
Theorem fit_returns_largest_accepted text bubble_width bubble_height font_size :
  (forall s, In s candidate_sizes ->
             returns (wrap_words (truetype s) text bubble_width)) ->
  exists f lines,
    fit_text_to_bubble text bubble_width bubble_height font_size
    = inr (f, lines, line_height_of f)
    /\ ((In (size f) candidate_sizes
         /\ accepted text bubble_width bubble_height (size f) lines
         /\ forall s', In s' candidate_sizes -> size f < s' ->
                       rejected text bubble_width bubble_height s')
        \/ (f = truetype min_font_size
            /\ lines = wrap_hyphenated f text bubble_width
            /\ forall s', In s' candidate_sizes ->
                          rejected text bubble_width bubble_height s')).
Proof.
  intros Hwrap.
  assert (Hall : Forall (fun s => returns (wrap_words (truetype s) text bubble_width))
                        candidate_sizes).
  { apply Forall_forall. intros s Hs. apply Hwrap, list_elem_of_In, Hs. }
  destruct (scan_returns text bubble_width bubble_height _ Hall) as [r Hr].
  unfold fit_text_to_bubble. rewrite Hr. cbn [Py.bind]. destruct r as [[[f lines] lh]|].
  - destruct (scan_some _ _ _ _ _ Hr) as (before & s & after & Hsplit & Hs & Hbefore).
    destruct (try_size_accepts _ _ _ _ _ _ _ Hs) as (-> & -> & Hacc).
    exists (truetype s), lines. split; [reflexivity|]. left. cbn [size].
    split; [rewrite Hsplit; apply in_elt|]. split; [exact Hacc|].
    intros s' Hin Hlt. apply try_size_rejects.
    pose proof (range_down_before _ _ _ _ _ _ Hsplit Hin Hlt) as Hb.
    rewrite Forall_forall in Hbefore. apply Hbefore, list_elem_of_In, Hb.
  - exists (truetype min_font_size), (wrap_hyphenated (truetype min_font_size) text bubble_width).
    split; [reflexivity|]. right. split; [reflexivity|]. split; [reflexivity|].
    intros s' Hin. apply try_size_rejects.
    pose proof (scan_none _ _ _ _ Hr) as Hnone.
    rewrite Forall_forall in Hnone. apply Hnone, list_elem_of_In, Hin.
Qed.

(** C3 (amended). A layout returned at a font size above the minimum has
    a block height within [bubble_height * 0.95], and each of its
    lines is within [bubble_width * 0.95] or is a single character
    emitted by force. *)
Theorem fit_above_minimum_fits text bubble_width bubble_height font_size f lines lh :
  fit_text_to_bubble text bubble_width bubble_height font_size = inr (f, lines, lh) ->
  min_font_size < size f ->
  int_le_float (total_height lines lh) (height_budget bubble_height) = true
  /\ Forall (line_ok f bubble_width) lines.
Proof.
  unfold fit_text_to_bubble, ret.
  destruct (scan text bubble_width bubble_height candidate_sizes) as [e|[l|]] eqn:Hr;
    simpl; [discriminate| |].
  - intros [= ->] _.
    destruct (scan_some _ _ _ _ _ Hr) as (before & s & after & _ & Hs & _).
    destruct (try_size_accepts _ _ _ _ _ _ _ Hs)
      as (-> & -> & wrapped & _ & [[[Hw Hh] ->]|(_ & -> & Hh)]).
    + split; [exact Hh|]. eapply Forall_impl; [exact Hw|]. intros l Hl. left. exact Hl.
    + split; [exact Hh | apply wrap_hyphenated_lines].
  - intros [= <- _ _]. simpl. unfold min_font_size. lia.
Qed.

(** C10. The result does not depend on [font_size]: the sizes tried are
    64, 63, ..., 12 whatever the argument. *)
Theorem fit_ignores_font_size text bubble_width bubble_height font_size font_size' :
  candidate_sizes = map (fun k => 64 - Z.of_nat k) (seq 0 53)
  /\ fit_text_to_bubble text bubble_width bubble_height font_size
     = fit_text_to_bubble text bubble_width bubble_height font_size'.
Proof. split; reflexivity. Qed.

(** The width handed to [textwrap.wrap] is not positive as soon as the
    glyph "m" is wider than [bubble_width * 0.9]. *)
Lemma wrap_words_narrow f text bubble_width :
  0 < bbox2 (getbbox f (lit "m")) ->
  9 * bubble_width < 10 * bbox2 (getbbox f (lit "m")) ->
  wrap_words f text bubble_width = inl ValueError.
Proof.
  intros Hpos Hnarrow. unfold wrap_words, py_truediv, textwrap_wrap, raise.
  destruct (bbox2 (getbbox f (lit "m"))) as [|m|m] eqn:Em; try lia.
  simpl.
  assert (Hq : py_int (inject_Z bubble_width * 0.9 / inject_Z (Z.pos m)) <= 0).
  { unfold py_int. simpl.
    destruct (Z_lt_le_dec (bubble_width * 9 * 1) 0) as [Hneg|Hnn].
    - apply Z.quot_le_upper_bound; lia. 
    - rewrite Z.quot_small; lia. }
  apply Z.leb_le in Hq. rewrite Hq. reflexivity.
Qed.

Lemma narrow_bubble_raises text bubble_width bubble_height font_size :
  0 < bbox2 (getbbox (truetype 64) (lit "m")) ->
  9 * bubble_width < 10 * bbox2 (getbbox (truetype 64) (lit "m")) ->
  fit_text_to_bubble text bubble_width bubble_height font_size = inl ValueError.
Proof.
  intros Hpos Hnarrow. unfold fit_text_to_bubble.
  change candidate_sizes with (64 :: range_down 63 11).
  simpl. unfold try_size. rewrite wrap_words_narrow by assumption. reflexivity.
Qed.

End Facts.

(** ** Runs with the reference collaborators *)

(** C1 (counterexample). With the scan starting at the caller's 64, the
    layout returned for "W" in a 58 x 100 rectangle is at size 64 and its
    line is wider than 58 * 0.95, although at size 61 of the scan the
    wrapped block fits in width and height. *)
Lemma fit_largest_fitting_counterexample :
  @fit_text_to_bubble sample_font greedy_wrapper (lit "W") 58 100 64
  = inr (truetype 64, [lit "W"], 68)
  /\ @fits_width sample_font (truetype 64) 58 (lit "W") = false
  /\ In 61 candidate_sizes
  /\ @wrap_words sample_font greedy_wrapper (truetype 61) (lit "W") 58 = inr [lit "W"]
  /\ @block_fits sample_font (truetype 61) 58 100 [lit "W"].
Proof.
  split; [vm_compute; reflexivity|].
  split; [vm_compute; reflexivity|].
  split; [apply candidate_sizes_range; lia|].
  split; [vm_compute; reflexivity|].
  split; [repeat constructor | vm_compute; reflexivity].
Qed.

Lemma fit_returns_largest_accepted_witness :
  exists f lines,
    @fit_text_to_bubble sample_font greedy_wrapper (lit "Hola mundo") 200 80 32
    = inr (f, lines, @line_height_of sample_font f)
    /\ ((In (size f) candidate_sizes
         /\ @accepted sample_font greedy_wrapper (lit "Hola mundo") 200 80 (size f) lines
         /\ forall s', In s' candidate_sizes -> size f < s' ->
                       @rejected sample_font greedy_wrapper (lit "Hola mundo") 200 80 s')
        \/ (f = truetype min_font_size
            /\ lines = @wrap_hyphenated sample_font f (lit "Hola mundo") 200
            /\ forall s', In s' candidate_sizes ->
                          @rejected sample_font greedy_wrapper (lit "Hola mundo") 200 80 s')).
Proof.
  apply (@fit_returns_largest_accepted sample_font greedy_wrapper
           (lit "Hola mundo") 200 80 32).
  intros s Hs. vm_compute in Hs.
  repeat (destruct Hs as [<-|Hs]; [eexists; vm_compute; reflexivity|]).
  destruct Hs.
Defined.

(** C2 (failing input). In a rectangle of width 5 the width handed to
    [textwrap.wrap] at size 64 is 0, and the call raises. *)
Lemma fit_narrow_bubble_raises :
  @fit_text_to_bubble sample_font greedy_wrapper
    (lit "Supercalifragilisticoexpialidoso") 5 200 FONT_SIZE
  = inl ValueError.
Proof. vm_compute. reflexivity. Qed.

(** C3 (counterexample). The layout returned for "Wm" in a 58 x 200
    rectangle is at size 64, above the minimum, and its first line is
    wider than 58 * 0.95. *)
Lemma fit_above_minimum_counterexample :
  @fit_text_to_bubble sample_font greedy_wrapper (lit "Wm") 58 200 FONT_SIZE
  = inr (truetype 64, [lit "W"; lit "m"], 68)
  /\ min_font_size < size (truetype 64)
  /\ @fits_width sample_font (truetype 64) 58 (lit "W") = false.
Proof. repeat split; vm_compute; reflexivity. Qed.

Lemma fit_above_minimum_fits_witness :
  @fit_text_to_bubble sample_font greedy_wrapper (lit "Hola mundo") 200 80 FONT_SIZE
  = inr (truetype 37, [lit "Hola mundo"], 41)
  /\ min_font_size < size (truetype 37)
  /\ int_le_float (total_height [lit "Hola mundo"] 41) (height_budget 80) = true
  /\ Forall (@line_ok sample_font (truetype 37) 200) [lit "Hola mundo"].
Proof.
  assert (Hrun : @fit_text_to_bubble sample_font greedy_wrapper
                   (lit "Hola mundo") 200 80 FONT_SIZE
                 = inr (truetype 37, [lit "Hola mundo"], 41))
    by (vm_compute; reflexivity).
  assert (Hmin : min_font_size < size (truetype 37)) by (vm_compute; reflexivity).
  split; [exact Hrun|]. split; [exact Hmin|].
  exact (@fit_above_minimum_fits sample_font greedy_wrapper
           (lit "Hola mundo") 200 80 FONT_SIZE _ _ _ Hrun Hmin).
Defined.

End LayoutProofs.
(* ===================================================================== *)
(** * Grouping: clustering, merging, prioritising, persisting *)
(* ===================================================================== *)

Module BoundsProofs.
Import Py VisualizeBounds.

(** ** Python helpers *)

Lemma fold_min_shift xs a b :
  fold_left Z.min xs (Z.min a b) = Z.min a (fold_left Z.min xs b).
Proof.
  revert b. induction xs as [|x xs IH]; intros b; simpl; [reflexivity|].
  rewrite <- Z.min_assoc. apply IH.
Qed.

Lemma fold_max_shift xs a b :
  fold_left Z.max xs (Z.max a b) = Z.max a (fold_left Z.max xs b).
Proof.
  revert b. induction xs as [|x xs IH]; intros b; simpl; [reflexivity|].
  rewrite <- Z.max_assoc. apply IH.
Qed.

Lemma py_min_app xs ys a b :
  py_min xs = inr a -> py_min ys = inr b -> py_min (xs ++ ys) = inr (Z.min a b).
Proof.
  destruct xs as [|x xs]; [discriminate|]. destruct ys as [|y ys]; [discriminate|].
  unfold py_min, ret. intros [= <-] [= <-]. simpl. f_equal.
  rewrite fold_left_app. simpl. apply fold_min_shift.
Qed.

Lemma py_max_app xs ys a b :
  py_max xs = inr a -> py_max ys = inr b -> py_max (xs ++ ys) = inr (Z.max a b).
Proof.
  destruct xs as [|x xs]; [discriminate|]. destruct ys as [|y ys]; [discriminate|].
  unfold py_max, ret. intros [= <-] [= <-]. simpl. f_equal.
  rewrite fold_left_app. simpl. apply fold_max_shift.
Qed.

(** [min(xs)] is a lower bound that is attained. *)
Lemma py_min_spec xs m :
  py_min xs = inr m -> In m xs /\ forall x, In x xs -> m <= x.
Proof.
  destruct xs as [|x0 xs]; [discriminate|]. unfold py_min, ret. intros [= <-].
  revert x0. induction xs as [|x xs IH]; intros x0; simpl.
  - split; [left; reflexivity|]. intros x [<-|[]]. lia.
  - destruct (IH (Z.min x0 x)) as [Hin Hle]. split.
    + destruct Hin as [Hin|Hin]; [|right; right; exact Hin].
      destruct (Z.min_spec x0 x) as [[_ E]|[_ E]];
        [left; congruence | right; left; congruence].
    + intros z Hz. pose proof (Hle (Z.min x0 x) (or_introl eq_refl)) as H0.
      destruct Hz as [<-|[<-|Hz]]; [lia|lia|]. apply Hle. right. exact Hz.
Qed.

Lemma py_max_spec xs m :
  py_max xs = inr m -> In m xs /\ forall x, In x xs -> x <= m.
Proof.
  destruct xs as [|x0 xs]; [discriminate|]. unfold py_max, ret. intros [= <-].
  revert x0. induction xs as [|x xs IH]; intros x0; simpl.
  - split; [left; reflexivity|]. intros x [<-|[]]. lia.
  - destruct (IH (Z.max x0 x)) as [Hin Hle]. split.
    + destruct Hin as [Hin|Hin]; [|right; right; exact Hin].
      destruct (Z.max_spec x0 x) as [[_ E]|[_ E]];
        [right; left; congruence | left; congruence].
    + intros z Hz. pose proof (Hle (Z.max x0 x) (or_introl eq_refl)) as H0.
      destruct Hz as [<-|[<-|Hz]]; [lia|lia|]. apply Hle. right. exact Hz.
Qed.

(** ** Bounding boxes *)

Lemma bounding_box_returns bubble :
  bubble <> [] -> returns (bounding_box bubble).
Proof.
  destruct bubble as [|r bubble]; [congruence|]. intros _.
  eexists. unfold bounding_box. simpl. reflexivity.
Qed.

Lemma bounding_box_nonempty bubble b :
  bounding_box bubble = inr b -> bubble <> [].
Proof. destruct bubble; [discriminate | congruence]. Qed.

Lemma bounding_box_app g1 g2 b1 b2 :
  bounding_box g1 = inr b1 -> bounding_box g2 = inr b2 ->
  bounding_box (g1 ++ g2) = inr (union_box b1 b2).
Proof.
  unfold bounding_box. rewrite !map_app.
  destruct (py_min (map Region.x g1)) as [|a0] eqn:A0; [discriminate|].
  destruct (py_min (map Region.y g1)) as [|a1] eqn:A1; [discriminate|].
  destruct (py_max (map (fun r => Region.x r + Region.width r) g1)) as [|a2] eqn:A2;
    [discriminate|].
  destruct (py_max (map (fun r => Region.y r + Region.height r) g1)) as [|a3] eqn:A3;
    [discriminate|].
  destruct (py_min (map Region.x g2)) as [|c0] eqn:C0; [discriminate|].
  destruct (py_min (map Region.y g2)) as [|c1] eqn:C1; [discriminate|].
  destruct (py_max (map (fun r => Region.x r + Region.width r) g2)) as [|c2] eqn:C2;
    [discriminate|].
  destruct (py_max (map (fun r => Region.y r + Region.height r) g2)) as [|c3] eqn:C3;
    [discriminate|].
  simpl. unfold ret. intros [= <-] [= <-].
  rewrite (py_min_app _ _ _ _ A0 C0), (py_min_app _ _ _ _ A1 C1),
          (py_max_app _ _ _ _ A2 C2), (py_max_app _ _ _ _ A3 C3).
  reflexivity.
Qed.

(** ** The merger on values *)

Lemma absorb_spec rest : forall group_i box_i gi kept merged,
  absorb group_i box_i rest = (gi, kept, merged) ->
  bounding_box group_i = inr box_i -> boxes_ok rest ->
  boxes_ok (gi :: kept)
  /\ Permutation (fragments (gi :: kept)) (group_i ++ fragments rest)
  /\ (merged = false ->
      gi = (group_i, box_i) /\ kept = rest
      /\ Forall (fun gb => overlap box_i (snd gb) = false) rest).
Proof.
  induction rest as [|[gj bj] rest IH]; intros group_i box_i gi kept merged; simpl.
  - intros [= <- <- <-] Hi _. split; [repeat constructor; exact Hi|].
    split; [unfold fragments; simpl; reflexivity|].
    intros _. repeat split. constructor.
  - intros Hrun Hi Hrest. inversion Hrest as [|? ? Hj Hrest']; subst. simpl in Hj.
    destruct (overlap box_i bj) eqn:Eov.
    + destruct (absorb (group_i ++ gj) (union_box box_i bj) rest)
        as [[gi' kept'] merged'] eqn:Erec.
      injection Hrun as <- <- <-.
      destruct (IH _ _ _ _ _ Erec (bounding_box_app _ _ _ _ Hi Hj) Hrest')
        as (Hok & Hperm & _).
      split; [exact Hok|]. split; [|discriminate].
      rewrite Hperm. unfold fragments. simpl. rewrite <- app_assoc. reflexivity.
    + destruct (absorb group_i box_i rest) as [[gi' kept'] merged'] eqn:Erec.
      injection Hrun as <- <- <-.
      destruct (IH _ _ _ _ _ Erec Hi Hrest') as (Hok & Hperm & Hstay).
      inversion Hok as [|? ? Hgi Hkept]; subst.
      split; [constructor; [exact Hgi|]; constructor; [exact Hj | exact Hkept]|].
      split.
      * unfold fragments in *. simpl in *.
        rewrite (Permutation_app_swap_app (fst gi') gj), Hperm.
        apply Permutation_app_swap_app.
      * intros ->. destruct (Hstay eq_refl) as (-> & -> & Hall).
        repeat split. constructor; [exact Eov | exact Hall].
Qed.

Lemma pass_spec groups : forall groups' merged,
  pass groups = (groups', merged) -> boxes_ok groups ->
  boxes_ok groups'
  /\ Permutation (fragments groups') (fragments groups)
  /\ (merged = false -> groups' = groups /\ disjoint_pairs groups).
Proof.
  induction groups as [|[gi bi] rest IH]; intros groups' merged; simpl.
  - intros [= <- <-] _. repeat split; constructor.
  - intros Hrun Hok. inversion Hok as [|? ? Hi Hrest]; subst. simpl in Hi.
    destruct (absorb gi bi rest) as [[g kept] m] eqn:Eabs.
    destruct (absorb_spec _ _ _ _ _ _ Eabs Hi Hrest) as (Hok' & Hperm & Hstay).
    destruct m.
    + injection Hrun as <- <-. split; [exact Hok'|]. split; [exact Hperm | discriminate].
    + destruct (pass rest) as [rest' m'] eqn:Epass.
      injection Hrun as <- <-.
      destruct (IH _ _ eq_refl Hrest) as (Hokr & Hpermr & Hstayr).
      destruct (Hstay eq_refl) as (_ & _ & Hall).
      split; [constructor; assumption|]. split.
      * unfold fragments in *. simpl. rewrite Hpermr. reflexivity.
      * intros ->. destruct (Hstayr eq_refl) as (-> & Hdis).
        split; [reflexivity|]. constructor; [exact Hall | exact Hdis].
Qed.

Lemma merge_loop_spec groups :
  boxes_ok groups ->
  boxes_ok (merge_loop groups)
  /\ Permutation (fragments (merge_loop groups)) (fragments groups)
  /\ disjoint_pairs (merge_loop groups).
Proof.
  funelim (merge_loop groups); intros Hok.
  - destruct (pass_spec _ _ _ e Hok) as (Hok' & Hperm & _).
    destruct (H Hok') as (Hok'' & Hperm' & Hdis).
    split; [exact Hok''|]. split; [rewrite Hperm'; exact Hperm | exact Hdis].
  - destruct (pass_spec _ _ _ e Hok) as (Hok' & Hperm & Hstay).
    destruct (Hstay eq_refl) as (-> & Hdis).
    split; [exact Hok|]. split; [reflexivity | exact Hdis].
Qed.

Lemma bounding_boxes_zip groups boxes :
  bounding_boxes groups = inr boxes ->
  length boxes = length groups /\ boxes_ok (zip groups boxes).
Proof.
  revert boxes. induction groups as [|g groups IH]; intros boxes; simpl.
  - intros [= <-]. split; [reflexivity | constructor].
  - destruct (bounding_box g) as [|b] eqn:Eb; [discriminate|]. simpl.
    destruct (bounding_boxes groups) as [|bs] eqn:Ebs; [discriminate|]. simpl.
    intros [= <-]. destruct (IH bs eq_refl) as [Hlen Hok].
    split; [simpl; lia|]. constructor; [exact Eb | exact Hok].
Qed.

Lemma bounding_boxes_returns groups :
  Forall (fun g => g <> []) groups -> returns (bounding_boxes groups).
Proof.
  induction 1 as [|g groups Hg _ [bs IH]]; [eexists; reflexivity|].
  destruct (bounding_box_returns g Hg) as [b Hb].
  exists (b :: bs). simpl. rewrite Hb. simpl. rewrite IH. reflexivity.
Qed.

Lemma boxes_ok_boxes groups :
  boxes_ok groups -> bounding_boxes (map fst groups) = inr (map snd groups).
Proof.
  induction 1 as [|[g b] groups Hg _ IH]; [reflexivity|].
  simpl in *. rewrite Hg. simpl. rewrite IH. reflexivity.
Qed.

Lemma overlap_sym a b : overlap a b = overlap b a.
Proof.
  destruct a as [[[a0 a1] a2] a3], b as [[[b0 b1] b2] b3]. unfold overlap.
  rewrite !Z.gtb_ltb.
  destruct (a0 <? b2), (b0 <? a2), (a1 <? b3), (b1 <? a3); reflexivity.
Qed.

Lemma ordered_pairs_lookup {A} (R : A -> A -> Prop) (l : list A) :
  ForallOrdPairs R l ->
  forall i j a b, (i < j)%nat -> l !! i = Some a -> l !! j = Some b -> R a b.
Proof.
  induction 1 as [|x l Hx _ IH]; intros i j a b Hij Hi Hj; [destruct i; discriminate|].
  destruct j as [|j]; [lia|]. simpl in Hj. destruct i as [|i].
  - injection Hi as <-. rewrite Forall_forall in Hx.
    apply Hx. apply list_elem_of_lookup. exists j. exact Hj.
  - simpl in Hi. apply (IH i j); [lia | assumption | assumption].
Qed.

Lemma disjoint_pairs_boxes groups :
  disjoint_pairs groups -> pairwise_disjoint (map snd groups).
Proof.
  intros Hdis i j bi bj Hne Hi Hj.
  apply list_lookup_fmap_Some in Hi as (gi & -> & Ei).
  apply list_lookup_fmap_Some in Hj as (gj & -> & Ej).
  destruct (Nat.lt_total i j) as [Hlt|[Heq|Hgt]]; [| congruence |].
  - exact (ordered_pairs_lookup _ _ Hdis i j _ _ Hlt Ei Ej).
  - rewrite overlap_sym. exact (ordered_pairs_lookup _ _ Hdis j i _ _ Hgt Ej Ei).
Qed.

(** The merger returns groups with pairwise disjoint bounding boxes that
    hold the same fragments. *)
Lemma merge_groups_spec bubble_groups :
  Forall (fun g => g <> []) bubble_groups ->
  exists merged boxes,
    merge_groups bubble_groups = inr merged
    /\ bounding_boxes merged = inr boxes
    /\ pairwise_disjoint boxes
    /\ Permutation (concat merged) (concat bubble_groups).
Proof.
  intros Hne. destruct (bounding_boxes_returns _ Hne) as [boxes Hboxes].
  unfold merge_groups. destruct (length bubble_groups <=? 1)%nat eqn:Elen.
  - exists bubble_groups, boxes.
    split; [reflexivity|]. split; [exact Hboxes|]. split; [|reflexivity].
    apply Nat.leb_le in Elen.
    destruct (bounding_boxes_zip _ _ Hboxes) as [Hlen _].
    intros i j bi bj Hij Hi Hj.
    apply lookup_lt_Some in Hi, Hj. lia.
  - rewrite Hboxes. simpl.
    destruct (bounding_boxes_zip _ _ Hboxes) as [Hlen Hok].
    destruct (merge_loop_spec _ Hok) as (Hok' & Hperm & Hdis).
    exists (map fst (merge_loop (zip bubble_groups boxes))),
           (map snd (merge_loop (zip bubble_groups boxes))).
    split; [reflexivity|]. split; [apply boxes_ok_boxes, Hok'|].
    split; [apply disjoint_pairs_boxes, Hdis|].
    unfold fragments in Hperm. rewrite Hperm.
    change (map fst (zip bubble_groups boxes)) with ((zip bubble_groups boxes).*1).
    rewrite fst_zip by lia. reflexivity.
Qed.

(** ** The clusterer *)

Lemma mark_length label comp labels :
  length (mark label comp labels) = length labels.
Proof.
  unfold mark. revert labels.
  induction comp as [|j comp IH]; intros labels; simpl; [reflexivity|].
  rewrite IH. destruct (labels !! j) as [[| |[| |]]|]; try reflexivity.
  apply length_insert.
Qed.

Lemma label_from_length eps points todo next labels :
  length (label_from eps points todo next labels) = length labels.
Proof.
  revert next labels.
  induction todo as [|i todo IH]; intros next labels; simpl; [reflexivity|].
  destruct (labels !! i) as [[| |[| |]]|]; rewrite IH; try reflexivity.
  apply mark_length.
Qed.

Lemma dbscan_labels_length eps points labels :
  dbscan_labels eps points = inr labels -> length labels = length points.
Proof.
  unfold dbscan_labels. destruct (Qle_bool eps 0); [discriminate|].
  assert (Hlen : length (label_from eps points (seq 0 (length points)) 0
                                    (replicate (length points) (-1)))
                 = length points)
    by (rewrite label_from_length; apply length_replicate).
  destruct points as [|p points]; [discriminate|].
  intros [= <-]. exact Hlen.
Qed.

Lemma dbscan_labels_returns eps points :
  (0 < eps)%Q -> points <> [] -> returns (dbscan_labels eps points).
Proof.
  intros Heps Hne. unfold dbscan_labels.
  destruct (Qle_bool eps 0) eqn:E.
  - apply Qle_bool_iff in E. exfalso. exact (Qlt_not_le _ _ Heps E).
  - destruct points; [congruence|]. eexists. reflexivity.
Qed.

Lemma dict_append_fragments label region d :
  Permutation (concat (map snd (dict_append label region d)))
              (concat (map snd d) ++ [region]).
Proof.
  induction d as [|[k members] d IH]; simpl; [reflexivity|].
  destruct (k =? label); simpl.
  - rewrite <- !app_assoc. apply Permutation_app_head, Permutation_app_comm.
  - rewrite IH, app_assoc. reflexivity.
Qed.

Lemma dict_append_nonempty label region d :
  Forall (fun e => snd e <> []) d ->
  Forall (fun e => snd e <> []) (dict_append label region d).
Proof.
  induction 1 as [|[k members] d Hk Hd IH]; simpl.
  - repeat constructor. discriminate.
  - destruct (k =? label).
    + constructor; [|assumption]. simpl. destruct members; discriminate.
    + constructor; [exact Hk | exact IH].
Qed.

Lemma fold_dict_append pairs : forall d,
  Forall (fun e => snd e <> []) d ->
  let d' := fold_left (fun d lr => dict_append (fst lr) (snd lr) d) pairs d in
  Forall (fun e => snd e <> []) d'
  /\ Permutation (concat (map snd d')) (concat (map snd d) ++ map snd pairs).
Proof.
  induction pairs as [|[l r] pairs IH]; intros d Hd; simpl.
  - split; [exact Hd|]. rewrite app_nil_r. reflexivity.
  - destruct (IH _ (dict_append_nonempty l r d Hd)) as [Hne Hperm].
    split; [exact Hne|]. simpl in Hperm. rewrite Hperm, dict_append_fragments.
    rewrite <- app_assoc. reflexivity.
Qed.

(** Grouping by label is a partition of the regions, whatever the labels. *)
Lemma group_by_label_partition labels regions :
  length labels = length regions ->
  Forall (fun g => g <> []) (map snd (group_by_label labels regions))
  /\ Permutation (concat (map snd (group_by_label labels regions))) regions.
Proof.
  intros Hlen. unfold group_by_label.
  destruct (fold_dict_append (zip labels regions) [] (Forall_nil_2 _)) as [Hne Hperm].
  split.
  - apply Forall_map. exact Hne.
  - rewrite Hperm. simpl.
    change (map snd (zip labels regions)) with ((zip labels regions).*2).
    rewrite snd_zip by lia. reflexivity.
Qed.

Lemma cluster_partition regions eps vertical_weight horizontal_penalty :
  (0 < eps)%Q ->
  exists groups,
    group_text_regions_by_distance regions eps vertical_weight horizontal_penalty
    = inr groups
    /\ Forall (fun g => g <> []) groups
    /\ Permutation (concat groups) regions.
Proof.
  intros Heps. unfold group_text_regions_by_distance.
  destruct regions as [|r regions].
  - exists []. repeat split; constructor.
  - set (rs := r :: regions).
    set (points := map (transformed_point vertical_weight horizontal_penalty) rs).
    destruct (dbscan_labels_returns eps points Heps) as [labels Hl]; [discriminate|].
    rewrite Hl. simpl.
    pose proof (dbscan_labels_length _ _ _ Hl) as Hlen.
    unfold points in Hlen. rewrite length_map in Hlen.
    destruct (group_by_label_partition labels rs Hlen) as [Hne Hperm].
    eexists. split; [reflexivity|]. split; assumption.
Qed.

(** ** The merger on list objects simulates the merger on values *)

Lemma view_frame m m' groups :
  (forall l, In l (map fst groups) -> m' !!! l = m !!! l) ->
  view m' groups = view m groups.
Proof.
  intros Hsame. unfold view. apply map_ext_in. intros [l b] Hin. simpl.
  rewrite Hsame; [reflexivity|]. apply in_map_iff. exists (l, b). auto.
Qed.

Lemma merge_loop_unfold groups :
  merge_loop groups
  = if snd (pass groups) then merge_loop (fst (pass groups)) else fst (pass groups).
Proof. funelim (merge_loop groups); rewrite e; reflexivity. Qed.

Lemma merge_loop_in_unfold m groups :
  merge_loop_in m groups
  = let '(m', groups', merged) := pass_in m groups in
    if merged then merge_loop_in m' groups' else (m', groups').
Proof. funelim (merge_loop_in m groups); rewrite e; reflexivity. Qed.

Lemma absorb_in_sim rest : forall m loc_i box_i m' gi kept merged,
  absorb_in m loc_i box_i rest = (m', gi, kept, merged) ->
  ~ In loc_i (map fst rest) ->
  fst gi = loc_i
  /\ absorb (m !!! loc_i) box_i (view m rest)
     = ((m' !!! loc_i, snd gi), view m' kept, merged)
  /\ (forall l, l <> loc_i -> m' !!! l = m !!! l)
  /\ (merged = false -> m' = m /\ gi = (loc_i, box_i) /\ kept = rest)
  /\ map fst kept `sublist_of` map fst rest.
Proof.
  induction rest as [|[lj bj] rest IH]; intros m loc_i box_i m' gi kept merged; simpl.
  - intros [= <- <- <- <-] _. simpl. repeat split; try tauto. constructor.
  - intros Hrun Hnotin.
    assert (Hne : lj <> loc_i) by tauto.
    assert (Hnotin' : ~ In loc_i (map fst rest)) by tauto.
    destruct (overlap box_i bj) eqn:Eov.
    + destruct (absorb_in (<[loc_i := m !!! loc_i ++ m !!! lj]> m) loc_i
                          (union_box box_i bj) rest)
        as [[[m1 g1] kept1] merged1] eqn:Erec.
      injection Hrun as <- <- <- <-.
      destruct (IH _ _ _ _ _ _ _ Erec Hnotin') as (Hfst & Hsim & Hframe & _ & Hsub).
      rewrite lookup_total_insert_eq in Hsim.
      rewrite (view_frame m (<[loc_i := m !!! loc_i ++ m !!! lj]> m) rest) in Hsim.
      2:{ intros l Hl. apply lookup_total_insert_ne. intros <-. tauto. }
      rewrite Hsim. split; [exact Hfst|]. split; [reflexivity|].
      split; [|split; [discriminate | apply sublist_cons, Hsub]].
      intros l Hl. rewrite (Hframe l Hl). apply lookup_total_insert_ne. congruence.
    + destruct (absorb_in m loc_i box_i rest) as [[[m1 g1] kept1] merged1] eqn:Erec.
      injection Hrun as <- <- <- <-.
      destruct (IH _ _ _ _ _ _ _ Erec Hnotin') as (Hfst & Hsim & Hframe & Hstay & Hsub).
      rewrite Hsim. simpl. rewrite (Hframe lj Hne).
      split; [exact Hfst|]. split; [reflexivity|]. split; [exact Hframe|]. split.
      * intros Hm. destruct (Hstay Hm) as (-> & -> & ->). repeat split.
      * apply sublist_skip, Hsub.
Qed.

Lemma pass_in_sim groups : forall m m' groups' merged,
  pass_in m groups = (m', groups', merged) ->
  NoDup (map fst groups) ->
  pass (view m groups) = (view m' groups', merged)
  /\ (forall l, ~ In l (map fst groups) -> m' !!! l = m !!! l)
  /\ map fst groups' `sublist_of` map fst groups
  /\ (merged = false -> m' = m /\ groups' = groups).
Proof.
  induction groups as [|[li bi] rest IH]; intros m m' groups' merged; simpl.
  - intros [= <- <- <-] _. repeat split; try tauto. constructor.
  - intros Hrun Hnd. apply NoDup_cons in Hnd as [Hnotin Hnd].
    rewrite list_elem_of_In in Hnotin.
    destruct (absorb_in m li bi rest) as [[[m1 g1] kept1] merged1] eqn:Eabs.
    destruct (absorb_in_sim _ _ _ _ _ _ _ _ Eabs Hnotin)
      as (Hfst & Hsim & Hframe & Hstay & Hsub).
    rewrite Hsim. destruct merged1.
    + injection Hrun as <- <- <-. destruct g1 as [l1 b1]. simpl in *. subst l1.
      split; [reflexivity|].
      split; [intros l Hl; apply Hframe; intros ->; tauto|].
      split; [apply sublist_skip, Hsub | discriminate].
    + destruct (Hstay eq_refl) as (-> & -> & ->).
      destruct (pass_in m rest) as [[m2 rest2] merged2] eqn:Epass.
      injection Hrun as <- <- <-.
      destruct (IH _ _ _ _ Epass Hnd) as (Hsim' & Hframe' & Hsub' & Hstay').
      rewrite Hsim'. simpl. rewrite (Hframe' li Hnotin).
      split; [reflexivity|].
      split; [intros l Hl; apply Hframe'; tauto|].
      split; [apply sublist_skip, Hsub'|].
      intros Hm. destruct (Hstay' Hm) as (-> & ->). split; reflexivity.
Qed.

Lemma merge_loop_in_sim m groups :
  NoDup (map fst groups) ->
  merge_loop (view m groups)
  = view (fst (merge_loop_in m groups)) (snd (merge_loop_in m groups))
  /\ (forall l, ~ In l (map fst groups) ->
                fst (merge_loop_in m groups) !!! l = m !!! l)
  /\ map fst (snd (merge_loop_in m groups)) `sublist_of` map fst groups.
Proof.
  funelim (merge_loop_in m groups); intros Hnd.
  - destruct (pass_in_sim _ _ _ _ _ e Hnd) as (Hsim & Hframe & Hsub & _).
    destruct (H (sublist_NoDup _ _ Hnd Hsub)) as (Hsim' & Hframe' & Hsub').
    rewrite merge_loop_unfold, Hsim. simpl. split; [exact Hsim'|]. split.
    + intros l Hl. rewrite Hframe'; [apply Hframe, Hl|].
      intros Hin. apply Hl. rewrite <- list_elem_of_In in *.
      exact (elem_of_sublist _ _ _ Hin Hsub).
    + etransitivity; eassumption.
  - destruct (pass_in_sim _ _ _ _ _ e Hnd) as (Hsim & Hframe & Hsub & _).
    rewrite merge_loop_unfold, Hsim. simpl.
    split; [reflexivity|]. split; [exact Hframe | exact Hsub].
Qed.

Lemma view_zip m groups boxes :
  view m (zip groups boxes) = zip (deref m groups) boxes.
Proof.
  revert boxes. induction groups as [|g groups IH]; intros [|b boxes]; simpl;
    try reflexivity.
  rewrite IH. reflexivity.
Qed.

Lemma view_fst m groups : map fst (view m groups) = deref m (map fst groups).
Proof. unfold view, deref. rewrite !map_map. reflexivity. Qed.

Lemma deref_length m groups : length (deref m groups) = length groups.
Proof. apply length_map. Qed.

Lemma view_snd m groups : map snd (view m groups) = map snd groups.
Proof. unfold view. rewrite map_map. reflexivity. Qed.

Lemma absorb_disjoint rest group_i box_i :
  Forall (fun gb => overlap box_i (snd gb) = false) rest ->
  absorb group_i box_i rest = ((group_i, box_i), rest, false).
Proof.
  induction 1 as [|[gj bj] rest Hj _ IH]; simpl; [reflexivity|].
  simpl in Hj. rewrite Hj, IH. reflexivity.
Qed.

Lemma pass_disjoint groups :
  disjoint_pairs groups -> pass groups = (groups, false).
Proof.
  induction 1 as [|[gi bi] rest Hi _ IH]; simpl; [reflexivity|].
  rewrite (absorb_disjoint rest gi bi Hi), IH. reflexivity.
Qed.

Lemma boxes_disjoint_pairs groups :
  pairwise_disjoint (map snd groups) -> disjoint_pairs groups.
Proof.
  induction groups as [|[g b] groups IH]; intros Hdis; [constructor|].
  constructor.
  - apply Forall_forall. intros [g' b'] Hin.
    apply list_elem_of_lookup in Hin as [j Hj]. simpl.
    apply (Hdis 0%nat (S j)); [lia | reflexivity|].
    simpl. rewrite list_lookup_fmap, Hj. reflexivity.
  - apply IH. intros i j bi bj Hij Hi Hj.
    apply (Hdis (S i) (S j)); [lia | exact Hi | exact Hj].
Qed.

(** The object version against the value version. *)
Lemma merge_store_simulation bubble_groups st :
  NoDup (lists st !!! bubble_groups) ->
  Forall (fun g => members st !!! g <> []) (lists st !!! bubble_groups) ->
  exists st',
    merge_overlapping_bubbles bubble_groups st = inr (bubble_groups, st')
    /\ merge_groups (contents st bubble_groups) = inr (contents st' bubble_groups)
    /\ lists st' !!! bubble_groups `sublist_of` lists st !!! bubble_groups
    /\ (forall g, ~ In g (lists st !!! bubble_groups) ->
                  members st' !!! g = members st !!! g)
    /\ (forall l, l <> bubble_groups -> lists st' !! l = lists st !! l).
Proof.
  intros Hnd Hne. unfold merge_overlapping_bubbles, merge_groups, contents.
  set (groups := lists st !!! bubble_groups) in *.
  rewrite !deref_length.
  destruct (length groups <=? 1)%nat eqn:Elen.
  - exists st. repeat split; reflexivity.
  - assert (Hne' : Forall (fun g => g <> []) (deref (members st) groups)).
    { unfold deref. apply Forall_map. exact Hne. }
    destruct (bounding_boxes_returns _ Hne') as [boxes Hboxes].
    rewrite Hboxes. cbn [Py.bind].
    destruct (bounding_boxes_zip _ _ Hboxes) as [Hlen _].
    rewrite deref_length in Hlen.
    assert (Hfst : map fst (zip groups boxes) = groups).
    { change (map fst (zip groups boxes)) with ((zip groups boxes).*1).
      apply fst_zip. lia. }
    assert (Hnd' : NoDup (map fst (zip groups boxes))) by (rewrite Hfst; exact Hnd).
    destruct (merge_loop_in_sim (members st) _ Hnd') as (Hsim & Hframe & Hsub).
    rewrite Hfst in Hframe, Hsub.
    destruct (merge_loop_in (members st) (zip groups boxes)) as [m' groups'] eqn:Eloop.
    simpl in Hsim, Hframe, Hsub.
    eexists. split; [reflexivity|]. cbn [lists members].
    rewrite lookup_total_insert_eq.
    split; [|split; [exact Hsub|split; [exact Hframe|]]].
    + rewrite <- view_zip, Hsim, view_fst. reflexivity.
    + intros l Hl. apply lookup_insert_ne. congruence.
Qed.

(** A list whose boxes are pairwise disjoint goes through the merger
    without any write. *)
Lemma merge_store_disjoint bubble_groups st boxes :
  NoDup (lists st !!! bubble_groups) ->
  bounding_boxes (contents st bubble_groups) = inr boxes ->
  pairwise_disjoint boxes ->
  merge_overlapping_bubbles bubble_groups st = inr (bubble_groups, st).
Proof.
  intros Hnd Hboxes Hdis. unfold merge_overlapping_bubbles, contents in *.
  set (groups := lists st !!! bubble_groups) in *.
  destruct (length groups <=? 1)%nat eqn:Elen; [reflexivity|].
  assert (Hlk : lists st !! bubble_groups = Some groups).
  { apply Nat.leb_gt in Elen. unfold groups in *.
    rewrite lookup_total_alt in *.
    destruct (lists st !! bubble_groups); [reflexivity | simpl in Elen; lia]. }
  rewrite Hboxes. cbn [Py.bind].
  destruct (bounding_boxes_zip _ _ Hboxes) as [Hlen _].
  rewrite deref_length in Hlen.
  assert (Hfst : map fst (zip groups boxes) = groups).
  { change (map fst (zip groups boxes)) with ((zip groups boxes).*1).
    apply fst_zip. lia. }
  assert (Hnd' : NoDup (map fst (zip groups boxes))) by (rewrite Hfst; exact Hnd).
  assert (Hpairs : disjoint_pairs (view (members st) (zip groups boxes))).
  { apply boxes_disjoint_pairs. rewrite view_snd.
    change (map snd (zip groups boxes)) with ((zip groups boxes).*2).
    rewrite snd_zip by lia. exact Hdis. }
  rewrite merge_loop_in_unfold.
  destruct (pass_in (members st) (zip groups boxes)) as [[m1 g1] merged1] eqn:Epass.
  destruct (pass_in_sim _ _ _ _ _ Epass Hnd') as (Hsim1 & _ & _ & Hstay).
  rewrite (pass_disjoint _ Hpairs) in Hsim1.
  injection Hsim1 as _ <-.
  destruct (Hstay eq_refl) as (-> & ->). rewrite Hfst.
  destruct st as [ls ms]. simpl in *. unfold ret. do 3 f_equal.
  apply insert_id. exact Hlk.
Qed.

Lemma fresh_store_lists groups :
  lists (fresh_store groups) !!! 0%nat = seq 0 (length groups).
Proof. unfold fresh_store. simpl. apply lookup_total_singleton_eq. Qed.

Lemma fresh_store_contents groups : contents (fresh_store groups) 0%nat = groups.
Proof.
  unfold contents. rewrite fresh_store_lists. unfold deref, fresh_store. simpl.
  apply list_eq. intros i.
  change (map ?f ?l) with (f <$> l). rewrite list_lookup_fmap.
  destruct (groups !! i) as [g|] eqn:Eg.
  - rewrite lookup_seq_lt by (eapply lookup_lt_Some; eassumption). simpl.
    rewrite lookup_total_alt, lookup_map_seq_0, Eg. reflexivity.
  - rewrite lookup_seq_ge by (apply lookup_ge_None; exact Eg). reflexivity.
Qed.

(** C7 (amended). The merger works in place.  On a list object whose
    group references are distinct and whose groups are not empty, it
    returns the reference it was given; after the call that list object
    holds the merged groups (those the merger computes from the groups
    it held before), and refers to a sub-sequence of the group objects
    it referred to; group objects outside the list and other list
    objects are untouched; and when no two bounding boxes overlap the
    store is left as it was. *)
Theorem merge_overlapping_bubbles_in_place bubble_groups st :
  NoDup (lists st !!! bubble_groups) ->
  Forall (fun g => members st !!! g <> []) (lists st !!! bubble_groups) ->
  exists st',
    merge_overlapping_bubbles bubble_groups st = inr (bubble_groups, st')
    /\ merge_groups (contents st bubble_groups) = inr (contents st' bubble_groups)
    /\ lists st' !!! bubble_groups `sublist_of` lists st !!! bubble_groups
    /\ (forall g, ~ In g (lists st !!! bubble_groups) ->
                  members st' !!! g = members st !!! g)
    /\ (forall l, l <> bubble_groups -> lists st' !! l = lists st !! l)
    /\ (forall boxes,
           bounding_boxes (contents st bubble_groups) = inr boxes ->
           pairwise_disjoint boxes -> st' = st).
Proof.
  intros Hnd Hne.
  destruct (merge_store_simulation bubble_groups st Hnd Hne)
    as (st' & Hrun & Hvalue & Hsub & Hmembers & Hlists).
  exists st'. split; [exact Hrun|]. split; [exact Hvalue|].
  split; [exact Hsub|]. split; [exact Hmembers|]. split; [exact Hlists|].
  intros boxes Hboxes Hdis.
  pose proof (merge_store_disjoint bubble_groups st boxes Hnd Hboxes Hdis) as Hsame.
  rewrite Hrun in Hsame. injection Hsame as ->. reflexivity.
Qed.

(** C4. Clustering followed by merging partitions the fragments: the
    groups that the list object holds after the merger have pairwise
    disjoint bounding boxes (strict rectangle intersection), and their
    concatenation is a permutation of the input, so every fragment is in
    exactly one group. *)
Theorem cluster_then_merge_partitions regions eps vertical_weight horizontal_penalty :
  (0 < eps)%Q ->
  exists groups st' boxes,
    group_text_regions_by_distance regions eps vertical_weight horizontal_penalty
    = inr groups
    /\ merge_overlapping_bubbles 0%nat (fresh_store groups) = inr (0%nat, st')
    /\ bounding_boxes (contents st' 0%nat) = inr boxes
    /\ pairwise_disjoint boxes
    /\ Permutation (concat (contents st' 0%nat)) regions.
Proof.
  intros Heps.
  destruct (cluster_partition regions eps vertical_weight horizontal_penalty Heps)
    as (groups & Hrun & Hne & Hperm).
  destruct (merge_groups_spec groups Hne) as (merged & boxes & Hmerge & Hboxes & Hdis & Hperm').
  destruct (merge_store_simulation 0%nat (fresh_store groups)) as (st' & Hst & Hval & _).
  - rewrite fresh_store_lists. apply NoDup_seq.
  - rewrite <- (fresh_store_contents groups) in Hne. unfold contents, deref in Hne.
    apply Forall_forall. intros g Hg. rewrite Forall_forall in Hne.
    apply Hne. exact (list_elem_of_fmap_2 _ _ g Hg).
  - rewrite fresh_store_contents, Hmerge in Hval. injection Hval as ->.
    exists groups, st', boxes. repeat split; try assumption.
    rewrite Hperm'. exact Hperm.
Qed.

(** ** The separation example: eps = 225, weights 1.5 and 0.75 *)

Lemma within_far_apart x1 x2 y :
  Z.abs (x1 - x2) = 500 ->
  within CLUSTERING_EPS
    (inject_Z x1 * HORIZONTAL_PENALTY, inject_Z y * VERTICAL_WEIGHT)%Q
    (inject_Z x2 * HORIZONTAL_PENALTY, inject_Z y * VERTICAL_WEIGHT)%Q = false.
Proof.
  intros Habs. unfold within. simpl fst. simpl snd.
  destruct (Qle_bool _ _) eqn:E; [|reflexivity]. exfalso.
  apply Qle_bool_iff in E.
  assert (Hx : x1 = x2 + 500 \/ x1 = x2 - 500) by lia.
  unfold CLUSTERING_EPS, HORIZONTAL_PENALTY, VERTICAL_WEIGHT in E.
  destruct Hx as [-> | ->].
  - rewrite inject_Z_plus in E. generalize dependent (inject_Z x2).
    generalize (inject_Z y). intros qy qx E. ring_simplify in E.
    apply Qle_bool_iff in E. vm_compute in E. discriminate.
  - unfold Z.sub in E. rewrite inject_Z_plus in E. generalize dependent (inject_Z x2).
    generalize (inject_Z y). intros qy qx E. ring_simplify in E.
    apply Qle_bool_iff in E. vm_compute in E. discriminate.
Qed.

Lemma within_stacked x y1 y2 :
  Z.abs (y1 - y2) = 30 ->
  within CLUSTERING_EPS
    (inject_Z x * HORIZONTAL_PENALTY, inject_Z y1 * VERTICAL_WEIGHT)%Q
    (inject_Z x * HORIZONTAL_PENALTY, inject_Z y2 * VERTICAL_WEIGHT)%Q = true.
Proof.
  intros Habs. unfold within. simpl fst. simpl snd.
  apply Qle_bool_iff.
  assert (Hy : y1 = y2 + 30 \/ y1 = y2 - 30) by lia.
  unfold CLUSTERING_EPS, HORIZONTAL_PENALTY, VERTICAL_WEIGHT.
  destruct Hy as [-> | ->].
  - rewrite inject_Z_plus. generalize (inject_Z y2).
    generalize (inject_Z x). intros qx qy. ring_simplify.
    apply Qle_bool_iff. vm_compute. reflexivity.
  - unfold Z.sub. rewrite inject_Z_plus. generalize (inject_Z y2).
    generalize (inject_Z x). intros qx qy. ring_simplify.
    apply Qle_bool_iff. vm_compute. reflexivity.
Qed.

Lemma dbscan_two_apart eps p q :
  Qle_bool eps 0 = false ->
  within eps p q = false -> within eps q p = false ->
  dbscan_labels eps [p; q] = inr [0; 1].
Proof.
  intros Heps Hpq Hqp. unfold dbscan_labels. rewrite Heps.
  do 4 (cbv -[within]; rewrite ?Hpq, ?Hqp). reflexivity.
Qed.

Lemma dbscan_two_close eps p q :
  Qle_bool eps 0 = false ->
  within eps p q = true ->
  dbscan_labels eps [p; q] = inr [0; 0].
Proof.
  intros Heps Hpq. unfold dbscan_labels. rewrite Heps.
  do 4 (cbv -[within]; rewrite ?Hpq). reflexivity.
Qed.

(** C8. With eps = 225, vertical weight 1.5 and horizontal penalty 0.75,
    two fragments whose centres are 500 apart horizontally at the same
    height are put in different groups, and two fragments whose centres
    are 30 apart vertically at the same abscissa are put in one group. *)
Theorem clustering_separation_example r1 r2 :
  (centre_y r1 = centre_y r2 -> Z.abs (centre_x r1 - centre_x r2) = 500 ->
   group_text_regions_by_distance [r1; r2]
     CLUSTERING_EPS VERTICAL_WEIGHT HORIZONTAL_PENALTY = inr [[r1]; [r2]])
  /\ (centre_x r1 = centre_x r2 -> Z.abs (centre_y r1 - centre_y r2) = 30 ->
      group_text_regions_by_distance [r1; r2]
        CLUSTERING_EPS VERTICAL_WEIGHT HORIZONTAL_PENALTY = inr [[r1; r2]]).
Proof.
  split; intros Hsame Hapart; unfold group_text_regions_by_distance;
    cbn [map]; unfold transformed_point.
  - rewrite Hsame.
    rewrite dbscan_two_apart; [reflexivity | reflexivity | |].
    + apply within_far_apart. exact Hapart.
    + apply within_far_apart. lia.
  - rewrite Hsame.
    rewrite dbscan_two_close; [reflexivity | reflexivity |].
    apply within_stacked. exact Hapart.
Qed.

(** ** The persisted records *)

Lemma bounding_box_union bubble min_x min_y max_x max_y :
  bounding_box bubble = inr (min_x, min_y, max_x, max_y) ->
  union_rectangle bubble min_x min_y (max_x - min_x) (max_y - min_y).
Proof.
  unfold bounding_box.
  destruct (py_min (map Region.x bubble)) as [|a0] eqn:A0; [discriminate|].
  destruct (py_min (map Region.y bubble)) as [|a1] eqn:A1; [discriminate|].
  destruct (py_max (map (fun r => Region.x r + Region.width r) bubble)) as [|a2] eqn:A2;
    [discriminate|].
  destruct (py_max (map (fun r => Region.y r + Region.height r) bubble)) as [|a3] eqn:A3;
    [discriminate|].
  simpl. intros [= <- <- <- <-].
  apply py_min_spec in A0 as [I0 L0]. apply py_min_spec in A1 as [I1 L1].
  apply py_max_spec in A2 as [I2 L2]. apply py_max_spec in A3 as [I3 L3].
  unfold union_rectangle. replace (a0 + (a2 - a0)) with a2 by lia.
  replace (a1 + (a3 - a1)) with a3 by lia.
  split; [|split; [|split; [|split]]].
  - intros r Hr.
    pose proof (L0 _ (in_map Region.x _ _ Hr)).
    pose proof (L1 _ (in_map Region.y _ _ Hr)).
    pose proof (L2 _ (in_map (fun r => Region.x r + Region.width r) _ _ Hr)).
    pose proof (L3 _ (in_map (fun r => Region.y r + Region.height r) _ _ Hr)).
    simpl in *. lia.
  - apply in_map_iff in I0 as (r & E & Hr). exists r. auto.
  - apply in_map_iff in I1 as (r & E & Hr). exists r. auto.
  - apply in_map_iff in I2 as (r & E & Hr). exists r. auto.
  - apply in_map_iff in I3 as (r & E & Hr). exists r. auto.
Qed.

Lemma append_bubbles_spec bubble_groups : forall i bubbles,
  Forall (fun g => g <> []) bubble_groups ->
  exists records,
    append_bubbles i bubble_groups bubbles = inr (bubbles ++ records)
    /\ length records = length bubble_groups
    /\ forall k bubble,
         bubble_groups !! k = Some bubble ->
         exists record,
           records !! k = Some record
           /\ Bubble.bubble_number record = i + Z.of_nat k + 1
           /\ union_rectangle bubble (Bubble.x record) (Bubble.y record)
                              (Bubble.width record) (Bubble.height record)
           /\ Bubble.text record = String.concat " " (map Region.text bubble)
           /\ Bubble.text_regions record = bubble.
Proof.
  induction bubble_groups as [|g groups IH]; intros i bubbles Hne.
  - exists []. simpl. rewrite app_nil_r. repeat split. intros k b Hk. discriminate.
  - inversion Hne as [|? ? Hg Hrest]; subst.
    destruct (bounding_box_returns g Hg) as [[[[x0 y0] x1] y1] Hb].
    simpl. rewrite Hb. cbn [Py.bind].
    destruct (IH (i + 1) (bubbles ++ [Bubble.make (i + 1) x0 y0 (x1 - x0) (y1 - y0)
                                                 (full_text g) g]) Hrest)
      as (records & Hrun & Hlen & Hrec).
    eexists (_ :: records). rewrite Hrun, <- app_assoc. 
    split; [reflexivity|]. split; [simpl; lia|].
    intros [|k] b Hk; simpl in Hk.
    + injection Hk as <-. eexists. split; [reflexivity|]. simpl.
      split; [lia|]. split; [apply bounding_box_union, Hb|]. split; reflexivity.
    + destruct (Hrec k b Hk) as (record & Hlk & Hnum & Hrest').
      exists record. split; [exact Hlk|]. split; [lia | exact Hrest'].
Qed.

(** C9. The i-th persisted bubble (counting from 0) carries number i + 1,
    the union bounding box of the i-th group as its geometry, the texts
    of the members joined by one space in member order, and the members
    themselves. *)
Theorem save_final_bounds_records bubble_groups :
  bubble_groups <> [] ->
  Forall (fun g => g <> []) bubble_groups ->
  exists bubbles,
    save_final_bounds bubble_groups = inr bubbles
    /\ length bubbles = length bubble_groups
    /\ forall k bubble,
         bubble_groups !! k = Some bubble ->
         exists record,
           bubbles !! k = Some record
           /\ Bubble.bubble_number record = Z.of_nat k + 1
           /\ union_rectangle bubble (Bubble.x record) (Bubble.y record)
                              (Bubble.width record) (Bubble.height record)
           /\ Bubble.text record = String.concat " " (map Region.text bubble)
           /\ Bubble.text_regions record = bubble.
Proof.
  intros _ Hne. unfold save_final_bounds.
  destruct (append_bubbles_spec bubble_groups 0 [] Hne) as (records & Hrun & Hlen & Hrec).
  exists records. split; [exact Hrun|]. split; [exact Hlen | exact Hrec].
Qed.

(** ** The prioritiser *)

(** Tuples with different areas are ordered by area, without looking
    at the bubbles. *)
Lemma tuple_lt_distinct a b :
  fst a <> fst b -> tuple_lt a b = inr (fst a <? fst b).
Proof.
  intros Hne. unfold tuple_lt. destruct (fst a =? fst b) eqn:E; [|reflexivity].
  apply Z.eqb_eq in E. contradiction.
Qed.

Lemma insert_sorted_distinct pivot sorted :
  ~ In (fst pivot) (map fst sorted) ->
  exists sorted',
    insert_sorted pivot sorted = inr sorted'
    /\ Permutation sorted' (pivot :: sorted)
    /\ (StronglySorted by_area sorted -> StronglySorted by_area sorted').
Proof.
  induction sorted as [|a rest IH]; intros Hfresh; simpl.
  - exists [pivot]. repeat split; [reflexivity|]. intros _. repeat constructor.
  - simpl in Hfresh.
    rewrite tuple_lt_distinct by (intros E; apply Hfresh; left; congruence).
    cbn [Py.bind]. destruct (fst pivot <? fst a) eqn:Elt.
    + exists (pivot :: a :: rest). split; [reflexivity|]. split; [reflexivity|].
      intros Hs. apply Z.ltb_lt in Elt. constructor; [exact Hs|].
      constructor; [exact Elt|]. apply StronglySorted_inv in Hs as [_ Hall].
      eapply Forall_impl; [exact Hall|]. unfold by_area. intros c Hc. simpl in *. lia.
    + destruct IH as (rest' & Hrun & Hperm & Hsorted); [tauto|].
      rewrite Hrun. cbn [Py.bind]. exists (a :: rest'). split; [reflexivity|].
      split; [rewrite Hperm; apply perm_swap|].
      intros Hs. apply StronglySorted_inv in Hs as [Hs Hall].
      constructor; [exact (Hsorted Hs)|].
      apply Z.ltb_ge in Elt.
      assert (Hap : by_area a pivot) by (unfold by_area; lia).
      rewrite Forall_forall in *. intros c Hc.
      rewrite Hperm in Hc. apply elem_of_cons in Hc as [->|Hc]; [exact Hap | exact (Hall c Hc)].
Qed.

Lemma sort_from_distinct todo : forall sorted,
  NoDup (map fst (sorted ++ todo)) ->
  exists sorted',
    sort_from sorted todo = inr sorted'
    /\ Permutation sorted' (sorted ++ todo)
    /\ (StronglySorted by_area sorted -> StronglySorted by_area sorted').
Proof.
  induction todo as [|pivot todo IH]; intros sorted Hnd; simpl.
  - exists sorted. rewrite app_nil_r. repeat split; [reflexivity | tauto].
  - assert (Hfresh : ~ In (fst pivot) (map fst sorted)).
    { rewrite map_app in Hnd. simpl in Hnd.
      apply NoDup_app in Hnd as (_ & Hdisj & _).
      intros Hin. apply (Hdisj (fst pivot)); [apply list_elem_of_In, Hin | left]. }
    destruct (insert_sorted_distinct pivot sorted Hfresh) as (s1 & Hrun & Hperm & Hsorted).
    rewrite Hrun. cbn [Py.bind].
    destruct (IH s1) as (s2 & Hrun2 & Hperm2 & Hsorted2).
    { eapply NoDup_Permutation_proper; [|exact Hnd].
      apply Permutation_map. rewrite Hperm.
      rewrite (Permutation_middle sorted todo pivot). reflexivity. }
    exists s2. split; [exact Hrun2|]. split.
    + rewrite Hperm2, Hperm. apply Permutation_middle.
    + intros Hs. apply Hsorted2, Hsorted, Hs.
Qed.

Lemma StronglySorted_rev {A} (R : A -> A -> Prop) l :
  StronglySorted R l -> StronglySorted (fun a b => R b a) (rev l).
Proof.
  induction 1 as [|a l Hs IH Hall]; simpl; [constructor|].
  apply StronglySorted_app_2; [|exact IH|repeat constructor].
  intros x1 x2 Hx1 Hx2. apply list_elem_of_singleton in Hx2 as ->.
  rewrite Forall_forall in Hall. apply Hall.
  apply list_elem_of_In, in_rev, list_elem_of_In, Hx1.
Qed.

Lemma sort_reverse_distinct areas :
  NoDup (map fst areas) ->
  exists sorted,
    sort_reverse areas = inr sorted
    /\ Permutation sorted areas
    /\ StronglySorted (fun a b => by_area b a) sorted.
Proof.
  intros Hnd. unfold sort_reverse.
  destruct (sort_from_distinct (rev areas) []) as (s & Hrun & Hperm & Hsorted).
  { simpl. eapply NoDup_Permutation_proper; [|exact Hnd].
    apply Permutation_map. symmetry. apply Permutation_rev. }
  rewrite Hrun. cbn [Py.bind]. exists (rev s). split; [reflexivity|]. split.
  - rewrite <- Permutation_rev, Hperm. simpl. symmetry. apply Permutation_rev.
  - apply StronglySorted_rev, Hsorted. constructor.
Qed.

(** A list no longer than [max_bubbles] is returned as it is. *)
Lemma prioritize_short bubble_groups max_bubbles :
  Z.of_nat (length bubble_groups) <= max_bubbles ->
  filter_and_prioritize_bubbles bubble_groups max_bubbles = inr bubble_groups.
Proof.
  intros Hlen. unfold filter_and_prioritize_bubbles.
  destruct bubble_groups; [reflexivity|].
  apply Z.leb_le in Hlen. rewrite Hlen. reflexivity.
Qed.

(** When the areas are pairwise different, a longer list is cut down to
    the first [max_bubbles] groups of the descending order of areas. *)
Lemma prioritize_distinct_areas bubble_groups max_bubbles areas :
  0 <= max_bubbles < Z.of_nat (length bubble_groups) ->
  bubble_areas bubble_groups = inr areas ->
  NoDup (map fst areas) ->
  exists sorted,
    filter_and_prioritize_bubbles bubble_groups max_bubbles
    = inr (map snd (slice_to sorted max_bubbles))
    /\ Permutation sorted areas
    /\ StronglySorted (fun a b => by_area b a) sorted.
Proof.
  intros Hlen Hareas Hnd. unfold filter_and_prioritize_bubbles.
  destruct bubble_groups as [|g groups]; [simpl in Hlen; lia|].
  destruct Hlen as [_ Hlen].
  apply Z.leb_gt in Hlen. rewrite Hlen, Hareas. cbn [Py.bind].
  destruct (sort_reverse_distinct areas Hnd) as (sorted & Hrun & Hperm & Hsorted).
  rewrite Hrun. cbn [Py.bind]. exists sorted. repeat split; assumption.
Qed.

(** The prioritisation example of the specification. *)
Lemma prioritize_example :
  filter_and_prioritize_bubbles
    [strip 0 10; strip 100 50; strip 200 30; strip 300 5; strip 400 80] 2
  = inr [strip 400 80; strip 100 50].
Proof. vm_compute. reflexivity. Qed.

(** C5 (failing input). Three groups of equal area and [max_bubbles] = 2:
    the sort compares the tuples [(area, bubble)], the areas tie, the
    comparison falls through to the bubbles and raises. *)
Lemma prioritize_equal_areas_raises :
  filter_and_prioritize_bubbles [strip 0 10; strip 100 10; strip 200 10] MAX_BUBBLES
  = inl TypeError.
Proof. vm_compute. reflexivity. Qed.

(** C6 (failing input). Two groups of equal area and [max_count] = 1: the
    list is longer than [max_count], and the call raises instead of
    returning one group. *)
Lemma prioritize_tie_raises :
  filter_and_prioritize_bubbles [strip 0 50; strip 100 50] 1 = inl TypeError.
Proof. vm_compute. reflexivity. Qed.

(** ** Runs on sample fragments *)

Lemma cluster_then_merge_partitions_witness :
  (0 < CLUSTERING_EPS)%Q
  /\ exists groups st' boxes,
       group_text_regions_by_distance [frag_a; frag_c; frag_b]
         CLUSTERING_EPS VERTICAL_WEIGHT HORIZONTAL_PENALTY = inr groups
       /\ merge_overlapping_bubbles 0%nat (fresh_store groups) = inr (0%nat, st')
       /\ bounding_boxes (contents st' 0%nat) = inr boxes
       /\ pairwise_disjoint boxes
       /\ Permutation (concat (contents st' 0%nat)) [frag_a; frag_c; frag_b].
Proof.
  assert (Heps : (0 < CLUSTERING_EPS)%Q) by reflexivity.
  split; [exact Heps|].
  exact (cluster_then_merge_partitions [frag_a; frag_c; frag_b]
           CLUSTERING_EPS VERTICAL_WEIGHT HORIZONTAL_PENALTY Heps).
Defined.

Lemma clustering_separation_example_witness :
  let left := frag 0 0 40 20 "left" in
  let right := frag 500 0 40 20 "right" in
  let below := frag 0 30 40 20 "below" in
  (centre_y left = centre_y right /\ Z.abs (centre_x left - centre_x right) = 500
   /\ group_text_regions_by_distance [left; right]
        CLUSTERING_EPS VERTICAL_WEIGHT HORIZONTAL_PENALTY = inr [[left]; [right]])
  /\ (centre_x left = centre_x below /\ Z.abs (centre_y left - centre_y below) = 30
      /\ group_text_regions_by_distance [left; below]
           CLUSTERING_EPS VERTICAL_WEIGHT HORIZONTAL_PENALTY = inr [[left; below]]).
Proof.
  intros left right below.
  assert (Hy : centre_y left = centre_y right) by reflexivity.
  assert (Hx500 : Z.abs (centre_x left - centre_x right) = 500) by reflexivity.
  assert (Hx : centre_x left = centre_x below) by reflexivity.
  assert (Hy30 : Z.abs (centre_y left - centre_y below) = 30) by reflexivity.
  split.
  - split; [exact Hy|]. split; [exact Hx500|].
    exact (proj1 (clustering_separation_example left right) Hy Hx500).
  - split; [exact Hx|]. split; [exact Hy30|].
    exact (proj2 (clustering_separation_example left below) Hx Hy30).
Defined.

Lemma save_final_bounds_records_witness :
  let groups := [[frag_a; frag_b]; [frag_c]] in
  groups <> []
  /\ Forall (fun g => g <> []) groups
  /\ exists bubbles,
       save_final_bounds groups = inr bubbles
       /\ length bubbles = length groups
       /\ forall k bubble,
            groups !! k = Some bubble ->
            exists record,
              bubbles !! k = Some record
              /\ Bubble.bubble_number record = Z.of_nat k + 1
              /\ union_rectangle bubble (Bubble.x record) (Bubble.y record)
                                 (Bubble.width record) (Bubble.height record)
              /\ Bubble.text record = String.concat " " (map Region.text bubble)
              /\ Bubble.text_regions record = bubble.
Proof.
  intros groups.
  assert (H0 : groups <> []) by discriminate.
  assert (H1 : Forall (fun g => g <> []) groups) by (repeat constructor; discriminate).
  split; [exact H0|]. split; [exact H1|].
  exact (save_final_bounds_records groups H0 H1).
Defined.

(** C7 (counterexample). The caller holds a list of two groups whose
    boxes intersect.  After the call the list object has lost its second
    element and the first group object has grown: the argument is not
    left unchanged, and the value returned is the argument itself. *)
Lemma merge_mutates_argument_counterexample :
  let st := fresh_store [[frag_a]; [frag_b]] in
  exists st',
    merge_overlapping_bubbles 0%nat st = inr (0%nat, st')
    /\ contents st 0%nat = [[frag_a]; [frag_b]]
    /\ contents st' 0%nat = [[frag_a; frag_b]]
    /\ lists st !!! 0%nat = [0; 1]%nat
    /\ lists st' !!! 0%nat = [0]%nat
    /\ members st !!! 0%nat = [frag_a]
    /\ members st' !!! 0%nat = [frag_a; frag_b].
Proof.
  simpl. eexists. split; [vm_compute; reflexivity|].
  repeat split; vm_compute; reflexivity.
Qed.

Lemma merge_overlapping_bubbles_in_place_witness :
  let st := fresh_store [[frag_a]; [frag_b]] in
  NoDup (lists st !!! 0%nat)
  /\ Forall (fun g => members st !!! g <> []) (lists st !!! 0%nat)
  /\ exists st',
       merge_overlapping_bubbles 0%nat st = inr (0%nat, st')
       /\ merge_groups (contents st 0%nat) = inr (contents st' 0%nat)
       /\ lists st' !!! 0%nat `sublist_of` lists st !!! 0%nat
       /\ (forall g, ~ In g (lists st !!! 0%nat) ->
                     members st' !!! g = members st !!! g)
       /\ (forall l, l <> 0%nat -> lists st' !! l = lists st !! l)
       /\ (forall boxes,
              bounding_boxes (contents st 0%nat) = inr boxes ->
              pairwise_disjoint boxes -> st' = st).
Proof.
  intros st.
  assert (Hnd : NoDup (lists st !!! 0%nat)).
  { unfold st. rewrite fresh_store_lists. apply NoDup_seq. }
  assert (Hne : Forall (fun g => members st !!! g <> []) (lists st !!! 0%nat)).
  { unfold st. rewrite fresh_store_lists. simpl.
    repeat constructor; vm_compute; discriminate. }
  split; [exact Hnd|]. split; [exact Hne|].
  exact (merge_overlapping_bubbles_in_place 0%nat st Hnd Hne).
Defined.

End BoundsProofs.

(* ===================================================================== *)
(** * Further properties of the layout code *)
(* ===================================================================== *)

Module LayoutExtras.
Import Py InsertText.

(** ** Words *)

Lemma split_from_app cur a sp b :
  isspace sp = true ->
  split_from cur (a ++ sp :: b) = split_from cur a ++ split_from [] b.
Proof.
  intros Hsp. revert cur.
  induction a as [|c a IH]; intros cur; simpl.
  - rewrite Hsp. destruct cur; reflexivity.
  - destruct (isspace c).
    + destruct cur; simpl; rewrite IH; reflexivity.
    + apply IH.
Qed.

Lemma split_from_solid word : forall cur,
  Forall (fun c => isspace c = false) word ->
  cur ++ word <> [] ->
  split_from cur word = [rev cur ++ word].
Proof.
  induction word as [|c word IH]; intros cur Hw Hne; simpl.
  - rewrite app_nil_r in *. destruct cur; [congruence | reflexivity].
  - inversion Hw as [|? ? Hc Hw']; subst. rewrite Hc.
    rewrite IH; [|assumption|discriminate].
    simpl. rewrite <- app_assoc. reflexivity.
Qed.

Lemma split_solid word : solid word -> split word = [word].
Proof.
  intros [Hne Hw]. unfold split. rewrite split_from_solid; auto.
Qed.

Lemma split_from_words text : forall cur,
  Forall (fun c => isspace c = false) cur ->
  Forall solid (split_from cur text).
Proof.
  induction text as [|c text IH]; intros cur Hcur; simpl.
  - destruct cur as [|d cur]; constructor; [|constructor].
    split.
    + intros E. apply (f_equal (@length _)) in E.
      rewrite length_rev in E. discriminate.
    + apply Forall_rev. exact Hcur.
  - destruct (isspace c) eqn:Hc.
    + destruct cur as [|d cur]; [apply IH; constructor|].
      constructor; [|apply IH; constructor].
      split.
      * intros E. apply (f_equal (@length _)) in E.
        rewrite length_rev in E. discriminate.
      * apply Forall_rev. exact Hcur.
    + apply IH. constructor; assumption.
Qed.

Lemma split_words text : Forall solid (split text).
Proof. apply split_from_words. constructor. Qed.

Lemma split_space a word :
  solid word -> split (a ++ lit " " ++ word) = split a ++ [word].
Proof.
  intros Hw. unfold split. simpl.
  rewrite split_from_app by reflexivity.
  f_equal. apply split_solid. exact Hw.
Qed.

Section Facts.
Context `{FontMetrics} `{TextWrapper}.

(** ** Hyphenation *)

Lemma hyphenate_nonempty f bw word : Forall (fun line => line <> []) (hyphenate f bw word).
Proof.
  funelim (hyphenate f bw word).
  - constructor.
  - constructor; [|assumption].
    pose proof (find_fit_range _ _ _ _ _ e) as Hi. unfold test_segment.
    destruct i; [lia | discriminate].
  - constructor; [discriminate | assumption].
Qed.

(** X1. Hyphenation loses no character: the lines emitted for a word
    are its consecutive non-empty pieces, each one as it is or
    followed by a hyphen; so there are at most as many lines as the
    word has characters. *)
Theorem hyphenate_keeps_characters f bubble_width word :
  exists pieces,
    concat pieces = word
    /\ Forall2 (fun line piece =>
                  piece <> [] /\ (line = piece \/ line = piece ++ lit "-"))
               (hyphenate f bubble_width word) pieces
    /\ (length (hyphenate f bubble_width word) <= length word)%nat.
Proof.
  funelim (hyphenate f bubble_width word).
  - exists []. repeat split; [constructor | simpl; lia].
  - destruct H1 as (pieces & Hc & Hf & Hl).
    pose proof (find_fit_range _ _ _ _ _ e) as Hi.
    exists (take i (c :: w) :: pieces). split; [|split].
    + simpl. rewrite Hc. apply take_drop.
    + constructor; [|exact Hf]. split.
      * destruct i; [lia | discriminate].
      * unfold test_segment.
        destruct (i <? length (c :: w))%nat; [right | left; rewrite app_nil_r]; reflexivity.
    + rewrite length_drop in Hl. simpl in *. lia.
  - destruct H1 as (pieces & Hc & Hf & Hl).
    exists ([c] :: pieces). split; [|split].
    + simpl. rewrite Hc. reflexivity.
    + constructor; [|exact Hf]. split; [discriminate | left; reflexivity].
    + simpl. lia.
Qed.

(** ** The hyphenating wrap *)

Lemma add_word_nonempty f bw st word :
  Forall (fun line => line <> []) (fst st) ->
  Forall (fun line => line <> []) (fst (add_word f bw st word)).
Proof.
  destruct st as [lines cur]. unfold add_word. simpl.
  intros Hl. destruct word as [|c word]; [exact Hl|].
  match goal with
  | |- context [if fits_width f bw ?t then _ else _] =>
      destruct (fits_width f bw t)
  end; [exact Hl|].
  assert (Hl' : Forall (fun line : str => line <> [])
                  (match cur with [] => lines | _ => lines ++ [cur] end)).
  { destruct cur; [exact Hl|]. apply Forall_app. split; [exact Hl|].
    constructor; [discriminate | constructor]. }
  destruct (exceeds_width f bw (c :: word)); simpl; [|exact Hl'].
  apply Forall_app. split; [exact Hl' | apply hyphenate_nonempty].
Qed.

Lemma fold_add_word_nonempty f bw words : forall st,
  Forall (fun line => line <> []) (fst st) ->
  Forall (fun line => line <> []) (fst (fold_left (add_word f bw) words st)).
Proof.
  induction words as [|word words IH]; intros st Hst; simpl; [exact Hst|].
  apply IH, add_word_nonempty, Hst.
Qed.

Lemma split_blank text :
  Forall (fun c => isspace c = true) text -> split text = [].
Proof.
  unfold split. induction 1 as [|c text Hc _ IH]; simpl; [reflexivity|].
  rewrite Hc. exact IH.
Qed.

(** X2. The hyphenating wrap never emits an empty line, and it emits
    no line at all for a text made of whitespace only. *)
Theorem wrap_hyphenated_no_empty_line f text bubble_width :
  Forall (fun line => line <> []) (wrap_hyphenated f text bubble_width)
  /\ (Forall (fun c => isspace c = true) text ->
      wrap_hyphenated f text bubble_width = []).
Proof.
  split.
  - unfold wrap_hyphenated.
    match goal with
    | |- context [fold_left ?a ?b ?c] =>
        pose proof (fold_add_word_nonempty f bubble_width b c (Forall_nil_2 _)) as Hf;
        destruct (fold_left a b c) as [lines cur]
    end. simpl in Hf.
    destruct cur; [exact Hf|]. apply Forall_app. split; [exact Hf|].
    constructor; [discriminate | constructor].
  - intros Hblank. unfold wrap_hyphenated. rewrite split_blank by exact Hblank.
    reflexivity.
Qed.

(** The words on the lines emitted so far and on the line under
    construction. *)
Lemma add_word_words f bw st word :
  solid word -> fits_width f bw word = true ->
  Forall (fun line => fits_width f bw line = true) (fst st) ->
  (snd st = [] \/ fits_width f bw (snd st) = true) ->
  let st' := add_word f bw st word in
  concat (map split (fst st')) ++ split (snd st')
  = (concat (map split (fst st)) ++ split (snd st)) ++ [word]
  /\ Forall (fun line => fits_width f bw line = true) (fst st')
  /\ (snd st' = [] \/ fits_width f bw (snd st') = true).
Proof.
  destruct st as [lines cur]. intros Hsolid Hfit Hlines Hcur. simpl in Hlines, Hcur.
  unfold add_word. destruct word as [|c word]; [destruct Hsolid; congruence|].
  destruct cur as [|d cur].
  - rewrite Hfit. simpl. rewrite app_nil_r.
    rewrite (split_solid _ Hsolid). auto.
  - match goal with
    | |- context [if fits_width f bw ?t then _ else _] =>
        destruct (fits_width f bw t) eqn:Et
    end.
    + simpl fst. simpl snd. split; [|auto].
      change (d :: cur ++ " "%char :: c :: word)
        with ((d :: cur) ++ lit " " ++ c :: word).
      rewrite (split_space (d :: cur) _ Hsolid), app_assoc. reflexivity.
    + unfold exceeds_width. rewrite Hfit. simpl fst. simpl snd.
      destruct Hcur as [Hcur|Hcur]; [discriminate|].
      split; [|split; [|auto]].
      * rewrite map_app, concat_app. simpl. rewrite app_nil_r.
        rewrite (split_solid _ Hsolid). reflexivity.
      * apply Forall_app. split; [exact Hlines|].
        constructor; [exact Hcur | constructor].
Qed.

Lemma fold_add_word_words f bw words : forall st,
  Forall solid words ->
  Forall (fun word => fits_width f bw word = true) words ->
  Forall (fun line => fits_width f bw line = true) (fst st) ->
  (snd st = [] \/ fits_width f bw (snd st) = true) ->
  let st' := fold_left (add_word f bw) words st in
  concat (map split (fst st')) ++ split (snd st')
  = (concat (map split (fst st)) ++ split (snd st)) ++ words
  /\ Forall (fun line => fits_width f bw line = true) (fst st')
  /\ (snd st' = [] \/ fits_width f bw (snd st') = true).
Proof.
  induction words as [|word words IH]; intros st Hsolid Hfit Hlines Hcur; simpl.
  - rewrite app_nil_r. auto.
  - inversion Hsolid; subst. inversion Hfit; subst.
    destruct (add_word_words f bw st word) as (Hw & Hl & Hc); try assumption.
    destruct (IH (add_word f bw st word)) as (Hw' & Hl' & Hc'); try assumption.
    split; [|auto]. rewrite Hw'.
    etransitivity; [exact (f_equal (fun l => l ++ words) Hw)|].
    rewrite <- app_assoc. reflexivity.
Qed.

(** X3. When every word of the text fits the width budget on its own,
    the hyphenating wrap is a plain word wrap: the words of its lines,
    read in order, are the words of the text, and every line is
    within the width budget. *)
Theorem wrap_hyphenated_keeps_words f text bubble_width :
  Forall (fun word => fits_width f bubble_width word = true) (split text) ->
  concat (map split (wrap_hyphenated f text bubble_width)) = split text
  /\ Forall (fun line => fits_width f bubble_width line = true)
            (wrap_hyphenated f text bubble_width).
Proof.
  intros Hfit. unfold wrap_hyphenated.
  match goal with
  | |- context [fold_left ?a ?b ?c] =>
      destruct (fold_add_word_words f bubble_width b c) as (Hw & Hl & Hc);
      [apply split_words | exact Hfit | constructor | left; reflexivity |];
      destruct (fold_left a b c) as [lines cur]
  end. simpl in Hw, Hl, Hc.
  destruct cur as [|d cur].
  - simpl in Hw. rewrite app_nil_r in Hw. auto.
  - destruct Hc as [Hc|Hc]; [discriminate|]. split.
    + rewrite map_app, concat_app. simpl. rewrite app_nil_r. exact Hw.
    + apply Forall_app. split; [exact Hl|]. constructor; [exact Hc | constructor].
Qed.

(** ** The result of the scan *)

(** X4. Whatever [font_size] is passed, a layout returned by
    [fit_text_to_bubble] has a font size from 12 to 64, and its line
    height is the one of that font. *)
Theorem fit_size_in_scan_range text bubble_width bubble_height font_size f lines lh :
  fit_text_to_bubble text bubble_width bubble_height font_size = inr (f, lines, lh) ->
  min_font_size <= size f <= max_font_size /\ lh = line_height_of f.
Proof.
  unfold fit_text_to_bubble, ret.
  destruct (scan text bubble_width bubble_height candidate_sizes) as [e|[l|]] eqn:Hr;
    simpl; [discriminate| |].
  - intros [= ->].
    destruct (LayoutProofs.scan_some _ _ _ _ _ Hr) as (before & s & after & Hsplit & Hs & _).
    destruct (LayoutProofs.try_size_accepts _ _ _ _ _ _ _ Hs) as (-> & -> & _).
    split; [|reflexivity]. simpl.
    assert (Hin : In s candidate_sizes) by (rewrite Hsplit; apply in_elt).
    apply LayoutProofs.candidate_sizes_range in Hin.
    unfold min_font_size, max_font_size. lia.
  - intros [= <- _ <-]. simpl. unfold min_font_size, max_font_size. split; [lia | reflexivity].
Qed.

(** ** Errors of the word wrap *)

Lemma wrap_words_zero f text bubble_width :
  bbox2 (getbbox f (lit "m")) = 0 ->
  wrap_words f text bubble_width = inl ZeroDivisionError.
Proof. intros Hm. unfold wrap_words, py_truediv. rewrite Hm. reflexivity. Qed.

(** X5. With a font whose glyph "m" has no width at size 64, the call
    raises [ZeroDivisionError], whatever the text and the rectangle. *)
Theorem fit_zero_width_glyph_raises text bubble_width bubble_height font_size :
  bbox2 (getbbox (truetype 64) (lit "m")) = 0 ->
  fit_text_to_bubble text bubble_width bubble_height font_size = inl ZeroDivisionError.
Proof.
  intros Hm. unfold fit_text_to_bubble.
  change candidate_sizes with (64 :: range_down 63 11).
  simpl. unfold try_size. rewrite wrap_words_zero by assumption. reflexivity.
Qed.

Lemma wrap_words_wide f text bubble_width :
  0 < bbox2 (getbbox f (lit "m")) ->
  10 * bbox2 (getbbox f (lit "m")) <= 9 * bubble_width ->
  returns (wrap_words f text bubble_width).
Proof.
  intros Hpos Hwide. unfold wrap_words, py_truediv, textwrap_wrap, raise, ret.
  destruct (bbox2 (getbbox f (lit "m"))) as [|m|m] eqn:Em; try lia.
  simpl.
  assert (Hq : 1 <= py_int (inject_Z bubble_width * 0.9 / inject_Z (Z.pos m))).
  { unfold py_int. simpl. apply Z.quot_le_lower_bound; lia. }
  destruct (py_int _ <=? 0) eqn:E; [apply Z.leb_le in E; lia|].
  eexists. reflexivity.
Qed.

(** X6. The call returns a layout as soon as, at every size from 12 to
    64, the glyph "m" has a positive width of at most
    [bubble_width * 0.9]. *)
Theorem fit_returns_for_wide_bubble text bubble_width bubble_height font_size :
  (forall s, 12 <= s <= 64 ->
             0 < bbox2 (getbbox (truetype s) (lit "m"))
             /\ 10 * bbox2 (getbbox (truetype s) (lit "m")) <= 9 * bubble_width) ->
  exists f lines,
    fit_text_to_bubble text bubble_width bubble_height font_size
    = inr (f, lines, line_height_of f).
Proof.
  intros Hm.
  assert (Hall : Forall (fun s => returns (wrap_words (truetype s) text bubble_width))
                        candidate_sizes).
  { apply Forall_forall. intros s Hs. apply list_elem_of_In in Hs.
    apply LayoutProofs.candidate_sizes_range in Hs.
    destruct (Hm s Hs). apply wrap_words_wide; assumption. }
  destruct (LayoutProofs.scan_returns text bubble_width bubble_height _ Hall) as [r Hr].
  unfold fit_text_to_bubble. rewrite Hr. cbn [Py.bind]. destruct r as [[[f lines] lh]|].
  - destruct (LayoutProofs.scan_some _ _ _ _ _ Hr) as (before & s & after & _ & Hs & _).
    destruct (LayoutProofs.try_size_accepts _ _ _ _ _ _ _ Hs) as (-> & -> & _).
    eexists _, _. reflexivity.
  - eexists _, _. reflexivity.
Qed.

(** ** Drawing *)

Lemma int_le_float_budget n h :
  int_le_float n (inject_Z h * 0.95)%Q = true <-> 100 * n <= 95 * h.
Proof.
  unfold int_le_float. rewrite Qle_bool_iff. unfold Qle. simpl. lia.
Qed.

Lemma draw_from_lookup f x width y_offset lh lines : forall i k call,
  draw_from f x width y_offset lh i lines !! k = Some call ->
  exists line,
    lines !! k = Some line
    /\ call = (x + (width - bbox2 (getbbox f line)) / 2,
               y_offset + (i + Z.of_nat k) * lh, line).
Proof.
  induction lines as [|line lines IH]; intros i k call; simpl; [discriminate|].
  destruct k as [|k]; simpl.
  - intros [= <-]. exists line. split; [reflexivity|].
    do 2 f_equal. f_equal. lia.
  - intros Hk. destruct (IH _ _ _ Hk) as (l & Hl & ->).
    exists l. split; [exact Hl|]. do 2 f_equal. f_equal. lia.
Qed.

Lemma draw_from_lines f x width y_offset lh lines : forall i,
  map snd (draw_from f x width y_offset lh i lines) = lines.
Proof.
  induction lines as [|line lines IH]; intros i; simpl; [reflexivity|].
  rewrite IH. reflexivity.
Qed.

(** X7. Every line of a layout is drawn once, in order; each line is
    centred in the width of the bubble to within one pixel, and the
    block of lines, stacked [line_height] apart, is centred in its
    height to within one pixel. *)
Theorem draw_lines_centred f x y width height lines line_height :
  map snd (draw_lines f x y width height lines line_height) = lines
  /\ exists top,
       0 <= (height - total_height lines line_height - top) - top <= 1
       /\ forall k x_position y_position line,
            draw_lines f x y width height lines line_height !! k
            = Some (x_position, y_position, line) ->
            lines !! k = Some line
            /\ y_position = y + top + Z.of_nat k * line_height
            /\ 0 <= ((x + width) - (x_position + bbox2 (getbbox f line)))
                    - (x_position - x) <= 1.
Proof.
  unfold draw_lines, total_height. split; [apply draw_from_lines|].
  exists ((height - Z.of_nat (length lines) * line_height) / 2). split.
  - pose proof (Z.div_mod (height - Z.of_nat (length lines) * line_height) 2).
    pose proof (Z.mod_pos_bound (height - Z.of_nat (length lines) * line_height) 2).
    lia.
  - intros k xp yp line Hk.
    destruct (draw_from_lookup _ _ _ _ _ _ _ _ _ Hk) as (l & Hl & [= -> -> ->]).
    split; [exact Hl|]. split; [lia|].
    pose proof (Z.div_mod (width - bbox2 (getbbox f l)) 2).
    pose proof (Z.mod_pos_bound (width - bbox2 (getbbox f l)) 2).
    lia.
Qed.

Lemma fit_above_minimum_block text bubble_width bubble_height font_size f lines lh :
  fit_text_to_bubble text bubble_width bubble_height font_size = inr (f, lines, lh) ->
  min_font_size < size f ->
  int_le_float (total_height lines lh) (height_budget bubble_height) = true
  /\ Forall (line_ok f bubble_width) lines.
Proof.
  unfold fit_text_to_bubble, ret.
  destruct (scan text bubble_width bubble_height candidate_sizes) as [e|[l|]] eqn:Hr;
    simpl; [discriminate| |].
  - intros [= ->] _.
    destruct (LayoutProofs.scan_some _ _ _ _ _ Hr) as (before & s & after & _ & Hs & _).
    destruct (LayoutProofs.try_size_accepts _ _ _ _ _ _ _ Hs)
      as (-> & -> & wrapped & _ & [[[Hw Hh] ->]|(_ & -> & Hh)]).
    + split; [exact Hh|]. eapply Forall_impl; [exact Hw|]. intros l Hl. left. exact Hl.
    + split; [exact Hh | apply LayoutProofs.wrap_hyphenated_lines].
  - intros [= <- _ _]. simpl. unfold min_font_size. lia.
Qed.

(** X8. When a layout returned at a font size above the minimum is
    drawn in its bubble, every line lies between the top and the
    bottom of the bubble, and every line other than a single
    force-emitted character lies between its left and right sides. *)
Theorem fitted_lines_drawn_inside
        text x y width height font_size f lines line_height :
  fit_text_to_bubble text width height font_size = inr (f, lines, line_height) ->
  min_font_size < size f ->
  0 <= width -> 0 <= height -> 0 <= line_height ->
  forall x_position y_position line,
    In (x_position, y_position, line)
       (draw_lines f x y width height lines line_height) ->
    y <= y_position /\ y_position + line_height <= y + height
    /\ (length line = 1%nat
        \/ (x <= x_position
            /\ x_position + bbox2 (getbbox f line) <= x + width)).
Proof.
  intros Hfit Hmin Hw Hh Hlh xp yp line Hin.
  destruct (fit_above_minimum_block _ _ _ _ _ _ _ Hfit Hmin) as [Hheight Hlines].
  apply int_le_float_budget in Hheight. unfold total_height in Hheight.
  apply list_elem_of_In, list_elem_of_lookup in Hin. destruct Hin as [k Hk].
  unfold draw_lines in Hk.
  destruct (draw_from_lookup _ _ _ _ _ _ _ _ _ Hk) as (l & Hl & [= -> -> ->]).
  pose proof (lookup_lt_Some _ _ _ Hl) as Hlt.
  set (n := Z.of_nat (length lines)) in *.
  assert (Hk' : 0 <= Z.of_nat k < n) by lia.
  pose proof (Z.div_mod (height - n * line_height) 2).
  pose proof (Z.mod_pos_bound (height - n * line_height) 2).
  split; [nia|]. split; [nia|].
  rewrite Forall_forall in Hlines.
  destruct (Hlines l) as [Hfits|Hone];
    [apply list_elem_of_lookup; exists k; exact Hl | | left; exact Hone].
  right. unfold fits_width, width_budget in Hfits.
  apply int_le_float_budget in Hfits.
  pose proof (Z.div_mod (width - bbox2 (getbbox f l)) 2).
  pose proof (Z.mod_pos_bound (width - bbox2 (getbbox f l)) 2).
  lia.
Qed.

(** ** The loop over the bubbles of an image *)

Lemma process_bubble_outcome translated old font_size drawn p w bubble_index bubble :
  exists outcome,
    bubble_outcome translated old font_size bubble_index bubble outcome
    /\ process_bubble translated old font_size (drawn, p, w) bubble_index bubble
       = match outcome with
         | Some calls => (drawn ++ calls, p + 1, w)
         | None => (drawn, p, w + 1)
         end.
Proof.
  unfold process_bubble, bubble_outcome.
  destruct (get_translated_text translated old bubble_index) as [[|c t]|] eqn:Et.
  - exists None. split; [right; left; reflexivity | reflexivity].
  - destruct ((default 0 (Parsed.width bubble) <=? 0)
              || (default 0 (Parsed.height bubble) <=? 0)) eqn:Eg.
    + exists None. split; [|reflexivity].
      apply orb_true_iff in Eg as [Eg|Eg]; apply Z.leb_le in Eg; auto.
    + apply orb_false_iff in Eg as [Ew Eh].
      apply Z.leb_gt in Ew, Eh.
      destruct (strip (c :: t)) as [|c' t'] eqn:Es.
      * exists None. split; [|reflexivity].
        do 4 right. exists (c :: t). split; [reflexivity|]. left. exact Es.
      * destruct (fit_text_to_bubble (c' :: t') _ _ _)
          as [e|[[f lines] lh]] eqn:Ef.
        -- exists None. split; [|reflexivity].
           do 4 right. exists (c :: t). split; [reflexivity|]. right.
           exists e. rewrite Es. exact Ef.
        -- exists (Some (draw_lines f (default 0 (Parsed.x bubble))
                                    (default 0 (Parsed.y bubble))
                                    (default 0 (Parsed.width bubble))
                                    (default 0 (Parsed.height bubble)) lines lh)).
           split; [|reflexivity].
           exists (c :: t), f, lines, lh. rewrite Es.
           repeat split; try assumption; try reflexivity. discriminate.
  - exists None. split; [left; reflexivity | reflexivity].
Qed.

Lemma process_from_outcomes translated old font_size bubbles :
  forall bubble_index drawn p w,
  exists outcomes,
    length outcomes = length bubbles
    /\ (forall i bubble outcome,
          bubbles !! i = Some bubble -> outcomes !! i = Some outcome ->
          bubble_outcome translated old font_size
                         (bubble_index + Z.of_nat i) bubble outcome)
    /\ process_from translated old font_size bubble_index bubbles (drawn, p, w)
       = (drawn ++ concat (omap id outcomes),
          p + Z.of_nat (length (omap id outcomes)),
          w + (Z.of_nat (length bubbles) - Z.of_nat (length (omap id outcomes)))).
Proof.
  induction bubbles as [|bubble bubbles IH]; intros idx drawn p w.
  - exists []. split; [reflexivity|]. split; [intros i b o Hb; discriminate|].
    simpl. rewrite app_nil_r.
    apply pair_equal_spec. split; [apply pair_equal_spec; split|];
      [reflexivity | lia | lia].
  - destruct (process_bubble_outcome translated old font_size drawn p w idx bubble)
      as (outcome & Hout & Hstep).
    cbn [process_from]. rewrite Hstep.
    destruct outcome as [calls|].
    + destruct (IH (idx + 1) (drawn ++ calls) (p + 1) w)
        as (outcomes & Hlen & Hall & Hrun).
      exists (Some calls :: outcomes). split; [simpl; lia|]. split.
      * intros [|i] b o Hb Ho; simpl in Hb, Ho.
        -- injection Hb as <-. injection Ho as <-.
           replace (idx + Z.of_nat 0) with idx by lia. exact Hout.
        -- replace (idx + Z.of_nat (S i)) with (idx + 1 + Z.of_nat i) by lia.
           exact (Hall i b o Hb Ho).
      * rewrite Hrun.
        assert (Ho : omap id (Some calls :: outcomes) = calls :: omap id outcomes)
          by reflexivity.
        rewrite Ho. cbn [concat length].
        rewrite !Nat2Z.inj_succ, <- app_assoc.
        apply pair_equal_spec. split; [apply pair_equal_spec; split|];
          [reflexivity | lia | lia].
    + destruct (IH (idx + 1) drawn p (w + 1))
        as (outcomes & Hlen & Hall & Hrun).
      exists (None :: outcomes). split; [simpl; lia|]. split.
      * intros [|i] b o Hb Ho; simpl in Hb, Ho.
        -- injection Hb as <-. injection Ho as <-.
           replace (idx + Z.of_nat 0) with idx by lia. exact Hout.
        -- replace (idx + Z.of_nat (S i)) with (idx + 1 + Z.of_nat i) by lia.
           exact (Hall i b o Hb Ho).
      * rewrite Hrun.
        assert (Ho : omap id (@None (list draw_call) :: outcomes) = omap id outcomes)
          by reflexivity.
        rewrite Ho. cbn [length].
        rewrite Nat2Z.inj_succ.
        apply pair_equal_spec. split; [apply pair_equal_spec; split|];
          [reflexivity | lia | lia].
Qed.

(** X9. What a call does with the bubbles of an image that opens and
    saves.  Every bubble has one outcome.  Either it is drawn: its
    translated text, stripped, is not empty, its width and height are
    positive, the layout of the text is returned, and the calls are
    those that centre this layout in the bubble.  Or it is passed
    over, with exactly one warning: no text, a width or height that
    is missing or not positive, a blank text, or an exception of the
    layout.  The calls are made in the order of the bubbles, the
    warnings are as many as the bubbles passed over, and the image
    is counted once, as a success (and [True] is returned) when some
    bubble is drawn and as a failure (and [False]) otherwise. *)
Theorem process_all_bubbles_accounts bubbles translated old font_size c :
  exists outcomes : list (option (list draw_call)),
    length outcomes = length bubbles
    /\ (forall i bubble outcome,
          bubbles !! i = Some bubble -> outcomes !! i = Some outcome ->
          bubble_outcome translated old font_size (Z.of_nat i) bubble outcome)
    /\ let bubbles_processed := Z.of_nat (length (omap id outcomes)) in
       let ok := 0 <? bubbles_processed in
       process_all_bubbles_in_image bubbles translated old font_size c
       = (concat (omap id outcomes), ok,
          {| SUCCESS_COUNT := SUCCESS_COUNT c + (if ok then 1 else 0);
             FAILURE_COUNT := FAILURE_COUNT c + (if ok then 0 else 1);
             WARNING_COUNT := WARNING_COUNT c
                              + (Z.of_nat (length bubbles) - bubbles_processed) |}).
Proof.
  destruct (process_from_outcomes translated old font_size bubbles 0 [] 0
              (WARNING_COUNT c)) as (outcomes & Hlen & Hall & Hrun).
  exists outcomes. split; [exact Hlen|]. split.
  - intros i b o Hb Ho. specialize (Hall i b o Hb Ho).
    rewrite Z.add_0_l in Hall. exact Hall.
  - cbv zeta. unfold process_all_bubbles_in_image. rewrite Hrun.
    rewrite Z.gtb_ltb. simpl app. rewrite Z.add_0_l.
    destruct (0 <? Z.of_nat (length (omap id outcomes)));
      rewrite ?Z.add_0_r; reflexivity.
Qed.

Lemma process_from_skips translated old font_size bubbles : forall bubble_index drawn p w,
  Forall (fun bubble => default 0 (Parsed.width bubble) <= 0
                        \/ default 0 (Parsed.height bubble) <= 0) bubbles ->
  process_from translated old font_size bubble_index bubbles (drawn, p, w)
  = (drawn, p, w + Z.of_nat (length bubbles)).
Proof.
  induction bubbles as [|bubble bubbles IH]; intros idx drawn p w Hall.
  - simpl. f_equal. lia.
  - inversion Hall as [|? ? Hb Hall']; subst.
    cbn [process_from].
    assert (Hstep : process_bubble translated old font_size (drawn, p, w) idx bubble
                    = (drawn, p, w + 1)).
    { unfold process_bubble.
      destruct (get_translated_text translated old idx) as [[|ch t]|]; try reflexivity.
      assert (Hg : (default 0 (Parsed.width bubble) <=? 0)
                   || (default 0 (Parsed.height bubble) <=? 0) = true).
      { apply orb_true_iff. destruct Hb; [left | right]; apply Z.leb_le; assumption. }
      rewrite Hg. reflexivity. }
    rewrite Hstep, IH by assumption.
    change (length (bubble :: bubbles)) with (S (length bubbles)).
    rewrite Nat2Z.inj_succ. f_equal. lia.
Qed.

(** X10. Bubbles whose width or height is missing from the record (read
    as 0) or is not positive are passed over: when every bubble of
    the image is such, nothing is drawn, the call returns [False],
    counts one failure and one warning per bubble. *)
Theorem process_all_bubbles_without_size bubbles translated old font_size c :
  Forall (fun bubble => default 0 (Parsed.width bubble) <= 0
                        \/ default 0 (Parsed.height bubble) <= 0) bubbles ->
  process_all_bubbles_in_image bubbles translated old font_size c
  = ([], false,
     {| SUCCESS_COUNT := SUCCESS_COUNT c;
        FAILURE_COUNT := FAILURE_COUNT c + 1;
        WARNING_COUNT := WARNING_COUNT c + Z.of_nat (length bubbles) |}).
Proof.
  intros Hall. unfold process_all_bubbles_in_image.
  rewrite process_from_skips by assumption. reflexivity.
Qed.

End Facts.

(** ** Reading the bubble rectangle and the translated text *)

Lemma py_int_tenth w : 0 <= w -> py_int (inject_Z w * 0.1)%Q = w / 10.
Proof.
  intros Hw. unfold py_int. simpl. rewrite Z.mul_1_r.
  apply Z.quot_div_nonneg; lia.
Qed.

(** X11. For an image with an alpha channel whose largest contour has
    its bounding rectangle inside the image, the bounds returned are
    that rectangle shrunk by a tenth of its width (height), rounded
    down, on each side: the two clamps never act.  In every case the
    bounds returned lie inside the image. *)
Theorem find_speech_bubble_bounds_inside rows columns channels largest :
  0 <= rows -> 0 <= columns ->
  (forall x y w h, largest = Some (x, y, w, h) ->
                   0 <= x /\ 0 <= y /\ 0 <= w /\ 0 <= h
                   /\ x + w <= columns /\ y + h <= rows) ->
  exists x' y' w' h',
    find_speech_bubble_bounds (rows, columns, channels) largest = (x', y', w', h')
    /\ 0 <= x' /\ 0 <= y' /\ 0 <= w' /\ 0 <= h'
    /\ x' + w' <= columns /\ y' + h' <= rows
    /\ (channels = 4 ->
        forall x y w h, largest = Some (x, y, w, h) ->
                        x' = x + w / 10 /\ w' = w - 2 * (w / 10)
                        /\ y' = y + h / 10 /\ h' = h - 2 * (h / 10)).
Proof.
  intros Hrows Hcolumns Hinside. unfold find_speech_bubble_bounds.
  destruct (channels =? 4) eqn:Ec.
  - destruct largest as [[[[x y] w] h]|].
    + destruct (Hinside x y w h eq_refl) as (Hx & Hy & Hw & Hh & Hxw & Hyh).
      rewrite !py_int_tenth by assumption.
      pose proof (Z.div_mod w 10). pose proof (Z.mod_pos_bound w 10).
      pose proof (Z.div_mod h 10). pose proof (Z.mod_pos_bound h 10).
      eexists _, _, _, _. split; [reflexivity|].
      do 6 (split; [lia|]).
      intros _ ? ? ? ? [= <- <- <- <-]. lia.
    + eexists _, _, _, _. split; [reflexivity|].
      do 6 (split; [lia|]). intros _ ? ? ? ?. discriminate.
  - eexists _, _, _, _. split; [reflexivity|].
    do 6 (split; [lia|]). intros ->. discriminate.
Qed.

(** X12. When the translated JSON file holds at least one bubble, the
    text for a bubble index from [enumerate] comes from that file
    alone: the old text file is not consulted, an empty text is never
    returned, and an index past the end gets the text of the first
    bubble. *)
Theorem get_translated_text_from_json bubbles old bubble_index :
  bubbles <> [] -> 0 <= bubble_index ->
  get_translated_text (Some bubbles) old bubble_index <> Some []
  /\ (forall old', get_translated_text (Some bubbles) old' bubble_index
                   = get_translated_text (Some bubbles) old bubble_index)
  /\ (Z.of_nat (length bubbles) <= bubble_index ->
      get_translated_text (Some bubbles) old bubble_index
      = get_translated_text (Some bubbles) old 0).
Proof.
  intros Hne Hidx. destruct bubbles as [|first rest]; [congruence|].
  unfold get_translated_text.
  destruct ((0 <=? bubble_index)
            && (bubble_index <? Z.of_nat (length (first :: rest)))) eqn:Ein.
  - split; [|split].
    + destruct (default [] _); discriminate.
    + reflexivity.
    + intros Hout. apply andb_true_iff in Ein. destruct Ein as [_ Elt].
      apply Z.ltb_lt in Elt. lia.
  - apply andb_false_iff in Ein.
    assert (Hout : Z.of_nat (length (first :: rest)) <= bubble_index).
    { destruct Ein as [E|E]; [apply Z.leb_gt in E | apply Z.ltb_ge in E]; lia. }
    assert (Eout : (Z.of_nat (length (first :: rest)) <=? bubble_index) = true)
      by (apply Z.leb_le; exact Hout).
    rewrite Eout. split; [|split].
    + destruct (default [] _); discriminate.
    + reflexivity.
    + intros _. reflexivity.
Qed.

(** ** Runs with the reference collaborators *)

Lemma wrap_hyphenated_no_empty_line_witness :
  Forall (fun line => line <> [])
         (@wrap_hyphenated sample_font (truetype 12) (lit "  ") 200)
  /\ Forall (fun c => isspace c = true) (lit "  ")
  /\ @wrap_hyphenated sample_font (truetype 12) (lit "  ") 200 = [].
Proof.
  pose proof (@wrap_hyphenated_no_empty_line sample_font (truetype 12) (lit "  ") 200)
    as [Hlines Hblank].
  assert (Hb : Forall (fun c => isspace c = true) (lit "  "))
    by (repeat constructor).
  split; [exact Hlines|]. split; [exact Hb | exact (Hblank Hb)].
Defined.

Lemma wrap_hyphenated_keeps_words_witness :
  Forall (fun word => @fits_width sample_font (truetype 20) 60 word = true)
         (split (lit "Hola mundo  cruel"))
  /\ concat (map split (@wrap_hyphenated sample_font (truetype 20)
                          (lit "Hola mundo  cruel") 60))
     = split (lit "Hola mundo  cruel")
  /\ Forall (fun line => @fits_width sample_font (truetype 20) 60 line = true)
            (@wrap_hyphenated sample_font (truetype 20) (lit "Hola mundo  cruel") 60).
Proof.
  assert (Hfit : Forall (fun word => @fits_width sample_font (truetype 20) 60 word = true)
                        (split (lit "Hola mundo  cruel")))
    by (vm_compute; repeat constructor).
  split; [exact Hfit|].
  exact (@wrap_hyphenated_keeps_words sample_font (truetype 20)
           (lit "Hola mundo  cruel") 60 Hfit).
Defined.

Lemma fit_size_in_scan_range_witness :
  @fit_text_to_bubble sample_font greedy_wrapper (lit "Hola mundo") 200 80 (Z.min FONT_SIZE 32)
  = inr (truetype 37, [lit "Hola mundo"], 41)
  /\ min_font_size <= size (truetype 37) <= max_font_size
  /\ 41 = @line_height_of sample_font (truetype 37).
Proof.
  assert (Hrun : @fit_text_to_bubble sample_font greedy_wrapper (lit "Hola mundo") 200 80
                   (Z.min FONT_SIZE 32)
                 = inr (truetype 37, [lit "Hola mundo"], 41))
    by (vm_compute; reflexivity).
  split; [exact Hrun|].
  exact (@fit_size_in_scan_range sample_font greedy_wrapper _ _ _ _ _ _ _ Hrun).
Defined.

Lemma fit_zero_width_glyph_raises_witness :
  bbox2 (@getbbox empty_font (truetype 64) (lit "m")) = 0
  /\ @fit_text_to_bubble empty_font greedy_wrapper (lit "Hola mundo") 200 80 FONT_SIZE
     = inl ZeroDivisionError.
Proof.
  assert (Hm : bbox2 (@getbbox empty_font (truetype 64) (lit "m")) = 0) by reflexivity.
  split; [exact Hm|].
  exact (@fit_zero_width_glyph_raises empty_font greedy_wrapper
           (lit "Hola mundo") 200 80 FONT_SIZE Hm).
Defined.

Lemma fit_returns_for_wide_bubble_witness :
  (forall s, 12 <= s <= 64 ->
             0 < bbox2 (@getbbox sample_font (truetype s) (lit "m"))
             /\ 10 * bbox2 (@getbbox sample_font (truetype s) (lit "m")) <= 9 * 200)
  /\ exists f lines,
       @fit_text_to_bubble sample_font greedy_wrapper (lit "Hola mundo") 200 80 FONT_SIZE
       = inr (f, lines, @line_height_of sample_font f).
Proof.
  assert (Hm : forall s, 12 <= s <= 64 ->
                 0 < bbox2 (@getbbox sample_font (truetype s) (lit "m"))
                 /\ 10 * bbox2 (@getbbox sample_font (truetype s) (lit "m")) <= 9 * 200).
  { intros s Hs. simpl.
    change (advance "m") with 8.
    pose proof (Z.div_mod ((8 + 0) * s) 10). pose proof (Z.mod_pos_bound ((8 + 0) * s) 10).
    lia. }
  split; [exact Hm|].
  exact (@fit_returns_for_wide_bubble sample_font greedy_wrapper
           (lit "Hola mundo") 200 80 FONT_SIZE Hm).
Defined.

Lemma fitted_lines_drawn_inside_witness :
  @fit_text_to_bubble sample_font greedy_wrapper (lit "Hola mundo") 200 80 32
  = inr (truetype 37, [lit "Hola mundo"], 41)
  /\ min_font_size < size (truetype 37)
  /\ 0 <= 200 /\ 0 <= 80 /\ 0 <= 41
  /\ In (16, 29, lit "Hola mundo")
        (@draw_lines sample_font (truetype 37) 10 10 200 80 [lit "Hola mundo"] 41)
  /\ 10 <= 29 /\ 29 + 41 <= 10 + 80
  /\ (length (lit "Hola mundo") = 1%nat
      \/ (10 <= 16
          /\ 16 + bbox2 (@getbbox sample_font (truetype 37) (lit "Hola mundo"))
             <= 10 + 200)).
Proof.
  assert (Hrun : @fit_text_to_bubble sample_font greedy_wrapper (lit "Hola mundo") 200 80 32
                 = inr (truetype 37, [lit "Hola mundo"], 41))
    by (vm_compute; reflexivity).
  assert (Hmin : min_font_size < size (truetype 37)) by (vm_compute; reflexivity).
  assert (Hw : 0 <= 200) by lia.
  assert (Hh : 0 <= 80) by lia.
  assert (Hlh : 0 <= 41) by lia.
  assert (Hin : In (16, 29, lit "Hola mundo")
                   (@draw_lines sample_font (truetype 37) 10 10 200 80
                      [lit "Hola mundo"] 41))
    by (vm_compute; left; reflexivity).
  do 6 (split; [assumption|]).
  exact (@fitted_lines_drawn_inside sample_font greedy_wrapper
           _ 10 10 200 80 32 _ _ _ Hrun Hmin Hw Hh Hlh _ _ _ Hin).
Defined.

Lemma process_all_bubbles_accounts_witness :
  let bubbles := [Parsed.make (Some 10) (Some 10) (Some 200) (Some 80) None;
                  Parsed.make (Some 0) (Some 0) (Some 5) (Some 200) None;
                  Parsed.make (Some 0) (Some 0) None (Some 40) None] in
  let translated := Some [Parsed.make None None None None (Some (lit " Hola mundo "));
                          Parsed.make None None None None (Some (lit "Hola"));
                          Parsed.make None None None None (Some (lit "Hola"))] in
  @process_all_bubbles_in_image sample_font greedy_wrapper
    bubbles translated None FONT_SIZE (make_counters 0 0 0)
  = ([(16, 29, lit "Hola mundo")], true, make_counters 1 0 2)
  /\ @fit_text_to_bubble sample_font greedy_wrapper (lit "Hola") 5 200 (Z.min FONT_SIZE 32)
     = inl ValueError
  /\ exists outcomes : list (option (list draw_call)),
       length outcomes = length bubbles
       /\ (forall i bubble outcome,
             bubbles !! i = Some bubble -> outcomes !! i = Some outcome ->
             @bubble_outcome sample_font greedy_wrapper translated None FONT_SIZE
                             (Z.of_nat i) bubble outcome)
       /\ let bubbles_processed := Z.of_nat (length (omap id outcomes)) in
          let ok := 0 <? bubbles_processed in
          @process_all_bubbles_in_image sample_font greedy_wrapper
            bubbles translated None FONT_SIZE (make_counters 0 0 0)
          = (concat (omap id outcomes), ok,
             {| SUCCESS_COUNT := 0 + (if ok then 1 else 0);
                FAILURE_COUNT := 0 + (if ok then 0 else 1);
                WARNING_COUNT := 0 + (Z.of_nat (length bubbles) - bubbles_processed) |}).
Proof.
  intros bubbles translated.
  split; [vm_compute; reflexivity|]. split; [vm_compute; reflexivity|].
  exact (@process_all_bubbles_accounts sample_font greedy_wrapper
           bubbles translated None FONT_SIZE (make_counters 0 0 0)).
Defined.

Lemma process_all_bubbles_without_size_witness :
  let bubbles := [Parsed.make (Some 5) (Some 5) None (Some 40) None;
                  Parsed.make (Some 5) (Some 5) (Some 100) (Some 0) None] in
  let translated := Some [Parsed.make None None None None (Some (lit "Hola"));
                          Parsed.make None None None None (Some (lit "mundo"))] in
  Forall (fun bubble => default 0 (Parsed.width bubble) <= 0
                        \/ default 0 (Parsed.height bubble) <= 0) bubbles
  /\ @process_all_bubbles_in_image sample_font greedy_wrapper
       bubbles translated None FONT_SIZE (make_counters 0 0 0)
     = ([], false, make_counters 0 1 2).
Proof.
  intros bubbles translated.
  assert (Hall : Forall (fun bubble => default 0 (Parsed.width bubble) <= 0
                                       \/ default 0 (Parsed.height bubble) <= 0) bubbles).
  { repeat constructor; simpl; lia. }
  split; [exact Hall|].
  exact (@process_all_bubbles_without_size sample_font greedy_wrapper
           bubbles translated None FONT_SIZE (make_counters 0 0 0) Hall).
Defined.

Lemma find_speech_bubble_bounds_inside_witness :
  0 <= 300 /\ 0 <= 400
  /\ (forall x y w h, Some (20, 30, 205, 99) = Some (x, y, w, h) ->
                      0 <= x /\ 0 <= y /\ 0 <= w /\ 0 <= h
                      /\ x + w <= 400 /\ y + h <= 300)
  /\ exists x' y' w' h',
       find_speech_bubble_bounds (300, 400, 4) (Some (20, 30, 205, 99)) = (x', y', w', h')
       /\ 0 <= x' /\ 0 <= y' /\ 0 <= w' /\ 0 <= h'
       /\ x' + w' <= 400 /\ y' + h' <= 300
       /\ (4 = 4 ->
           forall x y w h, Some (20, 30, 205, 99) = Some (x, y, w, h) ->
                           x' = x + w / 10 /\ w' = w - 2 * (w / 10)
                           /\ y' = y + h / 10 /\ h' = h - 2 * (h / 10)).
Proof.
  assert (Hrows : 0 <= 300) by lia.
  assert (Hcolumns : 0 <= 400) by lia.
  assert (Hin : forall x y w h, Some (20, 30, 205, 99) = Some (x, y, w, h) ->
                                0 <= x /\ 0 <= y /\ 0 <= w /\ 0 <= h
                                /\ x + w <= 400 /\ y + h <= 300).
  { intros x y w h [= <- <- <- <-]. lia. }
  do 3 (split; [assumption|]).
  exact (find_speech_bubble_bounds_inside 300 400 4 _ Hrows Hcolumns Hin).
Defined.

Lemma get_translated_text_from_json_witness :
  let bubbles := [Parsed.make None None None None (Some (lit "Hola"));
                  Parsed.make None None None None None] in
  bubbles <> [] /\ 0 <= 5
  /\ get_translated_text (Some bubbles) (Some (lit " viejo ")) 5 <> Some []
  /\ (forall old', get_translated_text (Some bubbles) old' 5
                   = get_translated_text (Some bubbles) (Some (lit " viejo ")) 5)
  /\ (Z.of_nat (length bubbles) <= 5 ->
      get_translated_text (Some bubbles) (Some (lit " viejo ")) 5
      = get_translated_text (Some bubbles) (Some (lit " viejo ")) 0).
Proof.
  intros bubbles.
  assert (Hne : bubbles <> []) by discriminate.
  assert (Hidx : 0 <= 5) by lia.
  do 2 (split; [assumption|]).
  exact (get_translated_text_from_json bubbles (Some (lit " viejo ")) 5 Hne Hidx).
Defined.

End LayoutExtras.

(* ===================================================================== *)
(** * Further properties of the grouping code *)
(* ===================================================================== *)

Module BoundsExtras.
Import Py VisualizeBounds BoundsProofs.

(** ** Errors of the bounding boxes *)

Lemma bounding_box_raises bubble e :
  bounding_box bubble = inl e -> bubble = [] /\ e = ValueError.
Proof.
  destruct bubble as [|r bubble].
  - simpl. intros [= <-]. auto.
  - intros He. destruct (bounding_box_returns (r :: bubble)) as [b Hb]; [discriminate|].
    congruence.
Qed.

Lemma bounding_boxes_raises groups e :
  bounding_boxes groups = inl e <-> e = ValueError /\ In [] groups.
Proof.
  induction groups as [|g groups IH]; simpl.
  - split; [discriminate | intros [_ []]].
  - destruct (bounding_box g) as [e'|b] eqn:Eb; simpl.
    + destruct (bounding_box_raises _ _ Eb) as [-> ->]. split.
      * intros [= <-]. auto.
      * intros [-> _]. reflexivity.
    + pose proof (bounding_box_nonempty _ _ Eb) as Hg.
      destruct (bounding_boxes groups) as [e'|bs]; simpl.
      * split.
        -- intros [= <-]. destruct (proj1 IH eq_refl) as [-> Hin]. auto.
        -- intros [-> [Hin|Hin]]; [congruence|].
           f_equal. symmetry.
           assert (Hx : inl e' = @inl exn (list box) ValueError)
             by (apply IH; auto).
           congruence.
      * split; [discriminate|].
        intros [-> [Hin|Hin]]; [congruence|].
        assert (Hx : @inr exn (list box) bs = inl ValueError) by (apply IH; auto).
        discriminate.
Qed.

Lemma bounding_boxes_nonempty groups boxes :
  bounding_boxes groups = inr boxes -> Forall (fun g => g <> []) groups.
Proof.
  intros Hb. apply Forall_forall. intros g Hg ->.
  apply list_elem_of_In in Hg.
  assert (Hx : bounding_boxes groups = inl ValueError)
    by (apply bounding_boxes_raises; auto).
  congruence.
Qed.

(** ** The merger *)

Lemma contents_nonempty st l :
  Forall (fun g => members st !!! g <> []) (lists st !!! l) ->
  Forall (fun g => g <> []) (contents st l).
Proof. intros Hne. unfold contents, deref. apply Forall_map. exact Hne. Qed.

(** X13. The merger is idempotent: applied to the list it has just
    merged, it returns it again and writes nothing. *)
Theorem merge_overlapping_bubbles_idempotent bubble_groups st st' :
  NoDup (lists st !!! bubble_groups) ->
  Forall (fun g => members st !!! g <> []) (lists st !!! bubble_groups) ->
  merge_overlapping_bubbles bubble_groups st = inr (bubble_groups, st') ->
  merge_overlapping_bubbles bubble_groups st' = inr (bubble_groups, st').
Proof.
  intros Hnd Hne Hrun.
  destruct (merge_store_simulation _ _ Hnd Hne) as (st'' & Hrun' & Hsim & Hsub & _).
  assert (st'' = st') by congruence. subst st''.
  destruct (merge_groups_spec _ (contents_nonempty _ _ Hne))
    as (merged & boxes & Hm & Hboxes & Hdis & _).
  assert (merged = contents st' bubble_groups) by congruence. subst merged.
  apply (merge_store_disjoint _ _ boxes); [|exact Hboxes|exact Hdis].
  eapply sublist_NoDup; eassumption.
Qed.

Lemma merge_loop_shrinks groups :
  boxes_ok groups ->
  (length (merge_loop groups) <= length groups)%nat
  /\ (length (merge_loop groups) = length groups -> disjoint_pairs groups).
Proof.
  funelim (merge_loop groups); intros Hok.
  - destruct (pass_spec _ _ _ e Hok) as (Hok' & _ & _).
    destruct (H Hok') as [Hle _].
    pose proof (pass_length groups) as [_ Hlt]. rewrite e in Hlt. simpl in Hlt.
    specialize (Hlt eq_refl). split; lia.
  - destruct (pass_spec _ _ _ e Hok) as (_ & _ & Hstay).
    destruct (Hstay eq_refl) as (-> & Hdis). split; [lia | intros _; exact Hdis].
Qed.

(** X14. The merger never adds a group, and it leaves the store as it
    is exactly when no two bounding boxes overlap; as soon as two of
    them overlap, the list loses a group. *)
Theorem merge_overlapping_bubbles_changes bubble_groups st st' boxes :
  NoDup (lists st !!! bubble_groups) ->
  Forall (fun g => members st !!! g <> []) (lists st !!! bubble_groups) ->
  bounding_boxes (contents st bubble_groups) = inr boxes ->
  merge_overlapping_bubbles bubble_groups st = inr (bubble_groups, st') ->
  (length (contents st' bubble_groups) <= length (contents st bubble_groups))%nat
  /\ (pairwise_disjoint boxes <-> st' = st)
  /\ (pairwise_disjoint boxes
      <-> length (contents st' bubble_groups) = length (contents st bubble_groups)).
Proof.
  intros Hnd Hne Hboxes Hrun.
  destruct (merge_store_simulation _ _ Hnd Hne) as (st'' & Hrun' & Hsim & Hsub & _).
  assert (st'' = st') by congruence. subst st''.
  assert (Hstay : pairwise_disjoint boxes -> st' = st).
  { intros Hdis. pose proof (merge_store_disjoint _ _ _ Hnd Hboxes Hdis). congruence. }
  assert (Hlen : (length (contents st' bubble_groups)
                  <= length (contents st bubble_groups))%nat).
  { unfold contents. rewrite !deref_length. apply sublist_length, Hsub. }
  assert (Hsame : length (contents st' bubble_groups) = length (contents st bubble_groups)
                  -> pairwise_disjoint boxes).
  { intros Heq. unfold merge_groups in Hsim.
    destruct (bounding_boxes_zip _ _ Hboxes) as [Hbl Hok].
    destruct (length (contents st bubble_groups) <=? 1)%nat eqn:Elen.
    - apply Nat.leb_le in Elen. intros i j bi bj Hij Hi Hj.
      apply lookup_lt_Some in Hi, Hj. lia.
    - rewrite Hboxes in Hsim. cbn [Py.bind] in Hsim. injection Hsim as Hsim.
      destruct (merge_loop_shrinks _ Hok) as [_ Hdis].
      rewrite <- Hsim, length_map in Heq.
      assert (Hz : length (zip (contents st bubble_groups) boxes)
                   = length (contents st bubble_groups))
        by (rewrite length_zip; lia).
      specialize (Hdis ltac:(etransitivity; [exact Heq | symmetry; exact Hz])).
      apply disjoint_pairs_boxes in Hdis.
      change (map snd (zip (contents st bubble_groups) boxes))
        with ((zip (contents st bubble_groups) boxes).*2) in Hdis.
      rewrite snd_zip in Hdis by lia. exact Hdis. }
  split; [exact Hlen|]. split; split.
  - exact Hstay.
  - intros ->. apply Hsame. reflexivity.
  - intros Hdis. rewrite (Hstay Hdis). reflexivity.
  - exact Hsame.
Qed.

(** X15. The merger raises exactly when the list has at least two
    groups and one of them is empty, and the error is then the
    [ValueError] of [min] on an empty sequence; a list of fewer than
    two groups is returned untouched, also when its group is empty:
    the call returns the reference it was given and leaves the store
    as it is. *)
Theorem merge_overlapping_bubbles_raises bubble_groups st :
  (forall e,
      merge_overlapping_bubbles bubble_groups st = inl e
      <-> e = ValueError
          /\ (2 <= length (lists st !!! bubble_groups))%nat
          /\ In [] (contents st bubble_groups))
  /\ ((length (lists st !!! bubble_groups) < 2)%nat ->
      merge_overlapping_bubbles bubble_groups st = inr (bubble_groups, st)).
Proof.
  unfold merge_overlapping_bubbles, contents.
  destruct (length (lists st !!! bubble_groups) <=? 1)%nat eqn:Elen.
  - apply Nat.leb_le in Elen. split; [|reflexivity].
    intros e. split; [discriminate | intros (_ & Hlen & _); lia].
  - apply Nat.leb_gt in Elen. split; [|intros Hlen; lia].
    intros e.
    destruct (bounding_boxes (deref (members st) (lists st !!! bubble_groups)))
      as [e'|boxes] eqn:Eb; cbn [Py.bind].
    + apply bounding_boxes_raises in Eb as [-> Hin]. split.
      * intros [= <-]. split; [reflexivity|]. split; [lia | exact Hin].
      * intros (-> & _). reflexivity.
    + destruct (merge_loop_in _ _) as [m' groups']. split; [discriminate|].
      intros (-> & _ & Hin).
      assert (Hx : bounding_boxes (deref (members st) (lists st !!! bubble_groups))
                   = inl ValueError) by (apply bounding_boxes_raises; auto).
      congruence.
Qed.

(** The working list [groups] read as concatenations of earlier groups. *)
Lemma absorb_parts rest : forall group_i box_i part_i parts gi kept merged,
  absorb group_i box_i rest = (gi, kept, merged) ->
  group_i = concat part_i -> part_i <> [] ->
  map fst rest = map (@concat Region.t) parts ->
  Forall (fun part => part <> []) parts ->
  exists part_i' parts',
    fst gi = concat part_i' /\ part_i' <> []
    /\ map fst kept = map (@concat Region.t) parts'
    /\ Forall (fun part => part <> []) parts'
    /\ Permutation (concat (part_i' :: parts')) (concat (part_i :: parts)).
Proof.
  induction rest as [|[gj bj] rest IH];
    intros group_i box_i part_i parts gi kept merged Hrun Hi Hne Hrest Hparts.
  - simpl in Hrun. injection Hrun as <- <- <-.
    destruct parts; [|discriminate].
    exists part_i, []. repeat split; auto.
  - destruct parts as [|part_j parts]; [discriminate|].
    simpl in Hrest. injection Hrest as Hj Hrest.
    inversion Hparts as [|? ? Hnej Hparts']; subst.
    simpl in Hrun. destruct (overlap box_i bj).
    + destruct (absorb (concat part_i ++ concat part_j) (union_box box_i bj) rest)
        as [[g k] m] eqn:Ea.
      injection Hrun as <- <- <-.
      destruct (IH _ _ (part_i ++ part_j) parts _ _ _ Ea)
        as (pi' & ps' & H1 & H2 & H3 & H4 & H5); auto.
      * rewrite concat_app. reflexivity.
      * destruct part_i; [congruence | discriminate].
      * exists pi', ps'. repeat split; auto.
        rewrite H5. simpl. rewrite app_assoc. reflexivity.
    + destruct (absorb (concat part_i) box_i rest) as [[g k] m] eqn:Ea.
      injection Hrun as <- <- <-.
      destruct (IH _ _ part_i parts _ _ _ Ea)
        as (pi' & ps' & H1 & H2 & H3 & H4 & H5); auto.
      exists pi', (part_j :: ps'). simpl. repeat split; auto.
      * rewrite H3. reflexivity.
      * simpl in H5. rewrite !app_assoc.
        rewrite (Permutation_app_comm pi' part_j), <- !app_assoc.
        rewrite H5.
        rewrite !app_assoc. apply Permutation_app_tail, Permutation_app_comm.
Qed.

Lemma pass_parts groups : forall parts groups' merged,
  pass groups = (groups', merged) ->
  map fst groups = map (@concat Region.t) parts ->
  Forall (fun part => part <> []) parts ->
  exists parts',
    map fst groups' = map (@concat Region.t) parts'
    /\ Forall (fun part => part <> []) parts'
    /\ Permutation (concat parts') (concat parts).
Proof.
  induction groups as [|[gi bi] rest IH]; intros parts groups' merged Hrun Hg Hparts.
  - simpl in Hrun. injection Hrun as <- <-. exists parts. auto.
  - destruct parts as [|part_i parts]; [discriminate|].
    simpl in Hg. injection Hg as Hi Hrest.
    inversion Hparts as [|? ? Hne Hparts']; subst.
    simpl in Hrun.
    destruct (absorb (concat part_i) bi rest) as [[g kept] m] eqn:Ea.
    destruct m.
    + injection Hrun as <- <-.
      destruct (absorb_parts _ _ _ part_i parts _ _ _ Ea)
        as (pi' & ps' & H1 & H2 & H3 & H4 & H5); auto.
      exists (pi' :: ps'). simpl. rewrite H1, H3. auto.
    + destruct (pass rest) as [rest' m'] eqn:Ep. injection Hrun as <- <-.
      destruct (IH parts _ _ eq_refl Hrest Hparts') as (ps' & H1 & H2 & H3).
      exists (part_i :: ps'). simpl. rewrite H1.
      repeat split; auto. rewrite H3. reflexivity.
Qed.

Lemma merge_loop_parts groups : forall parts,
  map fst groups = map (@concat Region.t) parts ->
  Forall (fun part => part <> []) parts ->
  exists parts',
    map fst (merge_loop groups) = map (@concat Region.t) parts'
    /\ Forall (fun part => part <> []) parts'
    /\ Permutation (concat parts') (concat parts).
Proof.
  funelim (merge_loop groups); intros parts Hg Hparts.
  - destruct (pass_parts _ _ _ _ e Hg Hparts) as (ps1 & H1 & H2 & H3).
    destruct (H ps1 H1 H2) as (ps2 & H4 & H5 & H6).
    exists ps2. repeat split; auto. rewrite H6. exact H3.
  - destruct (pass_parts _ _ _ _ e Hg Hparts) as (ps1 & H1 & H2 & H3).
    exists ps1. auto.
Qed.

Lemma merge_groups_regrouped groups merged :
  merge_groups groups = inr merged -> regrouped groups merged.
Proof.
  assert (Hself : forall gs : list (list Region.t),
             gs = map (@concat Region.t) (map (fun g => [g]) gs)
             /\ concat (map (fun g => [g]) gs) = gs
             /\ Forall (fun part : list (list Region.t) => part <> [])
                       (map (fun g => [g]) gs)).
  { induction gs as [|g gs (IH1 & IH2 & IH3)]; simpl; [repeat split; constructor|].
    rewrite app_nil_r, <- IH1, IH2. repeat split.
    constructor; [discriminate | exact IH3]. }
  unfold merge_groups. destruct (length groups <=? 1)%nat.
  - intros [= <-]. destruct (Hself groups) as (H1 & H2 & H3).
    exists (map (fun g => [g]) groups). rewrite H2. auto.
  - destruct (bounding_boxes groups) as [e|boxes] eqn:Eb; cbn [Py.bind]; [discriminate|].
    intros [= <-]. destruct (bounding_boxes_zip _ _ Eb) as [Hlen _].
    destruct (Hself groups) as (H1 & H2 & H3).
    destruct (merge_loop_parts (zip groups boxes) (map (fun g => [g]) groups))
      as (ps & H4 & H5 & H6); [|exact H3|].
    + change (map fst (zip groups boxes)) with ((zip groups boxes).*1).
      rewrite fst_zip by lia. exact H1.
    + exists ps. rewrite H2 in H6. auto.
Qed.

(** X27. The merger never splits a group: every group of the list after
    the call is the concatenation of one or more whole groups of the
    list before the call, and every earlier group is used exactly
    once. *)
Theorem merge_overlapping_bubbles_regroups bubble_groups st st' :
  NoDup (lists st !!! bubble_groups) ->
  Forall (fun g => members st !!! g <> []) (lists st !!! bubble_groups) ->
  merge_overlapping_bubbles bubble_groups st = inr (bubble_groups, st') ->
  regrouped (contents st bubble_groups) (contents st' bubble_groups).
Proof.
  intros Hnd Hne Hrun.
  destruct (merge_store_simulation _ _ Hnd Hne) as (st'' & Hrun' & Hsim & _).
  assert (st'' = st') by congruence. subst st''.
  apply merge_groups_regrouped, Hsim.
Qed.

(** ** The clusterer *)

(** The first members of the groups of a dict, in the order of the dict. *)
Lemma dict_append_members label region d processed :
  Forall (fun e => snd e <> [] /\ snd e `sublist_of` processed) d ->
  Forall (fun e => snd e <> [] /\ snd e `sublist_of` processed ++ [region])
         (dict_append label region d).
Proof.
  induction d as [|[k members] d IH]; intros Hd; simpl.
  - constructor; [|constructor]. split; [discriminate|].
    apply sublist_inserts_l. reflexivity.
  - inversion Hd as [|? ? [Hne Hsub] Hd']; subst. simpl in Hne, Hsub.
    destruct (k =? label).
    + constructor.
      * simpl. split; [destruct members; discriminate|].
        apply sublist_app; [exact Hsub | reflexivity].
      * eapply Forall_impl; [exact Hd'|]. intros e [He1 He2].
        split; [exact He1 | apply sublist_inserts_r, He2].
    + constructor; [|apply IH, Hd'].
      simpl. split; [exact Hne | apply sublist_inserts_r, Hsub].
Qed.

Lemma dict_append_heads label region d : forall before processed,
  Forall (fun e => snd e <> []) d ->
  before ++ concat (map (fun e => take 1 (snd e)) d) `sublist_of` processed ->
  before ++ concat (map (fun e => take 1 (snd e)) (dict_append label region d))
  `sublist_of` processed ++ [region].
Proof.
  induction d as [|[k members] d IH]; intros before processed Hd Hheads; simpl.
  - simpl in Hheads. rewrite app_nil_r in Hheads.
    apply sublist_app; [exact Hheads | reflexivity].
  - inversion Hd as [|? ? Hne Hd']; subst. simpl in Hne, Hheads.
    destruct members as [|r members]; [congruence|].
    destruct (k =? label); simpl.
    + apply sublist_inserts_r. exact Hheads.
    + simpl in Hheads.
      change (before ++ r :: ?l) with (before ++ [r] ++ l).
      rewrite app_assoc. apply IH; [exact Hd'|].
      rewrite <- app_assoc. exact Hheads.
Qed.

Lemma fold_dict_append_order pairs : forall d processed,
  Forall (fun e => snd e <> [] /\ snd e `sublist_of` processed) d ->
  concat (map (fun e => take 1 (snd e)) d) `sublist_of` processed ->
  let d' := fold_left (fun d lr => dict_append (fst lr) (snd lr) d) pairs d in
  Forall (fun e => snd e <> [] /\ snd e `sublist_of` processed ++ map snd pairs) d'
  /\ concat (map (fun e => take 1 (snd e)) d') `sublist_of` processed ++ map snd pairs.
Proof.
  induction pairs as [|[label region] pairs IH]; intros d processed Hd Hheads; simpl.
  - rewrite app_nil_r. auto.
  - change (processed ++ region :: map snd pairs)
      with (processed ++ [region] ++ map snd pairs).
    rewrite app_assoc. apply IH.
    + apply dict_append_members, Hd.
    + apply (dict_append_heads label region d []); [|exact Hheads].
      eapply Forall_impl; [exact Hd|]. intros e [He _]. exact He.
Qed.

(** X16. The clusterer keeps the reading order of its input: the
    members of every group are in the order of the input list, and the
    groups are in the order of their first members. *)
Theorem cluster_keeps_input_order regions eps vertical_weight horizontal_penalty groups :
  group_text_regions_by_distance regions eps vertical_weight horizontal_penalty
  = inr groups ->
  Forall (fun group => group `sublist_of` regions) groups
  /\ concat (map (take 1) groups) `sublist_of` regions.
Proof.
  unfold group_text_regions_by_distance.
  destruct regions as [|r regions].
  - intros [= <-]. split; [constructor | reflexivity].
  - set (rs := r :: regions).
    destruct (dbscan_labels eps _) as [e|labels] eqn:El; [discriminate|].
    cbn [Py.bind]. intros [= <-].
    apply dbscan_labels_length in El. rewrite length_map in El.
    destruct (fold_dict_append_order (zip labels rs) [] [])
      as [Hmembers Hheads]; [constructor | reflexivity |].
    change (map snd (zip labels rs)) with ((zip labels rs).*2) in *.
    rewrite snd_zip in Hmembers, Hheads by lia. simpl in Hmembers, Hheads.
    unfold group_by_label. split.
    + apply Forall_map. eapply Forall_impl; [exact Hmembers|].
      intros e [_ He]. exact He.
    + rewrite map_map. exact Hheads.
Qed.

(** X17. An empty list of regions gives an empty list of groups without
    DBSCAN being called (so also for a radius that it would reject),
    and a single region gives one group holding it. *)
Theorem cluster_small_inputs eps vertical_weight horizontal_penalty :
  group_text_regions_by_distance [] eps vertical_weight horizontal_penalty = inr []
  /\ ((0 < eps)%Q ->
      forall region,
        group_text_regions_by_distance [region] eps vertical_weight horizontal_penalty
        = inr [[region]]).
Proof.
  split; [reflexivity|].
  intros Heps region. unfold group_text_regions_by_distance, dbscan_labels.
  assert (E : Qle_bool eps 0 = false).
  { destruct (Qle_bool eps 0) eqn:E; [|reflexivity].
    apply Qle_bool_iff in E. exfalso. apply (Qlt_not_le _ _ Heps E). }
  rewrite E. reflexivity.
Qed.

(** ** The prioritiser *)

Lemma insert_sorted_perm pivot sorted sorted' :
  insert_sorted pivot sorted = inr sorted' -> Permutation sorted' (pivot :: sorted).
Proof.
  revert sorted'. induction sorted as [|a rest IH]; intros sorted'; simpl.
  - intros [= <-]. reflexivity.
  - destruct (tuple_lt pivot a) as [e|[|]]; simpl; [discriminate| |].
    + intros [= <-]. reflexivity.
    + destruct (insert_sorted pivot rest) as [e|rest'] eqn:Er; simpl; [discriminate|].
      intros [= <-]. rewrite (IH rest' eq_refl). apply perm_swap.
Qed.

Lemma sort_from_perm todo : forall sorted sorted',
  sort_from sorted todo = inr sorted' -> Permutation sorted' (sorted ++ todo).
Proof.
  induction todo as [|pivot todo IH]; intros sorted sorted'; simpl.
  - intros [= <-]. rewrite app_nil_r. reflexivity.
  - destruct (insert_sorted pivot sorted) as [e|s1] eqn:E1; simpl; [discriminate|].
    intros Hrun. rewrite (IH _ _ Hrun), (insert_sorted_perm _ _ _ E1).
    simpl. apply Permutation_middle.
Qed.

Lemma sort_reverse_perm l sorted :
  sort_reverse l = inr sorted -> Permutation sorted l.
Proof.
  unfold sort_reverse.
  destruct (sort_from [] (rev l)) as [e|s] eqn:E; simpl; [discriminate|].
  intros [= <-]. rewrite <- Permutation_rev, (sort_from_perm _ _ _ E). simpl.
  symmetry. apply Permutation_rev.
Qed.

Lemma bubble_areas_groups groups areas :
  bubble_areas groups = inr areas -> map snd areas = groups.
Proof.
  revert areas. induction groups as [|g groups IH]; intros areas; simpl.
  - intros [= <-]. reflexivity.
  - destruct (bounding_box g) as [e|b]; simpl; [discriminate|].
    destruct (bubble_areas groups) as [e|rest]; simpl; [discriminate|].
    intros [= <-]. simpl. rewrite (IH rest eq_refl). reflexivity.
Qed.

Lemma sublist_map {A B} (f : A -> B) (l k : list A) :
  l `sublist_of` k -> map f l `sublist_of` map f k.
Proof. induction 1; simpl; constructor; assumption. Qed.

Lemma slice_to_sublist {A} (l : list A) stop : slice_to l stop `sublist_of` l.
Proof. unfold slice_to. destruct (stop <? 0); apply sublist_take. Qed.

Lemma slice_to_length {A} (l : list A) stop :
  Z.of_nat (length (slice_to l stop))
  = if stop <? 0 then Z.max 0 (Z.of_nat (length l) + stop)
    else Z.min stop (Z.of_nat (length l)).
Proof.
  unfold slice_to. destruct (stop <? 0) eqn:E; rewrite length_take.
  - apply Z.ltb_lt in E. lia.
  - apply Z.ltb_ge in E. lia.
Qed.

(** What the prioritiser returns, when it returns. *)
Lemma prioritize_kept bubble_groups max_bubbles kept :
  filter_and_prioritize_bubbles bubble_groups max_bubbles = inr kept ->
  kept ⊆+ bubble_groups
  /\ Z.of_nat (length kept)
     = if Z.of_nat (length bubble_groups) <=? max_bubbles
       then Z.of_nat (length bubble_groups)
       else if max_bubbles <? 0
            then Z.max 0 (Z.of_nat (length bubble_groups) + max_bubbles)
            else max_bubbles.
Proof.
  unfold filter_and_prioritize_bubbles.
  destruct bubble_groups as [|g groups].
  - intros [= <-]. split; [reflexivity|].
    change (Z.of_nat (length (@nil (list Region.t)))) with 0.
    destruct (0 <=? max_bubbles) eqn:E; [reflexivity|].
    apply Z.leb_gt in E.
    assert (En : (max_bubbles <? 0) = true) by (apply Z.ltb_lt; exact E).
    rewrite En. lia.
  - set (gs := g :: groups).
    destruct (Z.of_nat (length gs) <=? max_bubbles) eqn:Elen.
    + intros [= <-]. split; reflexivity.
    + destruct (bubble_areas gs) as [e|areas] eqn:Ea; simpl; [discriminate|].
      destruct (sort_reverse areas) as [e|sorted] eqn:Es; simpl; [discriminate|].
      intros [= <-].
      apply sort_reverse_perm in Es. apply bubble_areas_groups in Ea.
      assert (Hlen : length sorted = length gs).
      { rewrite (Permutation_length Es), <- Ea, length_map. reflexivity. }
      split.
      * rewrite <- Ea, <- Es.
        apply sublist_submseteq, sublist_map, slice_to_sublist.
      * rewrite length_map, slice_to_length, Hlen.
        apply Z.leb_gt in Elen.
        destruct (max_bubbles <? 0) eqn:En.
        -- reflexivity.
        -- apply Z.ltb_ge in En. lia.
Qed.

(** X18. Whenever the prioritiser returns, the groups it returns are
    groups of its input, each taken at most as often as it occurs
    there; with a non-negative [max_bubbles] there are at most
    [max_bubbles] of them, and with a negative [max_bubbles] (the
    slice [[:max_bubbles]]) there are [len(bubble_groups) + max_bubbles]
    of them, or none when that is negative. *)
Theorem prioritize_returns_input_groups bubble_groups max_bubbles kept :
  filter_and_prioritize_bubbles bubble_groups max_bubbles = inr kept ->
  kept ⊆+ bubble_groups
  /\ (0 <= max_bubbles -> Z.of_nat (length kept) <= max_bubbles)
  /\ (max_bubbles < 0 ->
      Z.of_nat (length kept) = Z.max 0 (Z.of_nat (length bubble_groups) + max_bubbles)).
Proof.
  intros Hrun. destruct (prioritize_kept _ _ _ Hrun) as [Hsub Hlen].
  split; [exact Hsub|]. split.
  - intros Hmax. rewrite Hlen.
    destruct (Z.of_nat (length bubble_groups) <=? max_bubbles) eqn:E.
    + apply Z.leb_le in E. exact E.
    + assert (En : (max_bubbles <? 0) = false) by (apply Z.ltb_ge; lia).
      rewrite En. lia.
  - intros Hmax. rewrite Hlen.
    destruct (Z.of_nat (length bubble_groups) <=? max_bubbles) eqn:E.
    + apply Z.leb_le in E. lia.
    + assert (En : (max_bubbles <? 0) = true) by (apply Z.ltb_lt; lia).
      rewrite En. reflexivity.
Qed.

(** X19. When the areas of the groups are pairwise different and
    [0 <= max_bubbles < len(bubble_groups)], the prioritiser returns
    exactly [max_bubbles] groups, in strictly descending order of area,
    and every group it drops has a smaller area than every group it
    keeps. *)
Theorem prioritize_keeps_largest bubble_groups max_bubbles areas :
  0 <= max_bubbles < Z.of_nat (length bubble_groups) ->
  bubble_areas bubble_groups = inr areas ->
  NoDup (map fst areas) ->
  exists kept dropped,
    filter_and_prioritize_bubbles bubble_groups max_bubbles = inr (map snd kept)
    /\ Permutation (kept ++ dropped) areas
    /\ Z.of_nat (length kept) = max_bubbles
    /\ StronglySorted (fun a b => by_area b a) kept
    /\ (forall a b, In a kept -> In b dropped -> fst b < fst a).
Proof.
  intros Hmax Hareas Hnd.
  destruct (prioritize_distinct_areas _ _ _ Hmax Hareas Hnd)
    as (sorted & Hrun & Hperm & Hsorted).
  assert (Hlen : length sorted = length bubble_groups).
  { rewrite (Permutation_length Hperm), <- (bubble_areas_groups _ _ Hareas), length_map.
    reflexivity. }
  assert (Hslice : slice_to sorted max_bubbles = take (Z.to_nat max_bubbles) sorted).
  { unfold slice_to. assert (E : (max_bubbles <? 0) = false) by (apply Z.ltb_ge; lia).
    rewrite E. reflexivity. }
  rewrite Hslice in Hrun.
  exists (take (Z.to_nat max_bubbles) sorted), (drop (Z.to_nat max_bubbles) sorted).
  rewrite <- (take_drop (Z.to_nat max_bubbles) sorted) in Hsorted.
  apply StronglySorted_app in Hsorted as (Hcross & Hkept & _).
  split; [exact Hrun|]. split; [rewrite take_drop; exact Hperm|].
  split; [rewrite length_take; lia|]. split; [exact Hkept|].
  intros a b Ha Hb. apply Hcross; apply list_elem_of_In; assumption.
Qed.

(** ** The records *)

Lemma append_bubbles_raises bubble_groups : forall i bubbles e,
  append_bubbles i bubble_groups bubbles = inl e <-> e = ValueError /\ In [] bubble_groups.
Proof.
  induction bubble_groups as [|g groups IH]; intros i bubbles e; simpl.
  - split; [discriminate | intros [_ []]].
  - destruct (bounding_box g) as [e'|[[[x0 y0] x1] y1]] eqn:Eb; cbn [Py.bind].
    + destruct (bounding_box_raises _ _ Eb) as [-> ->]. split.
      * intros [= <-]. auto.
      * intros [-> _]. reflexivity.
    + pose proof (bounding_box_nonempty _ _ Eb) as Hg.
      rewrite IH. split.
      * intros [-> Hin]. auto.
      * intros [-> [Hin|Hin]]; [congruence | auto].
Qed.

(** X20. Building the records fails exactly when some group is empty,
    with the [ValueError] of [min] on an empty sequence. *)
Theorem save_final_bounds_raises bubble_groups e :
  save_final_bounds bubble_groups = inl e <-> e = ValueError /\ In [] bubble_groups.
Proof. apply append_bubbles_raises. Qed.

Lemma append_bubbles_boxes bubble_groups : forall i bubbles out,
  append_bubbles i bubble_groups bubbles = inr out ->
  exists records,
    out = bubbles ++ records
    /\ bounding_boxes bubble_groups = inr (map bubble_box records)
    /\ map Bubble.text_regions records = bubble_groups
    /\ forall k record, records !! k = Some record ->
                        Bubble.bubble_number record = i + Z.of_nat k + 1.
Proof.
  induction bubble_groups as [|g groups IH]; intros i bubbles out; simpl.
  - intros [= <-]. exists []. rewrite app_nil_r.
    repeat split. intros k record Hk. discriminate.
  - destruct (bounding_box g) as [e'|[[[x0 y0] x1] y1]] eqn:Eb; cbn [Py.bind];
      [discriminate|].
    intros Hrun. destruct (IH _ _ _ Hrun) as (records & -> & Hboxes & Hregions & Hnum).
    eexists (_ :: records). rewrite <- app_assoc. split; [reflexivity|].
    rewrite Hboxes. cbn [Py.bind]. split; [|split].
    + unfold ret, bubble_box. simpl. do 2 f_equal. f_equal; [f_equal|]; lia.
    + simpl. rewrite Hregions. reflexivity.
    + intros [|k] record Hk; simpl in Hk.
      * injection Hk as <-. simpl. lia.
      * rewrite (Hnum k record Hk). lia.
Qed.

(** ** From the regions of an image to its records *)

Lemma ordered_pairs_perm {A} (R : A -> A -> Prop) (l l' : list A) :
  (forall a b, R a b -> R b a) ->
  Permutation l l' -> ForallOrdPairs R l -> ForallOrdPairs R l'.
Proof.
  intros Hsym. induction 1 as [|x l l' Hp IH|x y l|l l' l'' _ IH1 _ IH2]; intros Hl.
  - constructor.
  - inversion Hl; subst. constructor; [|auto].
    eapply Permutation_Forall; eassumption.
  - inversion Hl as [|? ? Hy Hl']; subst. inversion Hl' as [|? ? Hx Hl'']; subst.
    inversion Hy as [|? ? Hyx Hyl]; subst.
    constructor; [constructor; [apply Hsym, Hyx | exact Hx]|].
    constructor; assumption.
  - auto.
Qed.

Lemma ordered_pairs_app_l {A} (R : A -> A -> Prop) (l k : list A) :
  ForallOrdPairs R (l ++ k) -> ForallOrdPairs R l.
Proof.
  induction l as [|x l IH]; simpl; intros Hl; [constructor|].
  inversion Hl as [|? ? Hx Hl']; subst. constructor; [|auto].
  apply Forall_app in Hx. tauto.
Qed.

Lemma disjoint_pairs_apart groups :
  boxes_ok groups -> disjoint_pairs groups -> ForallOrdPairs apart (map fst groups).
Proof.
  unfold disjoint_pairs. induction 1 as [|[g b] groups Hg Hok IH]; intros Hdis; simpl.
  - constructor.
  - inversion Hdis as [|? ? Hb Hdis']; subst. constructor; [|auto].
    apply Forall_map. rewrite Forall_forall in Hb, Hok. apply Forall_forall.
    intros [g' b'] Hin b1 b2 H1 H2. simpl in *.
    specialize (Hb _ Hin). specialize (Hok _ Hin). simpl in *. congruence.
Qed.

Lemma apart_disjoint_pairs groups :
  boxes_ok groups -> ForallOrdPairs apart (map fst groups) -> disjoint_pairs groups.
Proof.
  unfold disjoint_pairs. induction 1 as [|[g b] groups Hg Hok IH]; simpl; intros Hap.
  - constructor.
  - inversion Hap as [|? ? Hb Hap']; subst. constructor; [|auto].
    rewrite Forall_forall in Hb. rewrite Forall_forall in Hok. apply Forall_forall.
    intros [g' b'] Hin. simpl in *.
    apply (Hb g'); [|exact Hg|exact (Hok _ Hin)].
    apply list_elem_of_In, in_map_iff. exists (g', b'). split; [reflexivity|].
    apply list_elem_of_In, Hin.
Qed.

Lemma cluster_then_merge regions :
  exists groups st' boxes,
    group_text_regions_by_distance regions
      CLUSTERING_EPS VERTICAL_WEIGHT HORIZONTAL_PENALTY = inr groups
    /\ merge_overlapping_bubbles 0%nat (fresh_store groups) = inr (0%nat, st')
    /\ bounding_boxes (contents st' 0%nat) = inr boxes
    /\ pairwise_disjoint boxes
    /\ Permutation (concat (contents st' 0%nat)) regions.
Proof.
  assert (Heps : (0 < CLUSTERING_EPS)%Q) by reflexivity.
  destruct (cluster_partition regions _ VERTICAL_WEIGHT HORIZONTAL_PENALTY Heps)
    as (groups & Hrun & Hne & Hperm).
  destruct (merge_groups_spec groups Hne)
    as (merged & boxes & Hmerge & Hboxes & Hdis & Hperm').
  destruct (merge_store_simulation 0%nat (fresh_store groups)) as (st' & Hst & Hval & _).
  - rewrite fresh_store_lists. apply NoDup_seq.
  - rewrite <- (fresh_store_contents groups) in Hne. unfold contents, deref in Hne.
    apply Forall_forall. intros g Hg. rewrite Forall_forall in Hne.
    apply Hne. exact (list_elem_of_fmap_2 _ _ g Hg).
  - rewrite fresh_store_contents, Hmerge in Hval. injection Hval as ->.
    exists groups, st', boxes. repeat split; try assumption.
    rewrite Hperm'. exact Hperm.
Qed.

Lemma concat_submseteq {A} (l k : list (list A)) : l ⊆+ k -> concat l ⊆+ concat k.
Proof.
  intros Hsub. apply submseteq_Permutation in Hsub as [rest Hk].
  rewrite Hk, concat_app. apply submseteq_inserts_r. reflexivity.
Qed.

(** X21. From the regions of an image to its bubble records: an image
    without regions gives no file; otherwise, whenever the records are
    built, there are one or two of them, numbered from 1, each on a
    non-empty group of the regions with the bounding box of that group
    as its rectangle; no region is in two records or twice in one
    beyond its occurrences in the input; and the rectangles of the
    records do not overlap. *)
Theorem visualize_speech_bubbles_records regions bubbles :
  visualize_speech_bubbles regions = inr (Some bubbles) ->
  regions <> []
  /\ (1 <= length bubbles <= 2)%nat
  /\ (forall k record,
        bubbles !! k = Some record ->
        Bubble.bubble_number record = Z.of_nat k + 1
        /\ bounding_box (Bubble.text_regions record) = inr (bubble_box record))
  /\ concat (map Bubble.text_regions bubbles) ⊆+ regions
  /\ pairwise_disjoint (map bubble_box bubbles).
Proof.
  unfold visualize_speech_bubbles.
  destruct regions as [|r regions]; [discriminate|]. set (rs := r :: regions).
  destruct (cluster_then_merge rs) as (groups & st' & boxes & Hc & Hm & Hboxes & Hdis & Hperm).
  rewrite Hc. cbn [Py.bind]. rewrite Hm. cbn [Py.bind fst snd].
  destruct (filter_and_prioritize_bubbles (contents st' 0%nat) MAX_BUBBLES)
    as [e|kept] eqn:Ek; cbn [Py.bind]; [discriminate|].
  destruct (save_final_bounds kept) as [e|records] eqn:Es; cbn [Py.bind]; [discriminate|].
  intros [= <-].
  destruct (prioritize_kept _ _ _ Ek) as [Hsub Hlen].
  destruct (append_bubbles_boxes _ _ _ _ Es) as (records' & Heq & Hkb & Hregions & Hnum).
  simpl in Heq. subst records'.
  assert (Hrl : length records = length kept).
  { rewrite <- Hregions, length_map. reflexivity. }
  split; [discriminate|]. split; [|split; [|split]].
  - unfold MAX_BUBBLES in Hlen.
    assert (Hne : contents st' 0%nat <> []).
    { intros E. rewrite E in Hperm. simpl in Hperm.
      apply Permutation_nil in Hperm. discriminate. }
    destruct (Z.of_nat (length (contents st' 0%nat)) <=? 2) eqn:E.
    + apply Z.leb_le in E. destruct (contents st' 0%nat); [congruence|].
      simpl length in *. lia.
    + simpl in Hlen. lia.
  - intros k record Hk. split; [rewrite (Hnum k record Hk); lia|].
    destruct (bounding_boxes_zip _ _ Hkb) as [_ Hok].
    rewrite <- Hregions in Hok.
    unfold boxes_ok in Hok. rewrite Forall_forall in Hok.
    apply (Hok (Bubble.text_regions record, bubble_box record)).
    apply list_elem_of_lookup. exists k.
    rewrite lookup_zip_with.
    change (map ?f ?l) with (f <$> l). rewrite !list_lookup_fmap, Hk. reflexivity.
  - rewrite Hregions, <- Hperm. apply concat_submseteq, Hsub.
  - destruct (bounding_boxes_zip _ _ Hboxes) as [Hbl Hok].
    assert (Hpairs : disjoint_pairs (zip (contents st' 0%nat) boxes)).
    { apply boxes_disjoint_pairs.
      change (map snd (zip (contents st' 0%nat) boxes))
        with ((zip (contents st' 0%nat) boxes).*2).
      rewrite snd_zip by lia. exact Hdis. }
    pose proof (disjoint_pairs_apart _ Hok Hpairs) as Hap.
    change (map fst (zip (contents st' 0%nat) boxes))
      with ((zip (contents st' 0%nat) boxes).*1) in Hap.
    rewrite fst_zip in Hap by lia.
    apply submseteq_Permutation in Hsub as [rest Hrest].
    assert (Hkept : ForallOrdPairs apart kept).
    { apply (ordered_pairs_app_l _ _ rest).
      eapply ordered_pairs_perm; [|exact Hrest|exact Hap].
      intros a b Hab b2 b1 H2 H1. rewrite overlap_sym. apply Hab; assumption. }
    destruct (bounding_boxes_zip _ _ Hkb) as [Hkl Hkok].
    assert (Hfst : map fst (zip kept (map bubble_box records)) = kept).
    { change (map fst (zip kept (map bubble_box records)))
        with ((zip kept (map bubble_box records)).*1).
      apply fst_zip. lia. }
    rewrite <- Hfst in Hkept.
    pose proof (disjoint_pairs_boxes _ (apart_disjoint_pairs _ Hkok Hkept)) as Hres.
    change (map snd (zip kept (map bubble_box records)))
      with ((zip kept (map bubble_box records)).*2) in Hres.
    rewrite snd_zip in Hres by lia. exact Hres.
Qed.

(** ** Runs on the sample fragments *)

Lemma merge_overlapping_bubbles_idempotent_witness :
  let st := fresh_store [[frag_a]; [frag_b]; [frag_c]] in
  let st' := match merge_overlapping_bubbles 0%nat st with
             | inr merged => snd merged
             | inl _ => st
             end in
  NoDup (lists st !!! 0%nat)
  /\ Forall (fun g => members st !!! g <> []) (lists st !!! 0%nat)
  /\ merge_overlapping_bubbles 0%nat st = inr (0%nat, st')
  /\ contents st' 0%nat = [[frag_a; frag_b]; [frag_c]]
  /\ merge_overlapping_bubbles 0%nat st' = inr (0%nat, st').
Proof.
  intros st st'.
  assert (Hnd : NoDup (lists st !!! 0%nat)).
  { unfold st. rewrite fresh_store_lists. apply NoDup_seq. }
  assert (Hne : Forall (fun g => members st !!! g <> []) (lists st !!! 0%nat)).
  { unfold st. rewrite fresh_store_lists. simpl.
    repeat constructor; vm_compute; discriminate. }
  assert (Hrun : merge_overlapping_bubbles 0%nat st = inr (0%nat, st'))
    by (vm_compute; reflexivity).
  split; [exact Hnd|]. split; [exact Hne|]. split; [exact Hrun|].
  split; [vm_compute; reflexivity|].
  exact (merge_overlapping_bubbles_idempotent 0%nat st st' Hnd Hne Hrun).
Defined.

Lemma merge_overlapping_bubbles_regroups_witness :
  let st := fresh_store [[frag_a]; [frag_c]; [frag_b]] in
  let st' := match merge_overlapping_bubbles 0%nat st with
             | inr merged => snd merged
             | inl _ => st
             end in
  NoDup (lists st !!! 0%nat)
  /\ Forall (fun g => members st !!! g <> []) (lists st !!! 0%nat)
  /\ merge_overlapping_bubbles 0%nat st = inr (0%nat, st')
  /\ contents st' 0%nat = [[frag_a; frag_b]; [frag_c]]
  /\ regrouped (contents st 0%nat) (contents st' 0%nat).
Proof.
  intros st st'.
  assert (Hnd : NoDup (lists st !!! 0%nat)).
  { unfold st. rewrite fresh_store_lists. apply NoDup_seq. }
  assert (Hne : Forall (fun g => members st !!! g <> []) (lists st !!! 0%nat)).
  { unfold st. rewrite fresh_store_lists. simpl.
    repeat constructor; vm_compute; discriminate. }
  assert (Hrun : merge_overlapping_bubbles 0%nat st = inr (0%nat, st'))
    by (vm_compute; reflexivity).
  split; [exact Hnd|]. split; [exact Hne|]. split; [exact Hrun|].
  split; [vm_compute; reflexivity|].
  exact (merge_overlapping_bubbles_regroups 0%nat st st' Hnd Hne Hrun).
Defined.

Lemma merge_overlapping_bubbles_changes_witness :
  let st := fresh_store [[frag_a]; [frag_b]; [frag_c]] in
  let st' := match merge_overlapping_bubbles 0%nat st with
             | inr merged => snd merged
             | inl _ => st
             end in
  let boxes := [(0, 0, 10, 10); (5, 5, 105, 15); (900, 0, 910, 10)] in
  NoDup (lists st !!! 0%nat)
  /\ Forall (fun g => members st !!! g <> []) (lists st !!! 0%nat)
  /\ bounding_boxes (contents st 0%nat) = inr boxes
  /\ merge_overlapping_bubbles 0%nat st = inr (0%nat, st')
  /\ (length (contents st' 0%nat) <= length (contents st 0%nat))%nat
  /\ (pairwise_disjoint boxes <-> st' = st)
  /\ (pairwise_disjoint boxes
      <-> length (contents st' 0%nat) = length (contents st 0%nat)).
Proof.
  intros st st' boxes.
  assert (Hnd : NoDup (lists st !!! 0%nat)).
  { unfold st. rewrite fresh_store_lists. apply NoDup_seq. }
  assert (Hne : Forall (fun g => members st !!! g <> []) (lists st !!! 0%nat)).
  { unfold st. rewrite fresh_store_lists. simpl.
    repeat constructor; vm_compute; discriminate. }
  assert (Hboxes : bounding_boxes (contents st 0%nat) = inr boxes)
    by (vm_compute; reflexivity).
  assert (Hrun : merge_overlapping_bubbles 0%nat st = inr (0%nat, st'))
    by (vm_compute; reflexivity).
  split; [exact Hnd|]. split; [exact Hne|]. split; [exact Hboxes|].
  split; [exact Hrun|].
  exact (merge_overlapping_bubbles_changes 0%nat st st' boxes Hnd Hne Hboxes Hrun).
Defined.

Lemma merge_overlapping_bubbles_raises_witness :
  let st := fresh_store [[frag_a]; []] in
  let single := fresh_store [[]] in
  ((2 <= length (lists st !!! 0%nat))%nat
   /\ In [] (contents st 0%nat)
   /\ merge_overlapping_bubbles 0%nat st = inl ValueError)
  /\ ((length (lists single !!! 0%nat) < 2)%nat
      /\ contents single 0%nat = [[]]
      /\ merge_overlapping_bubbles 0%nat single = inr (0%nat, single)).
Proof.
  intros st single.
  assert (Hlen : (2 <= length (lists st !!! 0%nat))%nat).
  { unfold st. rewrite fresh_store_lists. simpl. lia. }
  assert (Hin : In [] (contents st 0%nat)).
  { unfold st. rewrite fresh_store_contents. simpl. auto. }
  assert (Hone : (length (lists single !!! 0%nat) < 2)%nat).
  { unfold single. rewrite fresh_store_lists. simpl. lia. }
  split.
  - split; [exact Hlen|]. split; [exact Hin|].
    exact (proj2 (proj1 (merge_overlapping_bubbles_raises 0%nat st) ValueError)
             (conj eq_refl (conj Hlen Hin))).
  - split; [exact Hone|]. split; [unfold single; apply fresh_store_contents|].
    exact (proj2 (merge_overlapping_bubbles_raises 0%nat single) Hone).
Defined.

Lemma cluster_keeps_input_order_witness :
  let regions := [frag_a; frag_c; frag_b] in
  let groups := [[frag_a; frag_b]; [frag_c]] in
  group_text_regions_by_distance regions
    CLUSTERING_EPS VERTICAL_WEIGHT HORIZONTAL_PENALTY = inr groups
  /\ Forall (fun group => group `sublist_of` regions) groups
  /\ concat (map (take 1) groups) `sublist_of` regions.
Proof.
  intros regions groups.
  assert (Hrun : group_text_regions_by_distance regions
                   CLUSTERING_EPS VERTICAL_WEIGHT HORIZONTAL_PENALTY = inr groups)
    by (vm_compute; reflexivity).
  split; [exact Hrun|].
  exact (cluster_keeps_input_order regions _ _ _ groups Hrun).
Defined.

Lemma cluster_small_inputs_witness :
  group_text_regions_by_distance [] CLUSTERING_EPS VERTICAL_WEIGHT HORIZONTAL_PENALTY
  = inr []
  /\ (0 < CLUSTERING_EPS)%Q
  /\ group_text_regions_by_distance [frag_a]
       CLUSTERING_EPS VERTICAL_WEIGHT HORIZONTAL_PENALTY = inr [[frag_a]].
Proof.
  pose proof (cluster_small_inputs CLUSTERING_EPS VERTICAL_WEIGHT HORIZONTAL_PENALTY)
    as [Hempty Hone].
  assert (Heps : (0 < CLUSTERING_EPS)%Q) by reflexivity.
  split; [exact Hempty|]. split; [exact Heps|]. exact (Hone Heps frag_a).
Defined.

Lemma prioritize_returns_input_groups_witness :
  let groups := [strip 0 10; strip 100 50; strip 200 30; strip 300 5; strip 400 80] in
  let kept := [strip 400 80; strip 100 50] in
  filter_and_prioritize_bubbles groups 2 = inr kept
  /\ kept ⊆+ groups
  /\ (0 <= 2 -> Z.of_nat (length kept) <= 2)
  /\ (2 < 0 -> Z.of_nat (length kept) = Z.max 0 (Z.of_nat (length groups) + 2)).
Proof.
  intros groups kept.
  assert (Hrun : filter_and_prioritize_bubbles groups 2 = inr kept)
    by (vm_compute; reflexivity).
  split; [exact Hrun|].
  exact (prioritize_returns_input_groups groups 2 kept Hrun).
Defined.

Lemma prioritize_keeps_largest_witness :
  let groups := [strip 0 10; strip 100 50; strip 200 30; strip 300 5; strip 400 80] in
  let areas := [(10, strip 0 10); (50, strip 100 50); (30, strip 200 30);
                (5, strip 300 5); (80, strip 400 80)] in
  0 <= 2 < Z.of_nat (length groups)
  /\ bubble_areas groups = inr areas
  /\ NoDup (map fst areas)
  /\ exists kept dropped,
       filter_and_prioritize_bubbles groups 2 = inr (map snd kept)
       /\ Permutation (kept ++ dropped) areas
       /\ Z.of_nat (length kept) = 2
       /\ StronglySorted (fun a b => by_area b a) kept
       /\ (forall a b, In a kept -> In b dropped -> fst b < fst a).
Proof.
  intros groups areas.
  assert (Hmax : 0 <= 2 < Z.of_nat (length groups)) by (simpl; lia).
  assert (Hareas : bubble_areas groups = inr areas) by (vm_compute; reflexivity).
  assert (Hnd : NoDup (map fst areas)).
  { simpl. repeat (constructor; [rewrite list_elem_of_In; simpl; lia|]). constructor. }
  split; [exact Hmax|]. split; [exact Hareas|]. split; [exact Hnd|].
  exact (prioritize_keeps_largest groups 2 areas Hmax Hareas Hnd).
Defined.

Lemma save_final_bounds_raises_witness :
  In [] [[frag_a]; []]
  /\ save_final_bounds [[frag_a]; []] = inl ValueError.
Proof.
  assert (Hin : In (@nil Region.t) [[frag_a]; []]) by (simpl; auto).
  split; [exact Hin|].
  exact (proj2 (save_final_bounds_raises [[frag_a]; []] ValueError) (conj eq_refl Hin)).
Defined.

Lemma visualize_speech_bubbles_records_witness :
  let regions := [frag_a; frag_c; frag_b] in
  let bubbles :=
    [Bubble.make 1 0 0 105 15 "a b" [frag_a; frag_b];
     Bubble.make 2 900 0 10 10 "c" [frag_c]] in
  visualize_speech_bubbles regions = inr (Some bubbles)
  /\ regions <> []
  /\ (1 <= length bubbles <= 2)%nat
  /\ (forall k record,
        bubbles !! k = Some record ->
        Bubble.bubble_number record = Z.of_nat k + 1
        /\ bounding_box (Bubble.text_regions record) = inr (bubble_box record))
  /\ concat (map Bubble.text_regions bubbles) ⊆+ regions
  /\ pairwise_disjoint (map bubble_box bubbles).
Proof.
  intros regions bubbles.
  assert (Hrun : visualize_speech_bubbles regions = inr (Some bubbles))
    by (vm_compute; reflexivity).
  split; [exact Hrun|].
  exact (visualize_speech_bubbles_records regions bubbles Hrun).
Defined.

End BoundsExtras.

(* ===================================================================== *)
(** * Properties of the other scripts *)
(* ===================================================================== *)

Module OtherExtras.
Import Py.

(** ** main.py: the rectangle that is whitened *)

Import RemoveText.

Lemma in_slice_spec n start stop i :
  0 <= n -> 0 <= start -> 0 <= stop ->
  in_slice n start stop i = true <-> 0 <= i < n /\ start <= i < stop.
Proof.
  intros Hn Hstart Hstop. unfold in_slice, slice_bound.
  assert (E1 : (start <? 0) = false) by (apply Z.ltb_ge; lia).
  assert (E2 : (stop <? 0) = false) by (apply Z.ltb_ge; lia).
  rewrite E1, E2, andb_true_iff, Z.leb_le, Z.ltb_lt. lia.
Qed.

(** X22. For a text region of non-negative width and height, the
    pixels whitened are exactly the pixels of the image in the
    rectangle that starts at [(max(0, x - 10), max(0, y - 5))] and is
    [width + 20] wide and [height + 10] high; so every pixel of the
    image within 10 columns and 5 rows of the region is whitened, and
    nothing outside the image is written. *)
Theorem whitened_padded_region rows columns x y width height row column :
  0 <= rows -> 0 <= columns -> 0 <= width -> 0 <= height ->
  (whitened (rows, columns) x y width height row column = true
   <-> 0 <= row < rows /\ 0 <= column < columns
       /\ Z.max 0 (x - 10) <= column < Z.max 0 (x - 10) + (width + 20)
       /\ Z.max 0 (y - 5) <= row < Z.max 0 (y - 5) + (height + 10))
  /\ (0 <= row < rows -> 0 <= column < columns ->
      x - 10 <= column < x + width + 10 -> y - 5 <= row < y + height + 5 ->
      whitened (rows, columns) x y width height row column = true).
Proof.
  intros Hrows Hcolumns Hwidth Hheight.
  assert (Hiff : whitened (rows, columns) x y width height row column = true
                 <-> 0 <= row < rows /\ 0 <= column < columns
                     /\ Z.max 0 (x - 10) <= column < Z.max 0 (x - 10) + (width + 20)
                     /\ Z.max 0 (y - 5) <= row < Z.max 0 (y - 5) + (height + 10)).
  { unfold whitened, padded_region, TEXT_PADDING_X, TEXT_PADDING_Y. cbn [fst snd].
    rewrite andb_true_iff, !in_slice_spec by lia. lia. }
  split; [exact Hiff|].
  intros Hr Hc Hx Hy. apply Hiff. lia.
Qed.

(** ** copy_to_game.py: the name of the target file *)

Import CopyToGame.

Lemma split_on_cons sep text : exists piece pieces, split_on sep text = piece :: pieces.
Proof.
  induction text as [|c text (piece & pieces & IH)]; simpl; [eauto|].
  destruct (Ascii.eqb c sep); [eauto|]. rewrite IH. eauto.
Qed.

Lemma split_on_whole sep text :
  Forall (fun c => c <> sep) text -> split_on sep text = [text].
Proof.
  induction 1 as [|c text Hc _ IH]; simpl; [reflexivity|].
  apply Ascii.eqb_neq in Hc. rewrite Hc, IH. reflexivity.
Qed.

Lemma split_on_app sep piece rest :
  Forall (fun c => c <> sep) piece ->
  split_on sep (piece ++ sep :: rest) = piece :: split_on sep rest.
Proof.
  induction 1 as [|c piece Hc _ IH]; simpl.
  - rewrite Ascii.eqb_refl. reflexivity.
  - apply Ascii.eqb_neq in Hc. rewrite Hc, IH. reflexivity.
Qed.

Lemma split_on_second sep text :
  split_on sep text !! 1%nat = None <-> Forall (fun c => c <> sep) text.
Proof.
  induction text as [|c text IH]; simpl.
  - split; [constructor | reflexivity].
  - destruct (Ascii.eqb c sep) eqn:E.
    + apply Ascii.eqb_eq in E. subst c. split.
      * destruct (split_on_cons sep text) as (piece & pieces & ->). discriminate.
      * intros Hall. inversion Hall; subst. congruence.
    + apply Ascii.eqb_neq in E.
      destruct (split_on_cons sep text) as (piece & pieces & Hs).
      rewrite Hs in *. simpl in *. rewrite IH. split.
      * intros Hall. constructor; assumption.
      * intros Hall. inversion Hall; subst. assumption.
Qed.

(** X23. The target name keeps the first two dash-separated parts of
    the source name and replaces everything after them by the language
    asked for: [first-number-anything] and [first-number.extension]
    both become [first-number-language.webp].  In particular the name
    [spch-N-language.webp] written by the text insertion is kept as it
    is. *)
Theorem target_name_keeps_number first number rest extension language :
  Forall (fun c => c <> "-"%char) first ->
  Forall (fun c => c <> "-"%char /\ c <> "."%char) number ->
  target_name (first ++ lit "-" ++ number ++ lit "-" ++ rest) language
  = Some (first ++ lit "-" ++ number ++ lit "-" ++ language ++ lit ".webp")
  /\ (Forall (fun c => c <> "-"%char) extension ->
      target_name (first ++ lit "-" ++ number ++ lit "." ++ extension) language
      = Some (first ++ lit "-" ++ number ++ lit "-" ++ language ++ lit ".webp")).
Proof.
  intros Hfirst Hnumber.
  assert (Hdash : Forall (fun c => c <> "-"%char) number).
  { eapply Forall_impl; [exact Hnumber|]. intros c [Hc _]. exact Hc. }
  assert (Hdot : Forall (fun c => c <> "."%char) number).
  { eapply Forall_impl; [exact Hnumber|]. intros c [_ Hc]. exact Hc. }
  split.
  - unfold target_name, base_name. simpl.
    rewrite (split_on_app _ first) by exact Hfirst.
    rewrite (split_on_app _ number) by exact Hdash. simpl.
    rewrite (split_on_whole _ number) by exact Hdot. simpl.
    rewrite <- !app_assoc. reflexivity.
  - intros Hrest. unfold target_name, base_name. simpl.
    rewrite (split_on_app _ first) by exact Hfirst.
    rewrite (split_on_whole "-" (number ++ "."%char :: extension)).
    + simpl. rewrite (split_on_app _ number) by exact Hdot. simpl.
      rewrite <- !app_assoc. reflexivity.
    + apply Forall_app. split; [exact Hdash|].
      constructor; [discriminate | exact Hrest].
Qed.

(** X24. Computing the target name raises [IndexError] exactly for a
    source name without a dash. *)
Theorem target_name_index_error file language :
  target_name file language = None <-> Forall (fun c => c <> "-"%char) file.
Proof.
  unfold target_name, base_name.
  destruct (split_on_cons "-" file) as (piece & pieces & Hs).
  pose proof (split_on_second "-" file) as Hsecond.
  rewrite Hs in *. simpl in *.
  destruct (pieces !! 0%nat) as [second|] eqn:E.
  - destruct (split_on_cons "." second) as (number & others & ->). simpl.
    split; [discriminate|]. intros Hall. apply Hsecond in Hall. discriminate.
  - split; [intros _; apply Hsecond; reflexivity | reflexivity].
Qed.

(** ** detect_speech_bubbles.py: the regions written to the bounds file *)

Import VisualizeBounds DetectSpeechBubbles.

Section Detect.
Variable spanish : str -> bool.

Lemma region_of_sound x y w h text confidence :
  40 < confidence -> text <> [] -> spanish text = true ->
  40 < Region.confidence (region_of x y w h text confidence)
  /\ Region.text (region_of x y w h text confidence) <> ""%string
  /\ spanish (lit (Region.text (region_of x y w h text confidence))) = true.
Proof.
  intros Hc Hne Hs. unfold region_of, lit. simpl.
  rewrite list_ascii_of_string_of_list_ascii.
  split; [exact Hc|]. split; [|exact Hs].
  destruct text; [congruence | discriminate].
Qed.

Lemma read_rows_sound rows : forall bounding_boxes,
  Forall (fun r => 40 < Region.confidence r
                   /\ Region.text r <> ""%string
                   /\ spanish (lit (Region.text r)) = true) bounding_boxes ->
  Forall (fun r => 40 < Region.confidence r
                   /\ Region.text r <> ""%string
                   /\ spanish (lit (Region.text r)) = true)
         (read_rows spanish rows bounding_boxes).
Proof.
  induction rows as [|r rows IH]; intros bb Hbb; simpl; [exact Hbb|].
  destruct ((conf r >? 40) && negb (bool_decide (Py.strip (text r) = []))) eqn:E;
    [|apply IH, Hbb].
  destruct (spanish (Py.strip (text r))) eqn:Es; [|apply IH, Hbb].
  apply andb_true_iff in E as [Ec Et].
  apply IH, Forall_app. split; [exact Hbb|]. constructor; [|constructor].
  apply region_of_sound; [| |exact Es].
  - rewrite Z.gtb_ltb in Ec. apply Z.ltb_lt in Ec. exact Ec.
  - apply negb_true_iff, bool_decide_eq_false in Et. exact Et.
Qed.

Lemma try_modes_sound ocr psm_modes : forall bounding_boxes,
  Forall (fun r => 40 < Region.confidence r
                   /\ Region.text r <> ""%string
                   /\ spanish (lit (Region.text r)) = true) bounding_boxes ->
  Forall (fun r => 40 < Region.confidence r
                   /\ Region.text r <> ""%string
                   /\ spanish (lit (Region.text r)) = true)
         (try_modes spanish ocr psm_modes bounding_boxes).
Proof.
  induction psm_modes as [|psm rest IH]; intros bb Hbb; simpl; [exact Hbb|].
  pose proof (read_rows_sound (ocr psm) bb Hbb) as Hr.
  destruct (read_rows spanish (ocr psm) bb); [apply IH; constructor | exact Hr].
Qed.

(** X25. Every region that [detect_text_regions] returns has a
    confidence above 40 and a text that is not empty and matches the
    pattern of Spanish text. *)
Theorem detect_text_regions_sound shape ocr whole :
  Forall (fun r => 40 < Region.confidence r
                   /\ Region.text r <> ""%string
                   /\ spanish (lit (Region.text r)) = true)
         (detect_text_regions spanish shape ocr whole).
Proof.
  unfold detect_text_regions. destruct shape as [[h w]|]; [|constructor].
  pose proof (try_modes_sound ocr [11; 6; 3] [] (Forall_nil_2 _)) as Hm.
  destruct (try_modes spanish ocr [11; 6; 3] []); [|exact Hm].
  destruct (negb (bool_decide (Py.strip whole = [])) && spanish (Py.strip whole)) eqn:E;
    [|constructor].
  apply andb_true_iff in E as [Et Es].
  constructor; [|constructor].
  apply region_of_sound; [lia | | exact Es].
  apply negb_true_iff, bool_decide_eq_false in Et. exact Et.
Qed.

(** X26. When no OCR pass finds a region in an image of positive
    width and height, the only region that can be returned is the
    box of the whole image with a margin of a tenth of its smaller
    side, rounded down: it has confidence 70, positive width and
    height, and lies inside the image at the same distance from all
    four sides. *)
Theorem detect_whole_image_region h w ocr whole region :
  0 < w -> 0 < h ->
  try_modes spanish ocr [11; 6; 3] [] = [] ->
  In region (detect_text_regions spanish (Some (h, w)) ocr whole) ->
  detect_text_regions spanish (Some (h, w)) ocr whole = [region]
  /\ Region.confidence region = 70
  /\ Region.x region = Z.min w h / 10
  /\ Region.y region = Z.min w h / 10
  /\ 0 < Region.width region /\ 0 < Region.height region
  /\ Region.x region + Region.width region = w - Z.min w h / 10
  /\ Region.y region + Region.height region = h - Z.min w h / 10.
Proof.
  intros Hw Hh Hnone. unfold detect_text_regions. rewrite Hnone.
  destruct (negb (bool_decide (Py.strip whole = [])) && spanish (Py.strip whole));
    [|intros []].
  intros [<-|[]].
  assert (Hq : py_int (inject_Z (Z.min w h) * 0.1)%Q = Z.min w h / 10).
  { unfold py_int. simpl. rewrite Z.mul_1_r. apply Z.quot_div_nonneg; lia. }
  rewrite Hq. unfold region_of. simpl.
  pose proof (Z.div_mod (Z.min w h) 10). pose proof (Z.mod_pos_bound (Z.min w h) 10).
  split; [reflexivity|]. repeat split; lia.
Qed.

End Detect.

(** ** Runs *)

Lemma whitened_padded_region_witness :
  0 <= 100 /\ 0 <= 200 /\ 0 <= 30 /\ 0 <= 12
  /\ (whitened (100, 200) 4 50 30 12 45 0 = true
      <-> 0 <= 45 < 100 /\ 0 <= 0 < 200
          /\ Z.max 0 (4 - 10) <= 0 < Z.max 0 (4 - 10) + (30 + 20)
          /\ Z.max 0 (50 - 5) <= 45 < Z.max 0 (50 - 5) + (12 + 10))
  /\ (0 <= 45 < 100 -> 0 <= 0 < 200 ->
      4 - 10 <= 0 < 4 + 30 + 10 -> 50 - 5 <= 45 < 50 + 12 + 5 ->
      whitened (100, 200) 4 50 30 12 45 0 = true).
Proof.
  assert (H1 : 0 <= 100) by lia. assert (H2 : 0 <= 200) by lia.
  assert (H3 : 0 <= 30) by lia. assert (H4 : 0 <= 12) by lia.
  do 4 (split; [lia|]).
  exact (whitened_padded_region 100 200 4 50 30 12 45 0 H1 H2 H3 H4).
Defined.

Lemma target_name_keeps_number_witness :
  Forall (fun c => c <> "-"%char) (lit "spch")
  /\ Forall (fun c => c <> "-"%char /\ c <> "."%char) (lit "12")
  /\ target_name (lit "spch" ++ lit "-" ++ lit "12" ++ lit "-" ++ lit "EN-US.webp")
                 (lit "EN-US")
     = Some (lit "spch" ++ lit "-" ++ lit "12" ++ lit "-" ++ lit "EN-US" ++ lit ".webp")
  /\ (Forall (fun c => c <> "-"%char) (lit "webp") ->
      target_name (lit "spch" ++ lit "-" ++ lit "12" ++ lit "." ++ lit "webp")
                  (lit "EN-US")
      = Some (lit "spch" ++ lit "-" ++ lit "12" ++ lit "-" ++ lit "EN-US" ++ lit ".webp")).
Proof.
  assert (Hfirst : Forall (fun c => c <> "-"%char) (lit "spch"))
    by (repeat constructor; discriminate).
  assert (Hnumber : Forall (fun c => c <> "-"%char /\ c <> "."%char) (lit "12"))
    by (repeat constructor; discriminate).
  split; [exact Hfirst|]. split; [exact Hnumber|].
  exact (target_name_keeps_number (lit "spch") (lit "12") (lit "EN-US.webp")
           (lit "webp") (lit "EN-US") Hfirst Hnumber).
Defined.

Lemma target_name_index_error_witness :
  Forall (fun c => c <> "-"%char) (lit "cover.webp")
  /\ target_name (lit "cover.webp") (lit "LV") = None.
Proof.
  assert (Hall : Forall (fun c => c <> "-"%char) (lit "cover.webp"))
    by (repeat constructor; discriminate).
  split; [exact Hall|].
  exact (proj2 (target_name_index_error (lit "cover.webp") (lit "LV")) Hall).
Defined.

Lemma detect_whole_image_region_witness :
  let spanish := fun _ : str => true in
  let ocr := fun _ : Z => [make_row 95 (lit "   ") 3 4 20 10;
                          make_row 30 (lit "Hola") 3 4 20 10] in
  let region := region_of 12 12 176 101 (lit "Hola") 70 in
  0 < 200 /\ 0 < 125
  /\ try_modes spanish ocr [11; 6; 3] [] = []
  /\ In region (detect_text_regions spanish (Some (125, 200)) ocr (lit " Hola "))
  /\ detect_text_regions spanish (Some (125, 200)) ocr (lit " Hola ") = [region]
  /\ Region.confidence region = 70
  /\ Region.x region = Z.min 200 125 / 10
  /\ Region.y region = Z.min 200 125 / 10
  /\ 0 < Region.width region /\ 0 < Region.height region
  /\ Region.x region + Region.width region = 200 - Z.min 200 125 / 10
  /\ Region.y region + Region.height region = 125 - Z.min 200 125 / 10.
Proof.
  intros spanish ocr region.
  assert (Hw : 0 < 200) by lia. assert (Hh : 0 < 125) by lia.
  assert (Hnone : try_modes spanish ocr [11; 6; 3] [] = []) by (vm_compute; reflexivity).
  assert (Hin : In region (detect_text_regions spanish (Some (125, 200)) ocr (lit " Hola ")))
    by (vm_compute; left; reflexivity).
  split; [exact Hw|]. split; [exact Hh|]. split; [exact Hnone|]. split; [exact Hin|].
  exact (detect_whole_image_region spanish 125 200 ocr (lit " Hola ") region
           Hw Hh Hnone Hin).
Defined.

End OtherExtras.

(* ===================================================================== *)
(** * translate.py: every bubble gets the translation of its own text *)
(* ===================================================================== *)

Module TranslateExtras.
Import Py VisualizeBounds Translate.

Section Correct.
Variable R : string -> string -> Prop.

(** The updates collected for one file, applied to its bubbles. *)
Lemma update_collected file bubbles : forall i before results,
  length before = i ->
  Forall2 R (map (fun e : entry => snd (fst e)) (collect_from file i bubbles)) results ->
  exists bubbles',
    update (before ++ bubbles) (slots (collect_from file i bubbles) results)
    = Some (before ++ bubbles')
    /\ Forall2 (translated R) bubbles bubbles'.
Proof.
  induction bubbles as [|b rest IH]; intros i before results Hlen Hres.
  - simpl. exists []. split; [reflexivity | constructor].
  - simpl in *. unfold translated at 1.
    destruct (String.eqb (Bubble.text b) "") eqn:Eb.
    + destruct (IH (S i) (before ++ [b]) results) as (rest' & Hrun & Hrel);
        [rewrite length_app; simpl; lia | exact Hres |].
      rewrite <- !app_assoc in Hrun. simpl in Hrun.
      exists (b :: rest'). split; [exact Hrun|].
      constructor; [|exact Hrel]. unfold translated. rewrite Eb. reflexivity.
    + simpl in Hres. inversion Hres as [|? r ? results' Hr Hres']; subst.
      unfold slots. simpl.
      rewrite lookup_app_r by lia. rewrite Nat.sub_diag. simpl.
      rewrite insert_app_r_alt by lia. rewrite Nat.sub_diag. simpl.
      destruct (IH (S (length before)) (before ++ [set_text r b]) results')
        as (rest' & Hrun & Hrel);
        [rewrite length_app; simpl; lia | exact Hres' |].
      rewrite <- !app_assoc in Hrun. simpl in Hrun.
      exists (set_text r b :: rest'). split; [exact Hrun|].
      constructor; [|exact Hrel]. unfold translated. rewrite Eb.
      exists r. split; [reflexivity | exact Hr].
Qed.

(** ** Grouping *)

Lemma add_translation_fresh file t d :
  ~ In (fst file) (map fst d) ->
  add_translation file t d = d ++ [(fst file, (snd file, [t]))].
Proof.
  induction d as [|[k [data ts]] d IH]; simpl; intros Hk; [reflexivity|].
  destruct (String.eqb k (fst file)) eqn:E.
  - apply String.eqb_eq in E. tauto.
  - rewrite IH by tauto. reflexivity.
Qed.

Lemma add_translation_last file t d data ts :
  ~ In (fst file) (map fst d) ->
  add_translation file t (d ++ [(fst file, (data, ts))])
  = d ++ [(fst file, (data, ts ++ [t]))].
Proof.
  induction d as [|[k [data' ts']] d IH]; simpl; intros Hk.
  - rewrite String.eqb_refl. reflexivity.
  - destruct (String.eqb k (fst file)) eqn:E.
    + apply String.eqb_eq in E. tauto.
    + rewrite IH by tauto. reflexivity.
Qed.

Lemma group_file_rest file d es : forall results data ts,
  ~ In (fst file) (map fst d) ->
  Forall (fun e : entry => fst (fst e) = file) es ->
  fold_left group_step (zip es results) (d ++ [(fst file, (data, ts))])
  = d ++ [(fst file, (data, ts ++ slots es results))].
Proof.
  induction es as [|e es IH]; intros results data ts Hk Hes.
  - simpl. rewrite app_nil_r. reflexivity.
  - destruct results as [|r results]; [simpl; rewrite app_nil_r; reflexivity|].
    inversion Hes as [|? ? He Hes']; subst.
    simpl. unfold group_step at 2. simpl.
    rewrite add_translation_last by exact Hk.
    rewrite IH by assumption.
    unfold slots. simpl. rewrite <- app_assoc. reflexivity.
Qed.

Lemma group_file file d e es r results :
  ~ In (fst file) (map fst d) ->
  Forall (fun e : entry => fst (fst e) = file) (e :: es) ->
  fold_left group_step (zip (e :: es) (r :: results)) d
  = d ++ [(fst file, (snd file, slots (e :: es) (r :: results)))].
Proof.
  intros Hk Hes. inversion Hes as [|? ? He Hes']; subst.
  simpl. unfold group_step at 2. simpl.
  rewrite add_translation_fresh by exact Hk.
  rewrite group_file_rest by assumption. reflexivity.
Qed.

Lemma collect_from_file file bubbles : forall i,
  Forall (fun e : entry => fst (fst e) = file) (collect_from file i bubbles).
Proof.
  induction bubbles as [|b rest IH]; intros i; simpl; [constructor|].
  destruct (String.eqb (Bubble.text b) ""); [apply IH|].
  constructor; [reflexivity | apply IH].
Qed.

Lemma collect_from_none file bubbles : forall i,
  collect_from file i bubbles = []
  <-> existsb (fun b => negb (String.eqb (Bubble.text b) "")) bubbles = false.
Proof.
  induction bubbles as [|b rest IH]; intros i; simpl; [tauto|].
  destruct (String.eqb (Bubble.text b) ""); simpl; [apply IH|].
  split; discriminate.
Qed.

(** The dict after the grouping loop, and the files written from the
    part of it that the loop has added. *)
Lemma group_files files : forall d results,
  NoDup (map fst files) ->
  (forall k, In k (map fst d) -> ~ In k (map fst files)) ->
  Forall2 R (texts_to_translate files) results ->
  exists added,
    fold_left group_step (zip (collect files) results) d = d ++ added
    /\ Forall2 (fun (file out : source) =>
                  fst out = fst file
                  /\ Forall2 (translated R) (snd file) (snd out))
               (List.filter has_text files) (write_files added).
Proof.
  induction files as [|file files IH]; intros d results Hnd Hd Hres.
  - exists []. simpl. rewrite app_nil_r. split; [reflexivity | constructor].
  - inversion Hnd as [|? ? Hfile Hnd']; subst.
    rewrite list_elem_of_In in Hfile.
    unfold texts_to_translate, collect in Hres. simpl in Hres.
    rewrite map_app in Hres.
    apply Forall2_app_inv_l in Hres as (rs & results' & Hrs & Hres' & ->).
    pose proof (Forall2_length _ _ _ Hrs) as Hlen. rewrite length_map in Hlen.
    unfold collect. simpl flat_map.
    rewrite zip_with_app by exact Hlen. rewrite fold_left_app.
    assert (Hfresh : ~ In (fst file) (map fst d)).
    { intros Hin. apply (Hd _ Hin). left. reflexivity. }
    destruct (update_collected file (snd file) 0 [] rs eq_refl Hrs)
      as (bubbles' & Hrun & Hrel).
    simpl in Hrun.
    destruct (collect_from file 0 (snd file)) as [|e es] eqn:Ees.
    + destruct rs; [|discriminate]. simpl.
      destruct (IH d results' Hnd') as (added & Hfold & Hout); [|exact Hres'|].
      { intros k Hk Hin. apply (Hd k Hk). right. exact Hin. }
      exists added. split; [exact Hfold|].
      apply collect_from_none in Ees. unfold has_text at 1. rewrite Ees. exact Hout.
    + destruct rs as [|r rs]; [discriminate|].
      pose proof (collect_from_file file (snd file) 0) as Hall. rewrite Ees in Hall.
      rewrite (group_file file d e es r rs Hfresh Hall).
      destruct (IH (d ++ [(fst file, (snd file, slots (e :: es) (r :: rs)))]) results' Hnd')
        as (added & Hfold & Hout); [|exact Hres'|].
      { intros k Hk Hin. rewrite map_app in Hk. apply in_app_iff in Hk as [Hk|Hk].
        - apply (Hd k Hk). right. exact Hin.
        - simpl in Hk. destruct Hk as [<-|[]]. exact (Hfile Hin). }
      exists ((fst file, (snd file, slots (e :: es) (r :: rs))) :: added).
      split.
      { etransitivity; [exact Hfold|]. rewrite <- app_assoc. reflexivity. }
      assert (Hhas : has_text file = true).
      { destruct (has_text file) eqn:E; [reflexivity|].
        apply collect_from_none with (file := file) (i := 0%nat) in E. congruence. }
      cbn [List.filter]. rewrite Hhas. cbn [write_files]. rewrite Hrun.
      constructor; [|exact Hout]. simpl. split; [reflexivity | exact Hrel].
Qed.

(** X28. For files with distinct names and a translator that answers
    one result per text, each related to its text by [R]: the files
    written are, in order, the files that have some text; each keeps
    its name and its bubbles, where every bubble without text is
    unchanged and every other bubble differs only in its text, which
    is the result for its own text. *)
Theorem translate_main_translates_each_bubble files translate_text :
  NoDup (map fst files) ->
  Forall2 R (texts_to_translate files) (translate_text (texts_to_translate files)) ->
  Forall2 (fun (file out : source) =>
             fst out = fst file
             /\ Forall2 (translated R) (snd file) (snd out))
          (List.filter has_text files) (main files translate_text).
Proof.
  intros Hnd Hres.
  destruct (group_files files [] (translate_text (texts_to_translate files)) Hnd)
    as (added & Hfold & Hout); [intros k [] | exact Hres |].
  simpl in Hfold. unfold main.
  destruct (texts_to_translate files) as [|text texts] eqn:Et.
  - unfold texts_to_translate in Et. apply map_eq_nil in Et.
    rewrite Et in Hfold. simpl in Hfold. subst added. exact Hout.
  - unfold group. change (fun (d : grouped) (er : entry * string) =>
                            add_translation (fst (fst (fst er))) (snd (fst er), snd er) d)
      with group_step.
    rewrite Hfold. exact Hout.
Qed.

End Correct.

(** ** A run *)

Lemma translate_main_translates_each_bubble_witness :
  let R := fun text result : string => result = String.append "lv:" text in
  let translate_text := map (String.append "lv:") in
  let files :=
    [("spread-0-0_final.json",
      [Bubble.make 1 0 0 105 15 "a b" [frag_a; frag_b];
       Bubble.make 2 900 0 10 10 "" []]);
     ("spread-0-1_final.json", [Bubble.make 1 0 0 10 10 "" []]);
     ("spread-1-0_final.json", [Bubble.make 1 900 0 10 10 "c" [frag_c]])] in
  NoDup (map fst files)
  /\ Forall2 R (texts_to_translate files) (translate_text (texts_to_translate files))
  /\ main files translate_text
     = [("spread-0-0_final.json",
         [Bubble.make 1 0 0 105 15 "lv:a b" [frag_a; frag_b];
          Bubble.make 2 900 0 10 10 "" []]);
        ("spread-1-0_final.json", [Bubble.make 1 900 0 10 10 "lv:c" [frag_c]])]
  /\ Forall2 (fun (file out : source) =>
                fst out = fst file
                /\ Forall2 (translated R) (snd file) (snd out))
             (List.filter has_text files) (main files translate_text).
Proof.
  intros R translate_text files.
  assert (Hnd : NoDup (map fst files)).
  { simpl. repeat (constructor; [rewrite list_elem_of_In; simpl; intuition discriminate|]).
    constructor. }
  assert (Hres : Forall2 R (texts_to_translate files)
                         (translate_text (texts_to_translate files)))
    by (vm_compute; repeat constructor).
  split; [exact Hnd|]. split; [exact Hres|]. split; [vm_compute; reflexivity|].
  exact (translate_main_translates_each_bubble R files translate_text Hnd Hres).
Defined.

End TranslateExtras.
